(** * A shallow embedding of the recursive DNS resolver

    The repository contains two variants of one resolver built on
    dnspython: [resolve.py] (module [Resolve] below) and [resolve3.py]
    (module [Resolve3]).  Both keep three process-wide objects --
    [answer_cache], [authority_cache] and [active_lookups] -- and walk
    the delegation hierarchy from the root servers.

    The network ([dns.query.udp]) is external: it is a section variable
    [transport], so every theorem holds for every network, and the
    concrete scenarios instantiate it.  A bounded recursion budget
    ([fuel]) stands for Python's unbounded [while] loop and recursion:
    [None] means "no result within the budget". *)

From Stdlib Require Import NArith List String Ascii Lia Bool.
From stdpp Require Import base option list gmap sets strings pretty countable.

Local Open Scope string_scope.
Local Open Scope list_scope.
Local Open Scope nat_scope.

(** ** dnspython values *)

(** A label is a byte string; a [dns.name.Name] is its tuple of labels
    (an absolute name ends with the empty label). *)
Record Name := mkName { labels : list string }.

Definition lower_ascii (c : ascii) : ascii :=
  let n := N_of_ascii c in
  if ((65 <=? n) && (n <=? 90))%N then ascii_of_N (n + 32) else c.

Fixpoint lower (s : string) : string :=
  match s with
  | EmptyString => EmptyString
  | String c r => String (lower_ascii c) (lower r)
  end.

(** [Name.__hash__] and [Name.__eq__] work on the lower-cased labels. *)
Definition canon (n : Name) : list string := map lower (labels n).

Definition name_eqb (n m : Name) : bool := bool_decide (canon n = canon m).

(** Keys of the two cache dictionaries.  The code stores under
    [name.labels] (a tuple of byte strings, compared byte for byte) but
    sometimes tests membership with a [Name] object, whose equality
    with a tuple is always [False]. *)
Inductive pykey :=
  | KLabels (ls : list string)
  | KName (cn : list string).

#[global] Instance pykey_eq_dec : EqDecision pykey.
Proof. solve_decision. Defined.

#[global] Instance pykey_countable : Countable pykey.
Proof.
  refine (inj_countable'
    (λ k, match k with KLabels l => inl l | KName l => inr l end)
    (λ s, match s with inl l => KLabels l | inr l => KName l end) _).
  by intros [].
Defined.

(** Record types are the integers of [dns.rdatatype]. *)
Definition rdtype := N.
Definition A : rdtype := 1%N.
Definition NS : rdtype := 2%N.
Definition CNAME : rdtype := 5%N.
Definition MX : rdtype := 15%N.
Definition AAAA : rdtype := 28%N.

Inductive rdata :=
  | RdAddr (address : string)
  | RdTarget (target : Name)
  | RdMX (preference : N) (exchange : Name)
  | RdOther (text : string).

Record rrset := mkRRset {
  rr_name : Name;
  rr_type : rdtype;
  items : list rdata
}.

(** A [dns.message.Message], reduced to its three record sections. *)
Record message := mkMessage {
  answer : list rrset;
  authority : list rrset;
  additional : list rrset
}.

Definition empty_message : message := mkMessage [] [] [].

Inductive exn :=
  | DnsTimeout
  | ValueError
  | FormError
  | OSError
  | TypeError
  | AttributeError
  | IndexError
  | KeyError.

Inductive result (X : Type) :=
  | Ret (x : X)
  | Raise (e : exn).
Arguments Ret {X} x.
Arguments Raise {X} e.

Inductive reply :=
  | Response (m : message)
  | Failure (e : exn).

(** [rdata.target] exists on CNAME and NS data only. *)
Definition rd_target (rd : rdata) : option Name :=
  match rd with
  | RdTarget t => Some t
  | _ => None
  end.

Definition name_to_text (n : Name) : string :=
  match labels n with
  | [] => "@"
  | [""] => "."
  | ls => String.concat "." ls
  end.

Definition rdata_to_text (rd : rdata) : string :=
  match rd with
  | RdAddr a => a
  | RdTarget t => name_to_text t
  | RdMX p e => String.append (pretty p) (String.append " " (name_to_text e))
  | RdOther t => t
  end.

Definition rdata_eqb (x y : rdata) : bool :=
  match x, y with
  | RdAddr a, RdAddr b => String.eqb a b
  | RdTarget t, RdTarget u => name_eqb t u
  | RdMX p e, RdMX p' e' => N.eqb p p' && name_eqb e e'
  | RdOther t, RdOther u => String.eqb t u
  | _, _ => false
  end.

Definition rrset_eqb (x y : rrset) : bool :=
  name_eqb (rr_name x) (rr_name y)
  && N.eqb (rr_type x) (rr_type y)
  && forallb (λ a, existsb (rdata_eqb a) (items y)) (items x)
  && forallb (λ b, existsb (rdata_eqb b) (items x)) (items y).

Definition ROOT_SERVERS : list string :=
  ["198.41.0.4"; "199.9.14.201"; "192.33.4.12"; "199.7.91.13";
   "192.203.230.10"; "192.5.5.241"; "192.112.36.4"; "198.97.190.53";
   "192.36.148.17"; "192.58.128.30"; "193.0.14.129"; "199.7.83.42";
   "202.12.27.33"].

(** [list.pop()]: the last element and the list without it. *)
Definition pop {X} (l : list X) : option (list X * X) :=
  match rev l with
  | [] => None
  | x :: r => Some (rev r, x)
  end.

(** The ancestor suffixes the seeding loop visits:
    [for i in reversed(range(len(labels) - 2)): labels[i + 1:]]. *)
Definition seed_domains (ls : list string) : list (list string) :=
  map (λ i, drop (i + 1) ls) (rev (seq 0 (length ls - 2))).

(** The same suffixes by recursion on the tuple, nearest first: every
    proper suffix that keeps at least two labels (the root [("",)] and
    the name itself are left out). *)
Fixpoint ancestor_zones (ls : list string) : list (list string) :=
  match ls with
  | [] => []
  | _ :: r => if Nat.leb 2 (length r) then r :: ancestor_zones r else []
  end.

(** [active_lookups] is a set of [Name]s, held by canonical form. *)
Definition active_add (n : Name) (s : gset (list string)) : gset (list string) :=
  {[canon n]} ∪ s.
Definition active_discard (n : Name) (s : gset (list string)) : gset (list string) :=
  s ∖ {[canon n]}.
Definition active_mem (n : Name) (s : gset (list string)) : bool :=
  bool_decide (canon n ∈ s).

(** ** collect_results

    The function has the same text in both files: four calls of
    [lookup] (CNAME, A, AAAA, MX), each answer turned into a list of
    small dictionaries.  [lookup] and [dns.name.from_text] are left
    open here; each module closes them below.  Every rdata of an RRset
    has the type of the RRset, so the test [answer.rdtype == 1] reads
    the type of the set. *)

Record alias_fact := mkAlias { al_name : rdata; al_alias : string }.
Record address_fact := mkAddress { ad_name : Name; ad_address : string }.
Record mail_fact := mkMail {
  ml_name : Name;
  ml_preference : N;
  ml_exchange : string
}.

(** The dictionary [full_response], with its four keys. *)
Record full_response := mkFull {
  fr_CNAME : list alias_fact;
  fr_A : list address_fact;
  fr_AAAA : list address_fact;
  fr_MX : list mail_fact
}.

Definition alias_facts (name : string) (response : message) : list alias_fact :=
  flat_map (λ answers, map (λ answer, mkAlias answer name) (items answers))
    (answer response).

Definition address_facts (t : rdtype) (response : message) : list address_fact :=
  flat_map (λ answers,
      flat_map (λ answer,
          if N.eqb (rr_type answers) t
          then [mkAddress (rr_name answers) (rdata_to_text answer)]
          else [])
        (items answers))
    (answer response).

(** [answer.preference] and [answer.exchange] exist on MX data only. *)
Fixpoint mail_facts_of (mx_name : Name) (rds : list rdata) : result (list mail_fact) :=
  match rds with
  | [] => Ret []
  | RdMX p e :: rest =>
      match mail_facts_of mx_name rest with
      | Ret l => Ret (mkMail mx_name p (name_to_text e) :: l)
      | Raise ex => Raise ex
      end
  | _ :: _ => Raise AttributeError
  end.

Fixpoint mail_facts (rrs : list rrset) : result (list mail_fact) :=
  match rrs with
  | [] => Ret []
  | answers :: rest =>
      match
        (if N.eqb (rr_type answers) 15%N
         then mail_facts_of (rr_name answers) (items answers)
         else Ret [])
      with
      | Raise ex => Raise ex
      | Ret l =>
          match mail_facts rest with
          | Ret l' => Ret (l ++ l')
          | Raise ex => Raise ex
          end
      end
  end.

Section Collect.

Context {S : Type}.
Variable from_text : string → Name.
Variable lookup : Name → rdtype → S → option (result message * S).

Definition collect_results_with (name : string) (st : S)
    : option (result full_response * S) :=
  let target_name := from_text name in
  match lookup target_name CNAME st with
  | None => None
  | Some (Raise ex, st1) => Some (Raise ex, st1)
  | Some (Ret response, st1) =>
      let cnames := alias_facts name response in
      match lookup target_name A st1 with
      | None => None
      | Some (Raise ex, st2) => Some (Raise ex, st2)
      | Some (Ret response, st2) =>
          let arecords := address_facts 1%N response in
          match lookup target_name AAAA st2 with
          | None => None
          | Some (Raise ex, st3) => Some (Raise ex, st3)
          | Some (Ret response, st3) =>
              let aaaarecords := address_facts 28%N response in
              match lookup target_name MX st3 with
              | None => None
              | Some (Raise ex, st4) => Some (Raise ex, st4)
              | Some (Ret response, st4) =>
                  match mail_facts (answer response) with
                  | Raise ex => Some (Raise ex, st4)
                  | Ret mxrecords =>
                      Some (Ret (mkFull cnames arecords aaaarecords mxrecords), st4)
                  end
              end
          end
      end
  end.

End Collect.

(** ** resolve.py *)

Module Resolve.

(** A value of the inner dictionaries of [answer_cache]: an RRset, or
    the list [[]] that marks a route without answer. *)
Inductive cached :=
  | Neg
  | Pos (rr : rrset).

Definition cached_len (c : cached) : nat :=
  match c with
  | Neg => 0
  | Pos rr => length (items rr)
  end.

(** What the second component of a worklist tuple can hold: an address
    string, a [Name] (from an NS record), a value read from
    [answer_cache] by the seeding, or the rdata that
    [resolve_dns_cname] returns on its cache shortcut. *)
Inductive server :=
  | SvAddr (a : string)
  | SvName (n : Name)
  | SvCached (c : cached)
  | SvRdata (rd : rdata).

Definition entry : Type := rdtype * server.

(** Python [==] between two such values. *)
Definition server_eqb (x y : server) : bool :=
  match x, y with
  | SvAddr a, SvAddr b => String.eqb a b
  | SvName n, SvName m => name_eqb n m
  | SvCached Neg, SvCached Neg => true
  | SvCached (Pos r), SvCached (Pos r') => rrset_eqb r r'
  | SvRdata r, SvRdata r' => rdata_eqb r r'
  | _, _ => false
  end.

(** One call of the transport adapter, with the nesting depth of the
    [lookup] frame that issued it (a ghost field). *)
Record query := mkQuery {
  q_depth : nat;
  q_server : server;
  q_name : Name;
  q_type : rdtype
}.

Record state := mkState {
  answer_cache : gmap pykey (gmap N cached);
  authority_cache : gmap pykey (list Name);
  active_lookups : gset (list string);
  log : list query
}.

Definition empty_state : state := mkState ∅ ∅ ∅ [].

Definition set_answer_cache (ac : gmap pykey (gmap N cached)) (st : state) : state :=
  mkState ac (authority_cache st) (active_lookups st) (log st).
Definition set_active (al : gset (list string)) (st : state) : state :=
  mkState (answer_cache st) (authority_cache st) al (log st).

(** [if k not in answer_cache: answer_cache[k] = {}] *)
Definition ensure_row (k : pykey) (ac : gmap pykey (gmap N cached)) : gmap pykey (gmap N cached) :=
  match ac !! k with
  | Some _ => ac
  | None => <[k := ∅]> ac
  end.

(** [answer_cache[k][t] = c], the row being created when missing. *)
Definition put (k : pykey) (t : rdtype) (c : cached) (ac : gmap pykey (gmap N cached)) : gmap pykey (gmap N cached) :=
  <[k := <[t := c]> (default ∅ (ac !! k))]> ac.

Definition row (st : state) (target_name : Name) : option (gmap N cached) :=
  answer_cache st !! KLabels (labels target_name).

Definition candidates_at (st : state) (domain : list string) : list entry :=
  match authority_cache st !! KLabels domain with
  | Some servers => map (λ s, (CNAME, SvName s)) servers
  | None => []
  end ++
  match answer_cache st !! KLabels domain with
  | Some r =>
      match r !! A with
      | Some c => [(A, SvCached c)]
      | None =>
          match r !! CNAME with
          | Some c => [(CNAME, SvCached c)]
          | None => []
          end
      end
  | None => []
  end.

Definition load_initial_servers_to_query (st : state) (target_name : Name) : list entry :=
  let servers_to_query :=
    flat_map (candidates_at st) (seed_domains (labels target_name)) in
  if Nat.eqb (length servers_to_query) 0
  then map (λ s, (A, SvAddr s)) ROOT_SERVERS
  else servers_to_query.

(** The [except] clauses of [do_dns_query]. *)
Definition uncaught (e : exn) : option exn :=
  match e with
  | DnsTimeout | ValueError => None
  | _ => Some e
  end.

Fixpoint record_ns_targets (zone : pykey) (rds : list rdata)
    (servers_to_query : list entry) (auth : gmap pykey (list Name))
    : option exn * list entry * gmap pykey (list Name) :=
  match rds with
  | [] => (None, servers_to_query, auth)
  | authority_name :: rest =>
      match rd_target authority_name with
      | Some t =>
          record_ns_targets zone rest
            (servers_to_query ++ [(CNAME, SvName t)])
            (<[zone := default [] (auth !! zone) ++ [t]]> auth)
      | None => (Some AttributeError, servers_to_query, auth)
      end
  end.

Fixpoint record_authority (rrs : list rrset)
    (servers_to_query : list entry) (auth : gmap pykey (list Name))
    : option exn * list entry * gmap pykey (list Name) :=
  match rrs with
  | [] => (None, servers_to_query, auth)
  | ns_record :: rest =>
      if N.eqb (rr_type ns_record) NS && Nat.ltb 0 (length (items ns_record)) then
        let zone := KLabels (labels (rr_name ns_record)) in
        match record_ns_targets zone (items ns_record) servers_to_query
                (<[zone := []]> auth) with
        | (Some e, wl, auth') => (Some e, wl, auth')
        | (None, wl, auth') => record_authority rest wl auth'
        end
      else record_authority rest servers_to_query auth
  end.

Definition cache_answers (target_name : Name) (rrs : list rrset)
    (ac : gmap pykey (gmap N cached)) : gmap pykey (gmap N cached) :=
  fold_left (λ ac answer_rr,
      put (KLabels (labels target_name)) (rr_type answer_rr) (Pos answer_rr) ac)
    rrs ac.

Definition cache_additional (rrs : list rrset)
    (ac : gmap pykey (gmap N cached)) : gmap pykey (gmap N cached) :=
  fold_left (λ ac server_rr,
      put (KLabels (labels (rr_name server_rr))) (rr_type server_rr) (Pos server_rr) ac)
    rrs ac.

Section WithTransport.

(** [dns.query.udp(query, server, 3)], given the calls made so far. *)
Variable transport : list query → server → Name → rdtype → reply.

Definition do_dns_query (depth : nat) (target_name : Name) (qtype : rdtype)
    (srv : server) (servers_to_query : list entry) (st : state)
    : option exn * list entry * state :=
  let log' := log st ++ [mkQuery depth srv target_name qtype] in
  match transport (log st) srv target_name qtype with
  | Failure e =>
      (uncaught e, servers_to_query,
       mkState (answer_cache st) (authority_cache st) (active_lookups st) log')
  | Response response =>
      let ac :=
        cache_additional (additional response)
          (cache_answers target_name (answer response)
            (ensure_row (KLabels (labels target_name)) (answer_cache st))) in
      match record_authority (authority response) servers_to_query
              (authority_cache st) with
      | (e, wl, auth) =>
          (e ≫= uncaught, wl, mkState ac auth (active_lookups st) log')
      end
  end.

(** The answer a cached entry is turned into:
    [make_response(outbound_query)], with [answer = [entry]] when the
    entry is not empty. *)
Definition response_of (c : cached) : message :=
  match c with
  | Pos rr => if Nat.ltb 0 (length (items rr)) then mkMessage [rr] [] [] else empty_message
  | Neg => empty_message
  end.

(** The cache test at the top of each iteration of [lookup]'s loop. *)
Inductive cache_view :=
  | Hit (c : cached)
  | Alias (c : cached)
  | Miss.

Definition cache_check (st : state) (target_name : Name) (qtype : rdtype) : cache_view :=
  match row st target_name with
  | Some r =>
      match r !! qtype with
      | Some c => Hit c
      | None =>
          match r !! CNAME with
          | Some c => if Nat.ltb 0 (cached_len c) then Alias c else Miss
          | None => Miss
          end
      end
  | None => Miss
  end.

(** [entry[0]] of a cached value ([IndexError] on an empty one). *)
Definition first_item (c : cached) : option rdata :=
  match c with
  | Neg => None
  | Pos rr => head (items rr)
  end.

(** The exit of the loop: the negative entry and an empty response. *)
Definition exhausted (target_name : Name) (qtype : rdtype) (st : state) : state :=
  set_answer_cache (put (KLabels (labels target_name)) qtype Neg (answer_cache st)) st.

Section Frame.

(** The nested [lookup], one level deeper and with a smaller budget. *)
Variable lookup : Name → rdtype → state → option (result message * state).

(** [resolve_dns_cname(server)].  The tuples tagged CNAME hold a
    [Name] (pushed by [do_dns_query]) or a cached value (pushed by the
    seeding); a cached value is unhashable, so the membership test in
    [active_lookups] raises [TypeError].  No tuple tagged CNAME holds a
    string or an rdata: those two cases are only there to make the
    function total. *)
Definition resolve_dns_cname (srv : server) (st : state) : option (result server * state) :=
  match srv with
  | SvName n =>
      if active_mem n (active_lookups st) then Some (Ret (SvAddr ""), st)
      else
        match answer_cache st !! KName (canon n) ≫= (λ r, r !! A) with
        | Some c =>
            match first_item c with
            | Some rd => Some (Ret (SvRdata rd), st)
            | None => Some (Raise IndexError, st)
            end
        | None =>
            match lookup n A (set_active (active_add n (active_lookups st)) st) with
            | None => None
            | Some (Raise e, st') => Some (Raise e, st')
            | Some (Ret server_ip, st') =>
                let st'' := set_active (active_discard n (active_lookups st')) st' in
                match answer server_ip with
                | [] => Some (Ret (SvAddr ""), st'')
                | rr :: _ =>
                    match head (items rr) with
                    | Some rd => Some (Ret (SvAddr (rdata_to_text rd)), st'')
                    | None => Some (Raise IndexError, st'')
                    end
                end
            end
        end
  | SvCached _ => Some (Raise TypeError, st)
  | SvAddr _ | SvRdata _ => Some (Raise AttributeError, st)
  end.

(** The alias chase of the loop head:
    [lookup(answer_cache[labels][CNAME][0].target, qtype)] between
    [active_lookups.add] and [active_lookups.discard]. *)
Definition chase (target_name : Name) (qtype : rdtype) (c : cached) (st : state)
    : option (result message * state) :=
  let st1 := set_active (active_add target_name (active_lookups st)) st in
  match first_item c ≫= rd_target with
  | None => Some (Raise AttributeError, st1)
  | Some t =>
      match lookup t qtype st1 with
      | None => None
      | Some (Raise e, st') => Some (Raise e, st')
      | Some (Ret res, st') =>
          Some (Ret res, set_active (active_discard target_name (active_lookups st')) st')
      end
  end.

Definition is_empty_str (s : server) : bool :=
  match s with
  | SvAddr a => String.eqb a ""
  | _ => false
  end.

(** The address to query for a popped tuple, [None] standing for
    [continue]: a tuple tagged CNAME is resolved first. *)
Definition select_server (server_entry : entry) (st : state)
    : option (result (option server) * state) :=
  if N.eqb (fst server_entry) CNAME
  then
    match resolve_dns_cname (snd server_entry) st with
    | None => None
    | Some (Raise e, st') => Some (Raise e, st')
    | Some (Ret srv, st') =>
        Some (Ret (if is_empty_str srv then None else Some srv), st')
    end
  else Some (Ret (Some (snd server_entry)), st).

(** One test of the loop condition and one run of the loop body:
    either [lookup] returns (or raises), or the loop goes on. *)
Inductive step :=
  | Done (r : result message) (st : state)
  | Next (servers_to_query : list entry) (queried_servers : list server) (st : state).

Definition loop_body (depth : nat) (target_name : Name) (qtype : rdtype)
    (servers_to_query : list entry) (queried_servers : list server) (st : state)
    : option step :=
  match pop servers_to_query with
  | None => Some (Done (Ret empty_message) (exhausted target_name qtype st))
  | Some (rest, server_entry) =>
      match cache_check st target_name qtype with
      | Hit c => Some (Done (Ret (response_of c)) st)
      | Alias c =>
          match chase target_name qtype c st with
          | None => None
          | Some (r, st') => Some (Done r st')
          end
      | Miss =>
          match select_server server_entry st with
          | None => None
          | Some (Raise e, st') => Some (Done (Raise e) st')
          | Some (Ret None, st') => Some (Next rest queried_servers st')
          | Some (Ret (Some srv), st') =>
              if existsb (server_eqb srv) queried_servers
              then Some (Next rest queried_servers st')
              else
                match do_dns_query depth target_name qtype srv rest st' with
                | (Some e, _, st'') => Some (Done (Raise e) st'')
                | (None, wl, st'') => Some (Next wl (queried_servers ++ [srv]) st'')
                end
          end
      end
  end.

End Frame.

Fixpoint lookup_loop (fuel depth : nat) (target_name : Name) (qtype : rdtype)
    (servers_to_query : list entry) (queried_servers : list server) (st : state)
    {struct fuel} : option (result message * state) :=
  match fuel with
  | 0 => None
  | S fuel' =>
      match
        loop_body
          (λ n q s, lookup_loop fuel' (S depth) n q (load_initial_servers_to_query s n) [] s)
          depth target_name qtype servers_to_query queried_servers st
      with
      | None => None
      | Some (Done r st') => Some (r, st')
      | Some (Next wl queried st') =>
          lookup_loop fuel' depth target_name qtype wl queried st'
      end
  end.

Definition lookup_at (fuel depth : nat) (target_name : Name) (qtype : rdtype)
    (st : state) : option (result message * state) :=
  lookup_loop fuel depth target_name qtype
    (load_initial_servers_to_query st target_name) [] st.

(** The public entry point. *)
Definition lookup (fuel : nat) (target_name : Name) (qtype : rdtype) (st : state)
    : option (result message * state) :=
  lookup_at fuel 0 target_name qtype st.

Definition collect_results (from_text : string → Name) (fuel : nat) (name : string)
    (st : state) : option (result full_response * state) :=
  collect_results_with from_text (lookup fuel) name st.

End WithTransport.

End Resolve.

(** ** resolve3.py *)

Module Resolve3.

(** The inner dictionaries of [authority_cache] are always created
    with the four keys CNAME, A, AAAA and MX. *)
Record auth_row := mkRow {
  ar_cname : list (list string);
  ar_a : list string;
  ar_aaaa : list string;
  ar_mx : list string
}.

Definition fresh_row : auth_row := mkRow [] [] [] [].

(** The second component of a worklist tuple: an address string, a
    [Name], or a whole cached [Message] that the seeding took from
    [answer_cache[domain][A]].  A [Message] has no [__eq__], so two of
    them are equal when they are the same object; within one frame the
    seeding reads each [domain] once, so the key identifies the
    object.  The third component that some tuples carry is never read
    and is left out. *)
Inductive server :=
  | SvAddr (a : string)
  | SvName (n : Name)
  | SvMsg (domain : list string) (m : message).

Definition entry : Type := rdtype * server.

Definition server_eqb (x y : server) : bool :=
  match x, y with
  | SvAddr a, SvAddr b => String.eqb a b
  | SvName n, SvName m => name_eqb n m
  | SvMsg d _, SvMsg d' _ => bool_decide (d = d')
  | _, _ => false
  end.

Record query := mkQuery {
  q_depth : nat;
  q_server : server;
  q_name : Name;
  q_type : rdtype
}.

Record state := mkState {
  answer_cache : gmap pykey (gmap N message);
  authority_cache : gmap pykey auth_row;
  active_lookups : gset (list string);
  log : list query
}.

Definition empty_state : state := mkState ∅ ∅ ∅ [].

Definition set_answer_cache (ac : gmap pykey (gmap N message)) (st : state) : state :=
  mkState ac (authority_cache st) (active_lookups st) (log st).
Definition set_authority_cache (auth : gmap pykey auth_row) (st : state) : state :=
  mkState (answer_cache st) auth (active_lookups st) (log st).
Definition set_active (al : gset (list string)) (st : state) : state :=
  mkState (answer_cache st) (authority_cache st) al (log st).
Definition set_log (l : list query) (st : state) : state :=
  mkState (answer_cache st) (authority_cache st) (active_lookups st) l.

(** [answer_cache[k][t] = m], the row being created when missing. *)
Definition put (k : pykey) (t : rdtype) (m : message) (ac : gmap pykey (gmap N message)) : gmap pykey (gmap N message) :=
  <[k := <[t := m]> (default ∅ (ac !! k))]> ac.

Definition row (st : state) (target_name : Name) : option (gmap N message) :=
  answer_cache st !! KLabels (labels target_name).

Definition candidates_at (st : state) (domain : list string) : list entry :=
  match authority_cache st !! KLabels domain with
  | Some r => map (λ s, (A, SvAddr s)) (ar_a r)
  | None => []
  end ++
  match answer_cache st !! KLabels domain with
  | Some r =>
      match r !! A with
      | Some m => [(A, SvMsg domain m)]
      | None => []
      end
  | None => []
  end.

Definition seed (st : state) (target_name : Name) : list entry :=
  let servers_to_query :=
    flat_map (candidates_at st) (seed_domains (labels target_name)) in
  if Nat.eqb (length servers_to_query) 0
  then map (λ s, (A, SvAddr s)) ROOT_SERVERS
  else servers_to_query.

Definition add_name (ls : list string) (r : auth_row) : auth_row :=
  mkRow (ar_cname r ++ [ls]) (ar_a r) (ar_aaaa r) (ar_mx r).
Definition add_address (a : string) (r : auth_row) : auth_row :=
  mkRow (ar_cname r) (ar_a r ++ [a]) (ar_aaaa r) (ar_mx r).

(** [for server_RR in response.additional: ...], returning [foundMap]. *)
Fixpoint scan_additional (target : Name) (adds : list rrset)
    (servers_to_query : list entry) (auth : gmap pykey auth_row)
    : option exn * bool * list entry * gmap pykey auth_row :=
  match adds with
  | [] => (None, false, servers_to_query, auth)
  | server_RR :: rest =>
      if N.eqb (rr_type server_RR) A then
        let k := KLabels (labels target) in
        let auth1 :=
          match auth !! k with
          | Some _ => auth
          | None => <[k := fresh_row]> auth
          end in
        match head (items server_RR) with
        | None => (Some IndexError, false, servers_to_query, auth1)
        | Some rd =>
            let auth2 := alter (add_address (rdata_to_text rd)) k auth1 in
            if name_eqb (rr_name server_RR) target
            then (None, true,
                  servers_to_query ++ [(A, SvAddr (rdata_to_text rd))], auth2)
            else scan_additional target rest servers_to_query auth2
        end
      else scan_additional target rest servers_to_query auth
  end.

(** [for server_name in authority_list: ...] for the zone row [zone]. *)
Fixpoint record_ns_targets (zone : pykey) (adds : list rrset) (rds : list rdata)
    (servers_to_query : list entry) (auth : gmap pykey auth_row)
    : option exn * list entry * gmap pykey auth_row :=
  match rds with
  | [] => (None, servers_to_query, auth)
  | server_name :: rest =>
      match rd_target server_name with
      | None => (Some AttributeError, servers_to_query, auth)
      | Some target =>
          match auth !! zone with
          | None => (Some KeyError, servers_to_query, auth)
          | Some r =>
              let auth1 :=
                if bool_decide (labels target ∈ ar_cname r) then auth
                else <[zone := add_name (labels target) r]> auth in
              match scan_additional target adds servers_to_query auth1 with
              | (Some e, _, wl, auth2) => (Some e, wl, auth2)
              | (None, true, wl, auth2) =>
                  record_ns_targets zone adds rest wl auth2
              | (None, false, wl, auth2) =>
                  let wl' :=
                    match auth2 !! KLabels (labels target) with
                    | Some r' => wl ++ map (λ s, (A, SvAddr s)) (ar_a r')
                    | None => wl ++ [(CNAME, SvName target)]
                    end in
                  record_ns_targets zone adds rest wl' auth2
              end
          end
      end
  end.

(** [for authority_list in response.authority: ...] *)
Fixpoint record_authority (adds : list rrset) (rrs : list rrset)
    (servers_to_query : list entry) (auth : gmap pykey auth_row)
    : option exn * list entry * gmap pykey auth_row :=
  match rrs with
  | [] => (None, servers_to_query, auth)
  | authority_list :: rest =>
      if N.eqb (rr_type authority_list) NS then
        let zone := KLabels (labels (rr_name authority_list)) in
        let auth1 :=
          match auth !! KName (canon (rr_name authority_list)) with
          | Some _ => auth
          | None => <[zone := fresh_row]> auth
          end in
        match record_ns_targets zone adds (items authority_list)
                servers_to_query auth1 with
        | (Some e, wl, auth2) => (Some e, wl, auth2)
        | (None, wl, auth2) => record_authority adds rest wl auth2
        end
      else record_authority adds rest servers_to_query auth
  end.

(** The cache test at the head of [lookup]. *)
Inductive cache_view :=
  | Hit (m : message)
  | Alias (m : message)
  | Miss.

Definition cache_check (st : state) (target_name : Name) (qtype : rdtype) : cache_view :=
  match row st target_name with
  | Some r =>
      match r !! qtype with
      | Some m => Hit m
      | None =>
          match r !! CNAME with
          | Some m => if Nat.ltb 0 (length (answer m)) then Alias m else Miss
          | None => Miss
          end
      end
  | None => Miss
  end.

(** [m.answer[0][0]] *)
Definition first_rdata (m : message) : option rdata :=
  head (answer m) ≫= (λ rr, head (items rr)).

(** [m.answer[0][0].target] *)
Definition first_target (m : message) : result Name :=
  match first_rdata m with
  | None => Raise IndexError
  | Some rd =>
      match rd_target rd with
      | Some t => Ret t
      | None => Raise AttributeError
      end
  end.

(** The exit of the loop: [answer_cache[labels][qtype] = Message()]. *)
Definition exhausted (target_name : Name) (qtype : rdtype) (st : state) : state :=
  set_answer_cache
    (put (KLabels (labels target_name)) qtype empty_message (answer_cache st)) st.

Section WithTransport.

Variable transport : list query → server → Name → rdtype → reply.

Section Frame.

(** The nested [lookup], one level deeper and with a smaller budget. *)
Variable lookup : Name → rdtype → state → option (result message * state).

(** The address to query for a popped tuple, [None] standing for
    [continue]: a tuple tagged CNAME is resolved first. *)
Definition select_server (target_name : Name) (server_entry : entry) (st : state)
    : option (result (option server) * state) :=
  if N.eqb (fst server_entry) CNAME
  then
    if active_mem target_name (active_lookups st)
    then Some (Ret None, st)
    else
      match snd server_entry with
      | SvName n =>
          if bool_decide (labels target_name ≠ labels n)
          then
            match lookup n A
                    (set_active (active_add target_name (active_lookups st)) st) with
            | None => None
            | Some (Raise e, st') => Some (Raise e, st')
            | Some (Ret server_ip, st') =>
                let st'' :=
                  set_active (active_discard target_name (active_lookups st')) st' in
                match answer server_ip with
                | [] => Some (Ret None, st'')
                | rr :: _ =>
                    match head (items rr) with
                    | Some rd => Some (Ret (Some (SvAddr (rdata_to_text rd))), st'')
                    | None => Some (Raise IndexError, st'')
                    end
                end
            end
          else Some (Ret None, st)
      | _ => Some (Raise AttributeError, st)
      end
  else Some (Ret (Some (snd server_entry)), st).

Inductive step :=
  | Done (r : result message) (st : state)
  | Next (servers_to_query : list entry) (queried_servers : list server) (st : state).

(** What the loop body does with a response. *)
Definition handle_response (target_name : Name) (qtype : rdtype) (response : message)
    (rest : list entry) (queried : list server) (st1 : state) : option step :=
  match answer response with
  | rr :: _ =>
      let st2 :=
        set_answer_cache
          (put (KLabels (labels target_name)) (rr_type rr) response (answer_cache st1))
          st1 in
      if N.eqb (rr_type rr) qtype then Some (Done (Ret response) st2)
      else if N.eqb (rr_type rr) CNAME then
        let st3 := set_active (active_add target_name (active_lookups st2)) st2 in
        match first_target response with
        | Raise e => Some (Done (Raise e) st3)
        | Ret t =>
            match lookup t qtype st3 with
            | None => None
            | Some (Raise e, st4) => Some (Done (Raise e) st4)
            | Some (Ret res, st4) =>
                Some (Done (Ret res)
                        (set_active (active_discard target_name (active_lookups st4)) st4))
            end
        end
      else Some (Next rest queried st2)
  | [] =>
      match authority response with
      | _ :: _ =>
          match record_authority (additional response) (authority response) rest
                  (authority_cache st1) with
          | (Some e, _, auth) => Some (Done (Raise e) (set_authority_cache auth st1))
          | (None, wl, auth) => Some (Next wl queried (set_authority_cache auth st1))
          end
      | [] => Some (Next rest queried st1)
      end
  end.

(** One test of the loop condition and one run of the loop body. *)
Definition loop_body (depth : nat) (target_name : Name) (qtype : rdtype)
    (servers_to_query : list entry) (queried_servers : list server) (st : state)
    : option step :=
  match pop servers_to_query with
  | None => Some (Done (Ret empty_message) (exhausted target_name qtype st))
  | Some (rest, server_entry) =>
      match select_server target_name server_entry st with
      | None => None
      | Some (Raise e, st') => Some (Done (Raise e) st')
      | Some (Ret None, st') => Some (Next rest queried_servers st')
      | Some (Ret (Some srv), st') =>
          if existsb (server_eqb srv) queried_servers
          then Some (Next rest queried_servers st')
          else
            let queried' := queried_servers ++ [srv] in
            let st1 := set_log (log st' ++ [mkQuery depth srv target_name qtype]) st' in
            match transport (log st') srv target_name qtype with
            | Failure _ => Some (Next rest queried' st1)
            | Response response =>
                handle_response target_name qtype response rest queried' st1
            end
      end
  end.

End Frame.

Fixpoint lookup_at (fuel depth : nat) (target_name : Name) (qtype : rdtype)
    (st : state) {struct fuel} : option (result message * state) :=
  match fuel with
  | 0 => None
  | S fuel' =>
      match cache_check st target_name qtype with
      | Hit m => Some (Ret m, st)
      | Alias m =>
          match first_target m with
          | Raise e => Some (Raise e, st)
          | Ret t => lookup_at fuel' (S depth) t qtype st
          end
      | Miss =>
          lookup_loop fuel' depth target_name qtype (seed st target_name) [] st
      end
  end
with lookup_loop (fuel depth : nat) (target_name : Name) (qtype : rdtype)
    (servers_to_query : list entry) (queried_servers : list server) (st : state)
    {struct fuel} : option (result message * state) :=
  match fuel with
  | 0 => None
  | S fuel' =>
      match
        loop_body (lookup_at fuel' (S depth))
          depth target_name qtype servers_to_query queried_servers st
      with
      | None => None
      | Some (Done r st') => Some (r, st')
      | Some (Next wl queried st') =>
          lookup_loop fuel' depth target_name qtype wl queried st'
      end
  end.

(** The public entry point. *)
Definition lookup (fuel : nat) (target_name : Name) (qtype : rdtype) (st : state)
    : option (result message * state) :=
  lookup_at fuel 0 target_name qtype st.

Definition collect_results (from_text : string → Name) (fuel : nat) (name : string)
    (st : state) : option (result full_response * state) :=
  collect_results_with from_text (lookup fuel) name st.

End WithTransport.

End Resolve3.

(** ** Observing a run

    What a call returned, and the state it left, when it produced a
    result within the budget. *)

Definition returned {S : Type} (run : option (result message * S)) : option (result message) :=
  fst <$> run.

Definition final_state {S : Type} (run : option (result message * S)) : option S :=
  snd <$> run.

(** ** Scenarios

    Concrete names, cache contents and networks used by the examples
    and witnesses below. *)

Module Scenario.

Definition example_com : Name := mkName ["example"; "com"; ""].
Definition www_example_com : Name := mkName ["www"; "example"; "com"; ""].
Definition com : Name := mkName ["com"; ""].
Definition a_gtld : Name := mkName ["a"; "gtld-servers"; "net"; ""].
Definition ns1_example_com : Name := mkName ["ns1"; "example"; "com"; ""].

(** resolve.py: both "com." and "example.com." are cached zones. *)
Definition two_levels : Resolve.state :=
  Resolve.mkState ∅
    (<[KLabels (labels com) := [a_gtld]]>
       (<[KLabels (labels example_com) := [ns1_example_com]]> ∅))
    ∅ [].

(** resolve3.py: "example.com." is a cached zone whose nameserver
    names are known, but without any address. *)
Definition zone_without_glue : Resolve3.state :=
  Resolve3.mkState ∅
    (<[KLabels (labels example_com) :=
         Resolve3.mkRow [labels ns1_example_com] [] [] []]> ∅)
    ∅ [].


(** *** The end-to-end referral chain

    Every root server refers to "com." with glue for
    "a.gtld-servers.net."; that server refers to "example.com." with
    glue for "ns1.example.com."; that server answers.  Any other
    destination times out. *)

Definition root_referral : message :=
  mkMessage [] [mkRRset com NS [RdTarget a_gtld]]
    [mkRRset a_gtld A [RdAddr "192.5.6.30"]].
Definition tld_referral : message :=
  mkMessage [] [mkRRset example_com NS [RdTarget ns1_example_com]]
    [mkRRset ns1_example_com A [RdAddr "10.0.0.1"]].
Definition final_answer : message :=
  mkMessage [mkRRset example_com A [RdAddr "93.184.216.34"]] [] [].

Definition chain_reply (a : string) : reply :=
  if bool_decide (a ∈ ROOT_SERVERS) then Response root_referral
  else if String.eqb a "192.5.6.30" then Response tld_referral
  else if String.eqb a "10.0.0.1" then Response final_answer
  else Failure DnsTimeout.

Definition chain (h : list Resolve.query) (s : Resolve.server) (n : Name) (t : rdtype) : reply :=
  match s with
  | Resolve.SvAddr a => chain_reply a
  | _ => Failure ValueError
  end.

Definition chain3 (h : list Resolve3.query) (s : Resolve3.server) (n : Name) (t : rdtype) : reply :=
  match s with
  | Resolve3.SvAddr a => chain_reply a
  | _ => Failure ValueError
  end.

(** *** Networks that always fail, or always give the same reply *)

Definition failing (e : exn) (h : list Resolve.query) (s : Resolve.server)
    (n : Name) (t : rdtype) : reply := Failure e.
Definition failing3 (e : exn) (h : list Resolve3.query) (s : Resolve3.server)
    (n : Name) (t : rdtype) : reply := Failure e.
Definition always (m : message) (h : list Resolve.query) (s : Resolve.server)
    (n : Name) (t : rdtype) : reply := Response m.
Definition always3 (m : message) (h : list Resolve3.query) (s : Resolve3.server)
    (n : Name) (t : rdtype) : reply := Response m.

(** *** An alias cycle in the record cache: a -> b and b -> a *)

Definition alias_a : Name := mkName ["a"; "test"; ""].
Definition alias_b : Name := mkName ["b"; "test"; ""].

Definition alias_cycle : Resolve.state :=
  Resolve.mkState
    (<[KLabels (labels alias_a) :=
         {[CNAME := Resolve.Pos (mkRRset alias_a CNAME [RdTarget alias_b])]}]>
       (<[KLabels (labels alias_b) :=
            {[CNAME := Resolve.Pos (mkRRset alias_b CNAME [RdTarget alias_a])]}]> ∅))
    ∅ ∅ [].

Definition alias_cycle3 : Resolve3.state :=
  Resolve3.mkState
    (<[KLabels (labels alias_a) :=
         {[CNAME := mkMessage [mkRRset alias_a CNAME [RdTarget alias_b]] [] []]}]>
       (<[KLabels (labels alias_b) :=
            {[CNAME := mkMessage [mkRRset alias_b CNAME [RdTarget alias_a]] [] []]}]> ∅))
    ∅ ∅ [].

(** *** A zone whose only nameserver lies inside it, without glue *)

Definition zone_x : Name := mkName ["x"; "test"; ""].
Definition ns_x : Name := mkName ["ns"; "x"; "test"; ""].
Definition host_x : Name := mkName ["host"; "x"; "test"; ""].
Definition self_referral : message :=
  mkMessage [] [mkRRset zone_x NS [RdTarget ns_x]] [].

(** resolve3.py in the middle of resolving "ns.x.test.": that name is
    active, and the lookup of "host.x.test." has it as a candidate. *)
Definition ns_active3 : Resolve3.state :=
  Resolve3.mkState ∅ ∅ {[canon ns_x]} [].

(** Two nameservers that are each other's only way in: the zone of
    each is served by the other, without glue. *)
Definition zone_y : Name := mkName ["y"; "test"; ""].
Definition ns_y : Name := mkName ["ns"; "y"; "test"; ""].
Definition mutual3 (h : list Resolve3.query) (s : Resolve3.server)
    (n : Name) (t : rdtype) : reply :=
  if name_eqb n ns_x
  then Response (mkMessage [] [mkRRset zone_x NS [RdTarget ns_y]] [])
  else Response (mkMessage [] [mkRRset zone_y NS [RdTarget ns_x]] []).

(** *** Two spellings of one domain name *)

Definition upper_name : Name := mkName ["Example"; "COM"; ""].


(** The state the referral chain leaves behind in resolve.py. *)
Definition chain_final : Resolve.state :=
  default Resolve.empty_state
    (final_state (Resolve.lookup chain 20 example_com A Resolve.empty_state)).


(** *** An alias whose own entries are overwritten during the chase

    "www.example.com." is cached as an alias of "example.com."; every
    server answers with no answer and no referral, but with an
    additional record that gives "www.example.com." an address. *)

Definition aliased_www : Resolve.state :=
  Resolve.mkState
    {[KLabels (labels www_example_com) :=
        {[CNAME := Resolve.Pos (mkRRset www_example_com CNAME [RdTarget example_com])]}]}
    ∅ ∅ [].

Definition stray_record : rrset := mkRRset www_example_com A [RdAddr "203.0.113.7"].
Definition stray_additional : message := mkMessage [] [] [stray_record].

(** The state the referral chain leaves behind in resolve3.py. *)
Definition chain_final3 : Resolve3.state :=
  default Resolve3.empty_state
    (final_state (Resolve3.lookup chain3 20 example_com A Resolve3.empty_state)).


(** *** A cached alias with a cached address behind it *)

Definition address_record : rrset :=
  mkRRset example_com A [RdAddr "93.184.216.34"].
Definition alias_record : rrset :=
  mkRRset www_example_com CNAME [RdTarget example_com].

Definition alias_cached : Resolve.state :=
  Resolve.mkState
    (<[KLabels (labels www_example_com) := {[CNAME := Resolve.Pos alias_record]}]>
       {[KLabels (labels example_com) := {[A := Resolve.Pos address_record]}]})
    ∅ ∅ [].

Definition alias_cached3 : Resolve3.state :=
  Resolve3.mkState
    (<[KLabels (labels www_example_com) :=
         {[CNAME := mkMessage [alias_record] [] []]}]>
       {[KLabels (labels example_com) := {[A := mkMessage [address_record] [] []]}]})
    ∅ ∅ [].


(** *** A cached alias record whose data has no target *)

Definition broken_alias3 : Resolve3.state :=
  Resolve3.mkState
    {[KLabels (labels www_example_com) :=
        {[CNAME := mkMessage [mkRRset www_example_com CNAME [RdAddr "192.0.2.1"]] [] []]}]}
    ∅ ∅ [].

(** *** collect_results over the referral chain *)

Definition facts_of {S : Type} (run : option (result full_response * S)) : full_response :=
  match run with
  | Some (Ret fr, _) => fr
  | _ => mkFull [] [] [] []
  end.

Definition collected : option (result full_response * Resolve.state) :=
  Resolve.collect_results chain (λ _, example_com) 30 "example.com." Resolve.empty_state.
Definition collected_final : Resolve.state :=
  default Resolve.empty_state (snd <$> collected).

Definition collected3 : option (result full_response * Resolve3.state) :=
  Resolve3.collect_results chain3 (λ _, example_com) 30 "example.com."
    Resolve3.empty_state.
Definition collected_final3 : Resolve3.state :=
  default Resolve3.empty_state (snd <$> collected3).


(** *** A referral without glue to a nameserver in another zone

    Asked about "host.x.test.", every server refers to the zone
    "x.test." and names "ns.other.test." as its nameserver, without
    an address; asked about anything else, no server answers. *)

Definition ns_other : Name := mkName ["ns"; "other"; "test"; ""].
Definition glueless_referral : message :=
  mkMessage [] [mkRRset zone_x NS [RdTarget ns_other]] [].

Definition glueless (h : list Resolve.query) (s : Resolve.server)
    (n : Name) (t : rdtype) : reply :=
  if name_eqb n host_x then Response glueless_referral else Failure DnsTimeout.
Definition glueless3 (h : list Resolve3.query) (s : Resolve3.server)
    (n : Name) (t : rdtype) : reply :=
  if name_eqb n host_x then Response glueless_referral else Failure DnsTimeout.


(** *** A response whose names are spelled with capital letters *)

Definition upper_ns1 : Name := mkName ["NS1"; "example"; "com"; ""].
Definition upper_answer : rrset := mkRRset upper_name A [RdAddr "93.184.216.34"].
Definition upper_glue : rrset := mkRRset upper_ns1 A [RdAddr "10.0.0.1"].
Definition mixed_case_response : message :=
  mkMessage [upper_answer] [mkRRset upper_name NS [RdTarget ns1_example_com]]
    [upper_glue].


End Scenario.

(** ** The seeding in the words of the specification

    "Walks ancestor zones of the name from the immediate parent outward
    to the root, returning the first zone level with a cached entry; if
    none is cached, the caller falls back to the static root-hint
    list."  These two definitions follow the specification, not the
    code; they are compared with the code in claim C4. *)

Module SpecWords.

Definition candidates_for (st : Resolve.state) (target_name : Name) : list Resolve.entry :=
  match find (λ z, bool_decide (is_Some (Resolve.authority_cache st !! KLabels z)))
          (ancestor_zones (labels target_name)) with
  | Some z => Resolve.candidates_at st z
  | None => map (λ s, (A, Resolve.SvAddr s)) ROOT_SERVERS
  end.

Definition candidates_for3 (st : Resolve3.state) (target_name : Name) : list Resolve3.entry :=
  match find (λ z, bool_decide (is_Some (Resolve3.authority_cache st !! KLabels z)))
          (ancestor_zones (labels target_name)) with
  | Some z => Resolve3.candidates_at st z
  | None => map (λ s, (A, Resolve3.SvAddr s)) ROOT_SERVERS
  end.

End SpecWords.

(** ** Vocabulary of the properties *)

(** [x] has a cached non-empty CNAME entry whose first target is [y],
    and no entry of the requested type. *)
Definition R_aliased (st : Resolve.state) (q : rdtype) (x y : Name) : Prop :=
  ∃ c, Resolve.cache_check st x q = Resolve.Alias c
       ∧ Resolve.first_item c ≫= rd_target = Some y.

Definition R3_aliased (st : Resolve3.state) (q : rdtype) (x y : Name) : Prop :=
  ∃ m, Resolve3.cache_check st x q = Resolve3.Alias m
       ∧ Resolve3.first_target m = Ret y.

(** The record cache has an entry for the pair; entries only grow. *)
Definition has_entry {X} (ac : gmap pykey (gmap N X)) (k : pykey) (t : rdtype) : Prop :=
  is_Some (ac !! k ≫= (λ r, r !! t)).

Definition keys_le {X} (ac ac' : gmap pykey (gmap N X)) : Prop :=
  ∀ k t, has_entry ac k t → has_entry ac' k t.

Definition R_grows (st st' : Resolve.state) : Prop :=
  keys_le (Resolve.answer_cache st) (Resolve.answer_cache st').

Definition R3_grows (st st' : Resolve3.state) : Prop :=
  keys_le (Resolve3.answer_cache st) (Resolve3.answer_cache st').

(** Every element of [l] differs (for Python's [==]) from all of
    [seen] and from the elements of [l] before it: what the test
    [if server in queried_servers] establishes, query after query. *)
Fixpoint unseen {S : Type} (eqb : S → S → bool) (seen l : list S) : Prop :=
  match l with
  | [] => True
  | x :: r => existsb (eqb x) seen = false ∧ unseen eqb (seen ++ [x]) r
  end.

(** The servers that the frame at nesting depth [d] queried itself. *)
Definition R_own (d : nat) (l : list Resolve.query) : list Resolve.server :=
  map Resolve.q_server (List.filter (λ e, Nat.eqb (Resolve.q_depth e) d) l).

Definition R3_own (d : nat) (l : list Resolve3.query) : list Resolve3.server :=
  map Resolve3.q_server (List.filter (λ e, Nat.eqb (Resolve3.q_depth e) d) l).

(** The literal address strings among them. *)
Definition R_address (s : Resolve.server) : option string :=
  match s with
  | Resolve.SvAddr a => Some a
  | _ => None
  end.

Definition R3_address (s : Resolve3.server) : option string :=
  match s with
  | Resolve3.SvAddr a => Some a
  | _ => None
  end.

(** The log grew by calls issued at depth [d] or deeper. *)
Definition R_extends (d : nat) (st st' : Resolve.state) : Prop :=
  ∃ new, Resolve.log st' = Resolve.log st ++ new
         ∧ Forall (λ e, d ≤ Resolve.q_depth e) new.

Definition R3_extends (d : nat) (st st' : Resolve3.state) : Prop :=
  ∃ new, Resolve3.log st' = Resolve3.log st ++ new
         ∧ Forall (λ e, d ≤ Resolve3.q_depth e) new.

(** What one frame adds to the log: calls of deeper frames, and own
    calls to servers that were not in [queried_servers]. *)
Definition R_frame_ok (d : nat) (queried : list Resolve.server)
    (st st' : Resolve.state) : Prop :=
  ∃ new, Resolve.log st' = Resolve.log st ++ new
         ∧ Forall (λ e, d ≤ Resolve.q_depth e) new
         ∧ unseen Resolve.server_eqb queried (R_own d new).

Definition R3_frame_ok (d : nat) (queried : list Resolve3.server)
    (st st' : Resolve3.state) : Prop :=
  ∃ new, Resolve3.log st' = Resolve3.log st ++ new
         ∧ Forall (λ e, d ≤ Resolve3.q_depth e) new
         ∧ unseen Resolve3.server_eqb queried (R3_own d new).

(** One nested [lookup] is at least as defined as another. *)
Definition below {S : Type}
    (l1 l2 : Name → rdtype → S → option (result message * S)) : Prop :=
  ∀ n q st x, l1 n q st = Some x → l2 n q st = Some x.

(** What the record cache alone gives for a pair, following at most
    [k] cached aliases. *)
Fixpoint R_cached_result (k : nat) (st : Resolve.state) (n : Name) (q : rdtype)
    : option message :=
  match Resolve.cache_check st n q with
  | Resolve.Hit c => Some (Resolve.response_of c)
  | Resolve.Alias c =>
      match k with
      | 0 => None
      | S k' =>
          match Resolve.first_item c ≫= rd_target with
          | Some t => R_cached_result k' st t q
          | None => None
          end
      end
  | Resolve.Miss => None
  end.

Fixpoint R3_cached_result (k : nat) (st : Resolve3.state) (n : Name) (q : rdtype)
    : option message :=
  match Resolve3.cache_check st n q with
  | Resolve3.Hit m => Some m
  | Resolve3.Alias m =>
      match k with
      | 0 => None
      | S k' =>
          match Resolve3.first_target m with
          | Ret t => R3_cached_result k' st t q
          | Raise _ => None
          end
      end
  | Resolve3.Miss => None
  end.

(** Two states of resolve.py that differ at most in [active_lookups],
    where the second has no name the first did not have. *)
Definition R_same_caches (st st' : Resolve.state) : Prop :=
  Resolve.answer_cache st' = Resolve.answer_cache st
  ∧ Resolve.authority_cache st' = Resolve.authority_cache st
  ∧ Resolve.log st' = Resolve.log st
  ∧ Resolve.active_lookups st' ⊆ Resolve.active_lookups st.


(** The errors of resolve3.py's own code: a missing attribute, index
    or key.  None of them comes from the transport. *)
Definition R3_internal (e : exn) : Prop :=
  e = AttributeError ∨ e = IndexError ∨ e = KeyError.


(** Every key of the first dictionary is a key of the second. *)
Definition map_keys_le {V} (m m' : gmap pykey V) : Prop :=
  ∀ k, is_Some (m !! k) → is_Some (m' !! k).

(** Neither cache has lost an entry. *)
Definition R_caches_grow (st st' : Resolve.state) : Prop :=
  keys_le (Resolve.answer_cache st) (Resolve.answer_cache st')
  ∧ map_keys_le (Resolve.authority_cache st) (Resolve.authority_cache st').

Definition R3_caches_grow (st st' : Resolve3.state) : Prop :=
  keys_le (Resolve3.answer_cache st) (Resolve3.answer_cache st')
  ∧ map_keys_le (Resolve3.authority_cache st) (Resolve3.authority_cache st').


(** Every record set in the record cache is filed under its own type
    (resolve.py); every cached response is filed under the type of
    its first record set (resolve3.py). *)
Definition R_typed (ac : gmap pykey (gmap N Resolve.cached)) : Prop :=
  ∀ k t rr, ac !! k ≫= (λ r, r !! t) = Some (Resolve.Pos rr) → rr_type rr = t.

Definition R_well_typed (st : Resolve.state) : Prop :=
  R_typed (Resolve.answer_cache st).

Definition R3_typed (ac : gmap pykey (gmap N message)) : Prop :=
  ∀ k t m rr, ac !! k ≫= (λ r, r !! t) = Some m →
              head (answer m) = Some rr → rr_type rr = t.

Definition R3_well_typed (st : Resolve3.state) : Prop :=
  R3_typed (Resolve3.answer_cache st).


(** No key of the dictionary is a [Name] object. *)
Definition label_keyed {V} (m : gmap pykey V) : Prop :=
  ∀ cn, m !! KName cn = None.

Definition R_label_keyed (st : Resolve.state) : Prop :=
  label_keyed (Resolve.answer_cache st).

Definition R3_label_keyed (st : Resolve3.state) : Prop :=
  label_keyed (Resolve3.authority_cache st).


(** One step of the two caching loops of [do_dns_query]: the record
    set is filed under [key x] and its own type. *)
Definition R_file (key : rrset → pykey)
    (ac : gmap pykey (gmap N Resolve.cached)) (x : rrset)
    : gmap pykey (gmap N Resolve.cached) :=
  Resolve.put (key x) (rr_type x) (Resolve.Pos x) ac.

(** The address that the glue scan of resolve3.py reads off a record
    set of the additional section: the text of its first record, for
    a record set of type A. *)
Definition R3_first_address (rr : rrset) : option string :=
  if N.eqb (rr_type rr) A then rdata_to_text <$> head (items rr) else None.

Definition R3_add_addresses (l : list string) (r : Resolve3.auth_row) : Resolve3.auth_row :=
  Resolve3.mkRow (Resolve3.ar_cname r) (Resolve3.ar_a r ++ l)
    (Resolve3.ar_aaaa r) (Resolve3.ar_mx r).

(** A record set that the glue scan for [target] reads and goes past:
    if it has type A, it has a first record and another owner. *)
Definition R3_passed_over (target : Name) (rr : rrset) : Prop :=
  rr_type rr = A →
  name_eqb (rr_name rr) target = false ∧ is_Some (head (items rr)).


(** What resolve3.py pushes for a nameserver name without glue: the
    addresses that [authority_cache] has for the name when it has a
    row for it (possibly none), the name itself otherwise. *)
Definition R3_push_known (auth : gmap pykey Resolve3.auth_row) (t : Name)
    : list Resolve3.entry :=
  match auth !! KLabels (labels t) with
  | Some r => map (λ s, (A, Resolve3.SvAddr s)) (Resolve3.ar_a r)
  | None => [(CNAME, Resolve3.SvName t)]
  end.

(** The nameserver names of a record set, added to a row one by one,
    a name that is already listed being left out. *)
Definition R3_add_names (ts : list Name) (r : Resolve3.auth_row) : Resolve3.auth_row :=
  fold_left (λ r t, if bool_decide (labels t ∈ Resolve3.ar_cname r) then r
                    else Resolve3.add_name (labels t) r) ts r.


(** * Properties *)

(** ** Lists and names *)

Lemma pop_nil {X} : pop (@nil X) = None.
Proof. reflexivity. Qed.

Lemma pop_snoc {X} (l : list X) (x : X) : pop (l ++ [x]) = Some (l, x).
Proof. unfold pop. rewrite rev_app_distr. simpl. by rewrite rev_involutive. Qed.

Lemma pop_Some {X} (l r : list X) (x : X) : pop l = Some (r, x) → l = r ++ [x].
Proof.
  unfold pop. destruct (rev l) as [|y t] eqn:E; [done|].
  intros [= <- <-]. rewrite <- (rev_involutive l), E. reflexivity.
Qed.

Lemma pop_None {X} (l : list X) : pop l = None → l = [].
Proof.
  unfold pop. destruct (rev l) eqn:E; [|done].
  intros _. rewrite <- (rev_involutive l), E. reflexivity.
Qed.

Lemma name_eqb_refl n : name_eqb n n = true.
Proof. unfold name_eqb. by apply bool_decide_eq_true. Qed.

Lemma ancestor_zones_seq ls :
  ancestor_zones ls = map (λ i, drop (i + 1) ls) (seq 0 (length ls - 2)).
Proof.
  induction ls as [|x r IH]; [reflexivity|].
  cbn [ancestor_zones]. destruct (Nat.leb 2 (length r)) eqn:E.
  - apply Nat.leb_le in E.
    replace (length (x :: r) - 2) with (S (length r - 2)) by (cbn [length]; lia).
    rewrite <- cons_seq, <- seq_shift, IH. cbn [map]. f_equal.
    rewrite map_map. apply map_ext. intros i. reflexivity.
  - apply Nat.leb_gt in E.
    replace (length (x :: r) - 2) with 0 by (cbn [length]; lia). reflexivity.
Qed.

(** The index loop of the seeding visits the ancestor zones from the
    farthest (the top-level domain) to the nearest (the parent). *)
Lemma seed_domains_far_to_near ls : seed_domains ls = rev (ancestor_zones ls).
Proof. unfold seed_domains. by rewrite ancestor_zones_seq, map_rev. Qed.

(** ** The runs of the referral chain *)

Lemma chain_run :
  Resolve.lookup Scenario.chain 20 Scenario.example_com A Resolve.empty_state
  = Some (Ret Scenario.final_answer, Scenario.chain_final).
Proof. vm_compute. reflexivity. Qed.

Lemma chain_run3 :
  Resolve3.lookup Scenario.chain3 20 Scenario.example_com A Resolve3.empty_state
  = Some (Ret Scenario.final_answer, Scenario.chain_final3).
Proof. vm_compute. reflexivity. Qed.

Lemma chain_run_at :
  Resolve.lookup_at Scenario.chain 20 0 Scenario.example_com A Resolve.empty_state
  = Some (Ret Scenario.final_answer, Scenario.chain_final).
Proof. vm_compute. reflexivity. Qed.

Lemma chain_run3_at :
  Resolve3.lookup_at Scenario.chain3 20 0 Scenario.example_com A Resolve3.empty_state
  = Some (Ret Scenario.final_answer, Scenario.chain_final3).
Proof. vm_compute. reflexivity. Qed.

(** ** Seeding of the worklist *)

Lemma seed_split {X} (f : list string → list X) ls :
  flat_map f (seed_domains ls)
  = flat_map f (rev (tail (ancestor_zones ls)))
    ++ from_option f [] (head (ancestor_zones ls)).
Proof.
  rewrite seed_domains_far_to_near.
  destruct (ancestor_zones ls) as [|z zs]; [reflexivity|].
  cbn [tail head from_option rev]. rewrite flat_map_app. cbn [flat_map].
  by rewrite app_nil_r.
Qed.

(** C4 (as amended).  In both variants the seeding gathers candidates
    from every ancestor zone level, the farthest level first and the
    parent of the name last, so that the candidates of the nearest
    level are on top of the LIFO worklist; the root-hint list is used
    exactly when nothing at all was gathered. *)
Theorem C4_seeding_gathers_all_levels :
  ∀ (target_name : Name),
    (∀ st : Resolve.state,
       let zones := ancestor_zones (labels target_name) in
       let gathered :=
         flat_map (Resolve.candidates_at st) (rev (tail zones))
         ++ from_option (Resolve.candidates_at st) [] (head zones) in
       Resolve.load_initial_servers_to_query st target_name
       = if Nat.eqb (length gathered) 0
         then map (λ s, (A, Resolve.SvAddr s)) ROOT_SERVERS
         else gathered)
    ∧ (∀ st : Resolve3.state,
       let zones := ancestor_zones (labels target_name) in
       let gathered :=
         flat_map (Resolve3.candidates_at st) (rev (tail zones))
         ++ from_option (Resolve3.candidates_at st) [] (head zones) in
       Resolve3.seed st target_name
       = if Nat.eqb (length gathered) 0
         then map (λ s, (A, Resolve3.SvAddr s)) ROOT_SERVERS
         else gathered).
Proof.
  intros target_name; split; intros st zones gathered.
  - unfold Resolve.load_initial_servers_to_query.
    by rewrite seed_split.
  - unfold Resolve3.seed. by rewrite seed_split.
Qed.

(** C4 fails as stated.  In resolve.py, with "com." and "example.com."
    both cached, the seeding for "www.example.com." returns the
    nameserver of the farther zone "com." next to the one of the
    nearest zone, which is not the list the specification describes;
    in resolve3.py a cached zone without addresses still leads to the
    root hints. *)
Lemma C4_counterexample :
  (Resolve.load_initial_servers_to_query Scenario.two_levels Scenario.www_example_com
   = [(CNAME, Resolve.SvName Scenario.a_gtld);
      (CNAME, Resolve.SvName Scenario.ns1_example_com)]
   ∧ Resolve.load_initial_servers_to_query Scenario.two_levels Scenario.www_example_com
     ≠ SpecWords.candidates_for Scenario.two_levels Scenario.www_example_com)
  ∧ (SpecWords.candidates_for3 Scenario.zone_without_glue Scenario.www_example_com = []
     ∧ Resolve3.seed Scenario.zone_without_glue Scenario.www_example_com
       = map (λ s, (A, Resolve3.SvAddr s)) ROOT_SERVERS).
Proof.
  split; split; try (vm_compute; reflexivity).
  vm_compute. discriminate.
Qed.

(** ** resolve.py: cache hits and exhaustion *)

Section ResolveBasics.

Variable transport : list Resolve.query → Resolve.server → Name → rdtype → reply.

Lemma R_seed_nonempty (st : Resolve.state) (n : Name) :
  ∃ rest e, pop (Resolve.load_initial_servers_to_query st n) = Some (rest, e).
Proof.
  destruct (pop (Resolve.load_initial_servers_to_query st n)) as [[rest e]|] eqn:E;
    [by eauto|].
  apply pop_None in E. unfold Resolve.load_initial_servers_to_query in E.
  destruct (Nat.eqb _ 0) eqn:L; [discriminate E|].
  rewrite E in L. discriminate L.
Qed.

(** One unfolding of the loop, the nested calls kept folded. *)
Lemma R_loop_S fuel depth n q wl queried st :
  Resolve.lookup_loop transport (S fuel) depth n q wl queried st
  = match
      Resolve.loop_body transport (Resolve.lookup_at transport fuel (S depth))
        depth n q wl queried st
    with
    | None => None
    | Some (Resolve.Done r st') => Some (r, st')
    | Some (Resolve.Next wl' queried' st') =>
        Resolve.lookup_loop transport fuel depth n q wl' queried' st'
    end.
Proof. reflexivity. Qed.

Lemma R_loop_exhausted fuel depth n q queried st :
  Resolve.lookup_loop transport (S fuel) depth n q [] queried st
  = Some (Ret empty_message, Resolve.exhausted n q st).
Proof. reflexivity. Qed.

Lemma R_row_put_eq k t c ac :
  Resolve.put k t c ac !! k ≫= (λ r, r !! t) = Some c.
Proof. unfold Resolve.put. rewrite lookup_insert_eq. simpl. apply lookup_insert_eq. Qed.

Lemma R_check_exhausted n q st :
  Resolve.cache_check (Resolve.exhausted n q st) n q = Resolve.Hit Resolve.Neg.
Proof.
  unfold Resolve.cache_check, Resolve.row, Resolve.exhausted, Resolve.put. simpl.
  rewrite lookup_insert_eq. by rewrite lookup_insert_eq.
Qed.

Lemma R_check_Hit st n q c :
  Resolve.cache_check st n q = Resolve.Hit c →
  Resolve.row st n ≫= (λ r, r !! q) = Some c.
Proof.
  unfold Resolve.cache_check. destruct (Resolve.row st n) as [r|]; [|done].
  simpl. destruct (r !! q); [congruence|]. repeat case_match; done.
Qed.

Lemma R_row_Hit st n q c :
  Resolve.row st n ≫= (λ r, r !! q) = Some c →
  Resolve.cache_check st n q = Resolve.Hit c.
Proof.
  unfold Resolve.cache_check. destruct (Resolve.row st n) as [r|]; [|done].
  simpl. by intros ->.
Qed.

(** A cached entry for the exact pair answers at the first test of
    the loop: no state change, hence no transport call. *)
Lemma R_lookup_hit fuel depth n q c st :
  Resolve.cache_check st n q = Resolve.Hit c →
  Resolve.lookup_at transport (S fuel) depth n q st
  = Some (Ret (Resolve.response_of c), st).
Proof.
  intros H. unfold Resolve.lookup_at.
  destruct (R_seed_nonempty st n) as (rest & e & P).
  cbn [Resolve.lookup_loop]. unfold Resolve.loop_body. by rewrite P, H.
Qed.

End ResolveBasics.

(** ** resolve3.py: cache hits and exhaustion *)

Section Resolve3Basics.

Variable transport : list Resolve3.query → Resolve3.server → Name → rdtype → reply.

(** One unfolding of the loop, the nested calls kept folded. *)
Lemma R3_loop_S fuel depth n q wl queried st :
  Resolve3.lookup_loop transport (S fuel) depth n q wl queried st
  = match
      Resolve3.loop_body transport (Resolve3.lookup_at transport fuel (S depth))
        depth n q wl queried st
    with
    | None => None
    | Some (Resolve3.Done r st') => Some (r, st')
    | Some (Resolve3.Next wl' queried' st') =>
        Resolve3.lookup_loop transport fuel depth n q wl' queried' st'
    end.
Proof. reflexivity. Qed.

Lemma R3_loop_exhausted fuel depth n q queried st :
  Resolve3.lookup_loop transport (S fuel) depth n q [] queried st
  = Some (Ret empty_message, Resolve3.exhausted n q st).
Proof. reflexivity. Qed.

Lemma R3_check_exhausted n q st :
  Resolve3.cache_check (Resolve3.exhausted n q st) n q = Resolve3.Hit empty_message.
Proof.
  unfold Resolve3.cache_check, Resolve3.row, Resolve3.exhausted, Resolve3.put. simpl.
  rewrite lookup_insert_eq. by rewrite lookup_insert_eq.
Qed.

Lemma R3_row_Hit st n q m :
  Resolve3.row st n ≫= (λ r, r !! q) = Some m →
  Resolve3.cache_check st n q = Resolve3.Hit m.
Proof.
  unfold Resolve3.cache_check. destruct (Resolve3.row st n) as [r|]; [|done].
  simpl. by intros ->.
Qed.

Lemma R3_lookup_hit fuel depth n q m st :
  Resolve3.cache_check st n q = Resolve3.Hit m →
  Resolve3.lookup_at transport (S fuel) depth n q st = Some (Ret m, st).
Proof. intros H. cbn [Resolve3.lookup_at]. by rewrite H. Qed.

End Resolve3Basics.


(** ** resolve.py: where a returned answer comes from *)

Section ResolveAnswers.

Variable transport : list Resolve.query → Resolve.server → Name → rdtype → reply.

Lemma R_response_of_cases c :
  answer (Resolve.response_of c) = []
  ∨ ∃ rr, c = Resolve.Pos rr ∧ answer (Resolve.response_of c) = [rr].
Proof.
  destruct c as [|rr]; [by left|]. simpl.
  destruct (Nat.ltb 0 (length (items rr))); [right; by eexists|by left].
Qed.

(** Whatever [lookup] returns with a non-empty answer section is an
    entry of [answer_cache] for the requested type (under the name
    itself, or under the name at the end of its alias chain). *)
Lemma R_answers_from_cache fuel :
  ∀ depth n q wl queried st r st',
    Resolve.lookup_loop transport fuel depth n q wl queried st = Some (Ret r, st') →
    answer r = []
    ∨ ∃ owner rr,
        Resolve.row st' owner ≫= (λ x, x !! q) = Some (Resolve.Pos rr)
        ∧ answer r = [rr].
Proof.
  induction fuel as [|fuel IH]; intros depth n q wl queried st r st' H; [done|].
  cbn [Resolve.lookup_loop] in H.
  destruct (Resolve.loop_body _ _ _ _ _ _ _ _) as [[res st1|wl' queried' st1]|] eqn:B;
    [|by eapply IH|done].
  injection H as -> ->. unfold Resolve.loop_body in B.
  destruct (pop wl) as [[rest e]|]; [|injection B as <- <-; by left].
  destruct (Resolve.cache_check st n q) as [c|c|] eqn:CC.
  - injection B as <- <-. destruct (R_response_of_cases c) as [E|(rr & -> & E)]; [by left|].
    right. exists n, rr. split; [by apply R_check_Hit|done].
  - unfold Resolve.chase in B.
    destruct (Resolve.first_item c ≫= rd_target) as [t|]; [|by simplify_eq].
    destruct (Resolve.lookup_loop _ _ _ _ _ _ _ _) as [[[res|e'] st2]|] eqn:E;
      simplify_eq.
    apply IH in E as [E|(owner & rr & E1 & E2)]; [by left|].
    right. by exists owner, rr.
  - repeat case_match; simplify_eq.
Qed.

(** When the one remaining candidate answers the very question that
    was asked, the answer is cached by [do_dns_query] and the loop
    condition then ends the loop: the negative entry replaces it. *)
Lemma R_last_candidate_answer_lost fuel depth n q a queried st rr adds :
  Resolve.cache_check st n q = Resolve.Miss →
  existsb (Resolve.server_eqb (Resolve.SvAddr a)) queried = false →
  rr_type rr = q →
  transport (Resolve.log st) (Resolve.SvAddr a) n q
    = Response (mkMessage [rr] [] adds) →
  ∃ st',
    Resolve.lookup_loop transport (S (S fuel)) depth n q
      [(A, Resolve.SvAddr a)] queried st = Some (Ret empty_message, st')
    ∧ Resolve.row st' n ≫= (λ x, x !! q) = Some Resolve.Neg.
Proof.
  intros CC Q T R. eexists. split.
  - rewrite R_loop_S. unfold Resolve.loop_body.
    change (pop [(A, Resolve.SvAddr a)])
      with (Some ([] : list Resolve.entry, (A, Resolve.SvAddr a))).
    rewrite CC. unfold Resolve.select_server. cbn [fst snd].
    change (N.eqb A CNAME) with false. cbn iota.
    rewrite Q. unfold Resolve.do_dns_query. rewrite R.
    cbn [authority Resolve.record_authority mbind option_bind].
    apply R_loop_exhausted.
  - apply R_row_put_eq.
Qed.

End ResolveAnswers.



(** ** A larger budget does not change a result *)

Section ResolveFuel.

Variable transport : list Resolve.query → Resolve.server → Name → rdtype → reply.

Lemma R_resolve_dns_cname_below l1 l2 srv st x :
  below l1 l2 →
  Resolve.resolve_dns_cname l1 srv st = Some x →
  Resolve.resolve_dns_cname l2 srv st = Some x.
Proof.
  intros B. unfold Resolve.resolve_dns_cname.
  destruct srv as [a|n|c|rd]; try done.
  destruct (active_mem n _); [done|]. destruct (_ ≫= _); [done|].
  destruct (l1 n A _) as [y|] eqn:E; [|done]. by rewrite (B _ _ _ _ E).
Qed.

Lemma R_select_server_below l1 l2 e st x :
  below l1 l2 →
  Resolve.select_server l1 e st = Some x → Resolve.select_server l2 e st = Some x.
Proof.
  intros B. unfold Resolve.select_server. destruct (N.eqb (fst e) CNAME); [|done].
  destruct (Resolve.resolve_dns_cname l1 (snd e) st) as [y|] eqn:E; [|done].
  by rewrite (R_resolve_dns_cname_below _ _ _ _ _ B E).
Qed.

Lemma R_chase_below l1 l2 n q c st x :
  below l1 l2 →
  Resolve.chase l1 n q c st = Some x → Resolve.chase l2 n q c st = Some x.
Proof.
  intros B. unfold Resolve.chase. destruct (_ ≫= _) as [t|]; [|done].
  destruct (l1 t q _) as [y|] eqn:E; [|done]. by rewrite (B _ _ _ _ E).
Qed.

Lemma R_loop_body_below l1 l2 depth n q wl queried st x :
  below l1 l2 →
  Resolve.loop_body transport l1 depth n q wl queried st = Some x →
  Resolve.loop_body transport l2 depth n q wl queried st = Some x.
Proof.
  intros B. unfold Resolve.loop_body. destruct (pop wl) as [[rest e]|]; [|done].
  destruct (Resolve.cache_check st n q) as [c|c|]; [done| |].
  - destruct (Resolve.chase l1 n q c st) as [y|] eqn:E; [|done].
    by rewrite (R_chase_below _ _ _ _ _ _ _ B E).
  - destruct (Resolve.select_server l1 e st) as [y|] eqn:E; [|done].
    by rewrite (R_select_server_below _ _ _ _ _ B E).
Qed.

Lemma R_lookup_loop_fuel fuel :
  ∀ fuel' depth n q wl queried st x,
    fuel ≤ fuel' →
    Resolve.lookup_loop transport fuel depth n q wl queried st = Some x →
    Resolve.lookup_loop transport fuel' depth n q wl queried st = Some x.
Proof.
  induction fuel as [|fuel IH]; intros fuel' depth n q wl queried st x L H; [done|].
  destruct fuel' as [|fuel']; [lia|]. rewrite R_loop_S in H. rewrite R_loop_S.
  destruct (Resolve.loop_body _ (Resolve.lookup_at transport fuel _) _ _ _ _ _ _)
    as [y|] eqn:E; [|done].
  rewrite (R_loop_body_below _ (Resolve.lookup_at transport fuel' (S depth))
             _ _ _ _ _ _ _ (λ n' q' s' x', IH fuel' _ _ _ _ _ _ x' ltac:(lia)) E).
  destruct y as [r st'|wl' queried' st']; [done|]. apply IH; [lia|done].
Qed.

Lemma R_lookup_fuel fuel extra n q st x :
  Resolve.lookup transport fuel n q st = Some x →
  Resolve.lookup transport (fuel + extra) n q st = Some x.
Proof. apply R_lookup_loop_fuel. lia. Qed.

(** Once a budget suffices, every larger one gives the same run. *)
Lemma R_lookup_stable fuel extra n q st :
  is_Some (Resolve.lookup transport fuel n q st) →
  Resolve.lookup transport (fuel + extra) n q st
  = Resolve.lookup transport fuel n q st.
Proof.
  destruct (Resolve.lookup transport fuel n q st) as [x|] eqn:E; [|by intros [? ?]].
  intros _. by apply R_lookup_fuel.
Qed.

End ResolveFuel.

Section Resolve3Fuel.

Variable transport : list Resolve3.query → Resolve3.server → Name → rdtype → reply.

Lemma R3_select_server_below l1 l2 t e st x :
  below l1 l2 →
  Resolve3.select_server l1 t e st = Some x →
  Resolve3.select_server l2 t e st = Some x.
Proof.
  intros B. unfold Resolve3.select_server. destruct (N.eqb (fst e) CNAME); [|done].
  destruct (active_mem t _); [done|]. destruct (snd e) as [a|n|d m]; try done.
  destruct (bool_decide _); [|done].
  destruct (l1 n A _) as [y|] eqn:E; [|done]. by rewrite (B _ _ _ _ E).
Qed.

Lemma R3_handle_response_below l1 l2 n q response rest queried st x :
  below l1 l2 →
  Resolve3.handle_response l1 n q response rest queried st = Some x →
  Resolve3.handle_response l2 n q response rest queried st = Some x.
Proof.
  intros B. unfold Resolve3.handle_response.
  destruct (answer response) as [|rr ?]; [done|].
  destruct (N.eqb (rr_type rr) q); [done|].
  destruct (N.eqb (rr_type rr) CNAME); [|done].
  destruct (Resolve3.first_target response) as [t|ex]; [|done].
  destruct (l1 t q _) as [y|] eqn:E; [|done]. by rewrite (B _ _ _ _ E).
Qed.

Lemma R3_loop_body_below l1 l2 depth n q wl queried st x :
  below l1 l2 →
  Resolve3.loop_body transport l1 depth n q wl queried st = Some x →
  Resolve3.loop_body transport l2 depth n q wl queried st = Some x.
Proof.
  intros B. unfold Resolve3.loop_body. destruct (pop wl) as [[rest e]|]; [|done].
  destruct (Resolve3.select_server l1 n e st) as [y|] eqn:E; [|done].
  rewrite (R3_select_server_below _ _ _ _ _ _ B E).
  destruct y as [[[srv|]|ex] st1]; try done.
  destruct (existsb _ queried); [done|].
  destruct (transport _ _ _ _) as [response|ex]; [|done].
  by apply R3_handle_response_below.
Qed.

Lemma R3_lookup_fuel_mono fuel :
  (∀ fuel' depth n q st x,
     fuel ≤ fuel' →
     Resolve3.lookup_at transport fuel depth n q st = Some x →
     Resolve3.lookup_at transport fuel' depth n q st = Some x)
  ∧ (∀ fuel' depth n q wl queried st x,
     fuel ≤ fuel' →
     Resolve3.lookup_loop transport fuel depth n q wl queried st = Some x →
     Resolve3.lookup_loop transport fuel' depth n q wl queried st = Some x).
Proof.
  induction fuel as [|fuel [IHa IHl]]; [by split|]. split.
  - intros fuel' depth n q st x L H. destruct fuel' as [|fuel']; [lia|].
    cbn [Resolve3.lookup_at] in *.
    destruct (Resolve3.cache_check st n q) as [m|m|]; [done| |].
    + destruct (Resolve3.first_target m); [|done]. apply IHa; [lia|done].
    + apply IHl; [lia|done].
  - intros fuel' depth n q wl queried st x L H. destruct fuel' as [|fuel']; [lia|].
    rewrite R3_loop_S in H. rewrite R3_loop_S.
    destruct (Resolve3.loop_body _ (Resolve3.lookup_at transport fuel _) _ _ _ _ _ _)
      as [y|] eqn:E; [|done].
    rewrite (R3_loop_body_below _ (Resolve3.lookup_at transport fuel' (S depth))
               _ _ _ _ _ _ _ (λ n' q' s' x', IHa fuel' _ _ _ _ x' ltac:(lia)) E).
    destruct y as [r st'|wl' queried' st']; [done|]. apply IHl; [lia|done].
Qed.

Lemma R3_lookup_fuel fuel extra n q st x :
  Resolve3.lookup transport fuel n q st = Some x →
  Resolve3.lookup transport (fuel + extra) n q st = Some x.
Proof. apply (proj1 (R3_lookup_fuel_mono fuel)). lia. Qed.

Lemma R3_lookup_stable fuel extra n q st :
  is_Some (Resolve3.lookup transport fuel n q st) →
  Resolve3.lookup transport (fuel + extra) n q st
  = Resolve3.lookup transport fuel n q st.
Proof.
  destruct (Resolve3.lookup transport fuel n q st) as [x|] eqn:E; [|by intros [? ?]].
  intros _. by apply R3_lookup_fuel.
Qed.

End Resolve3Fuel.

(** ** Alias cycles *)

Section ResolveCycle.

Variable transport : list Resolve.query → Resolve.server → Name → rdtype → reply.

Lemma R_aliased_active st q x y al :
  R_aliased st q x y → R_aliased (Resolve.set_active al st) q x y.
Proof. intros (c & H1 & H2). by exists c. Qed.

Lemma R_alias_cycle_diverges fuel :
  ∀ depth st q a b,
    R_aliased st q a b → R_aliased st q b a →
    Resolve.lookup_at transport fuel depth a q st = None.
Proof.
  induction fuel as [|fuel IH]; intros depth st q a b Hab Hba; [done|].
  unfold Resolve.lookup_at. rewrite R_loop_S.
  destruct (R_seed_nonempty st a) as (rest & e & P).
  unfold Resolve.loop_body. rewrite P.
  destruct Hab as (c & C1 & C2). rewrite C1.
  unfold Resolve.chase. rewrite C2.
  rewrite (IH _ _ _ b a); [done| |];
    apply R_aliased_active; [done|by exists c].
Qed.

End ResolveCycle.

Section Resolve3Cycle.

Variable transport : list Resolve3.query → Resolve3.server → Name → rdtype → reply.

Lemma R3_alias_cycle_diverges fuel :
  ∀ depth st q a b,
    R3_aliased st q a b → R3_aliased st q b a →
    Resolve3.lookup_at transport fuel depth a q st = None.
Proof.
  induction fuel as [|fuel IH]; intros depth st q a b Hab Hba; [done|].
  cbn [Resolve3.lookup_at].
  destruct Hab as (m & C1 & C2). rewrite C1, C2.
  apply (IH _ _ _ b a); [done|by exists m].
Qed.

End Resolve3Cycle.

(** C1 (the code does not do this).  With cached CNAME entries that
    alias [a] to [b] and [b] to [a], [lookup a] has no result for any
    recursion budget, whatever the network is: the chase adds the name
    to [active_lookups] (resolve.py) but never tests it, and
    resolve3.py does not track it at all.  In CPython the unbounded
    recursion ends in a RecursionError. *)
Theorem C1_alias_cycle_never_returns :
  (∀ transport fuel st q a b,
     R_aliased st q a b → R_aliased st q b a →
     Resolve.lookup transport fuel a q st = None)
  ∧ (∀ transport fuel st q a b,
     R3_aliased st q a b → R3_aliased st q b a →
     Resolve3.lookup transport fuel a q st = None).
Proof.
  split; intros transport fuel st q a b H1 H2.
  - by eapply R_alias_cycle_diverges.
  - by eapply R3_alias_cycle_diverges.
Qed.

Lemma C1_alias_cycle_witness :
  (∀ fuel, Resolve.lookup (Scenario.failing DnsTimeout) fuel
             Scenario.alias_a A Scenario.alias_cycle = None)
  ∧ (∀ fuel, Resolve3.lookup (Scenario.failing3 DnsTimeout) fuel
               Scenario.alias_a A Scenario.alias_cycle3 = None).
Proof.
  split; intros fuel.
  - apply (proj1 C1_alias_cycle_never_returns _ fuel _ A
             Scenario.alias_a Scenario.alias_b).
    + eexists. split; vm_compute; reflexivity.
    + eexists. split; vm_compute; reflexivity.
  - apply (proj2 C1_alias_cycle_never_returns _ fuel _ A
             Scenario.alias_a Scenario.alias_b).
    + eexists. split; vm_compute; reflexivity.
    + eexists. split; vm_compute; reflexivity.
Defined.

(** ** Transport failures *)

Section ResolveFailure.

Variable transport : list Resolve.query → Resolve.server → Name → rdtype → reply.

(** A failing transport call at an address candidate: the exception
    leaves [lookup] unless it is one of the two that are caught. *)
Lemma R_failure_step fuel depth n q a rest queried st e :
  Resolve.cache_check st n q = Resolve.Miss →
  existsb (Resolve.server_eqb (Resolve.SvAddr a)) queried = false →
  transport (Resolve.log st) (Resolve.SvAddr a) n q = Failure e →
  let st' :=
    Resolve.mkState (Resolve.answer_cache st) (Resolve.authority_cache st)
      (Resolve.active_lookups st)
      (Resolve.log st ++ [Resolve.mkQuery depth (Resolve.SvAddr a) n q]) in
  Resolve.lookup_loop transport (S fuel) depth n q
    (rest ++ [(A, Resolve.SvAddr a)]) queried st
  = match Resolve.uncaught e with
    | Some e' => Some (Raise e', st')
    | None =>
        Resolve.lookup_loop transport fuel depth n q rest
          (queried ++ [Resolve.SvAddr a]) st'
    end.
Proof.
  intros C Q T st'. rewrite R_loop_S. unfold Resolve.loop_body.
  rewrite pop_snoc, C. unfold Resolve.select_server. cbn [fst snd].
  change (N.eqb A CNAME) with false. cbn iota. rewrite Q.
  unfold Resolve.do_dns_query. rewrite T. by destruct (Resolve.uncaught e).
Qed.

End ResolveFailure.

Section Resolve3Failure.

Variable transport : list Resolve3.query → Resolve3.server → Name → rdtype → reply.

(** In resolve3.py every failure of the transport call is caught. *)
Lemma R3_failure_step fuel depth n q a rest queried st e :
  existsb (Resolve3.server_eqb (Resolve3.SvAddr a)) queried = false →
  transport (Resolve3.log st) (Resolve3.SvAddr a) n q = Failure e →
  Resolve3.lookup_loop transport (S fuel) depth n q
    (rest ++ [(A, Resolve3.SvAddr a)]) queried st
  = Resolve3.lookup_loop transport fuel depth n q rest
      (queried ++ [Resolve3.SvAddr a])
      (Resolve3.set_log
         (Resolve3.log st ++ [Resolve3.mkQuery depth (Resolve3.SvAddr a) n q]) st).
Proof.
  intros Q T. rewrite R3_loop_S. unfold Resolve3.loop_body.
  rewrite pop_snoc. unfold Resolve3.select_server. cbn [fst snd].
  change (N.eqb A CNAME) with false. cbn iota. by rewrite Q, T.
Qed.

End Resolve3Failure.

(** C2 (the code does not do this in resolve.py).  [do_dns_query]
    catches [dns.exception.Timeout] and [ValueError] only: any other
    failure of the transport (a malformed response, a refused
    connection) leaves [lookup] as an exception, in any state and for
    any candidate address; from empty caches this happens at the first
    root server.  resolve3.py, with [except Exception], skips the
    candidate: from empty caches it tries all thirteen root servers
    and returns the empty message. *)
Theorem C2_transport_failure_escapes :
  (∀ transport fuel depth target_name qtype a rest queried st e,
     Resolve.cache_check st target_name qtype = Resolve.Miss →
     existsb (Resolve.server_eqb (Resolve.SvAddr a)) queried = false →
     transport (Resolve.log st) (Resolve.SvAddr a) target_name qtype = Failure e →
     Resolve.uncaught e = Some e →
     returned (Resolve.lookup_loop transport (S fuel) depth target_name qtype
                 (rest ++ [(A, Resolve.SvAddr a)]) queried st)
     = Some (Raise e))
  ∧ (∀ transport fuel depth target_name qtype a rest queried st e,
     existsb (Resolve3.server_eqb (Resolve3.SvAddr a)) queried = false →
     transport (Resolve3.log st) (Resolve3.SvAddr a) target_name qtype = Failure e →
     Resolve3.lookup_loop transport (S fuel) depth target_name qtype
       (rest ++ [(A, Resolve3.SvAddr a)]) queried st
     = Resolve3.lookup_loop transport fuel depth target_name qtype rest
         (queried ++ [Resolve3.SvAddr a])
         (Resolve3.set_log
            (Resolve3.log st
             ++ [Resolve3.mkQuery depth (Resolve3.SvAddr a) target_name qtype]) st))
  ∧ (∀ e fuel,
     Resolve.uncaught e = Some e →
     let run :=
       Resolve.lookup (Scenario.failing e) (S fuel)
         Scenario.example_com A Resolve.empty_state in
     let run3 :=
       Resolve3.lookup (Scenario.failing3 e) (15 + fuel)
         Scenario.example_com A Resolve3.empty_state in
     (returned run = Some (Raise e)
      ∧ length ∘ Resolve.log <$> final_state run = Some 1)
     ∧ (returned run3 = Some (Ret empty_message)
        ∧ length ∘ Resolve3.log <$> final_state run3 = Some 13)).
Proof.
  split; [|split].
  - intros transport fuel depth n q a rest queried st e C Q T U.
    rewrite (R_failure_step transport fuel depth n q a rest queried st e C Q T).
    by rewrite U.
  - intros. by eapply R3_failure_step.
  - intros e fuel H.
    destruct e; try discriminate H; repeat split; vm_compute; reflexivity.
Qed.

Lemma C2_transport_failure_witness :
  returned (Resolve.lookup_loop (Scenario.failing FormError) 1 0
              Scenario.example_com A ([] ++ [(A, Resolve.SvAddr "198.41.0.4")]) []
              Resolve.empty_state)
  = Some (Raise FormError)
  ∧ Resolve3.lookup_loop (Scenario.failing3 FormError) 2 0
      Scenario.example_com A ([] ++ [(A, Resolve3.SvAddr "198.41.0.4")]) []
      Resolve3.empty_state
    = Resolve3.lookup_loop (Scenario.failing3 FormError) 1 0
        Scenario.example_com A [] ([] ++ [Resolve3.SvAddr "198.41.0.4"])
        (Resolve3.set_log
           (Resolve3.log Resolve3.empty_state
            ++ [Resolve3.mkQuery 0 (Resolve3.SvAddr "198.41.0.4")
                  Scenario.example_com A]) Resolve3.empty_state)
  ∧ returned (Resolve.lookup (Scenario.failing FormError) 1
                Scenario.example_com A Resolve.empty_state)
    = Some (Raise FormError).
Proof.
  split; [|split].
  - by apply (proj1 C2_transport_failure_escapes).
  - by apply (proj1 (proj2 C2_transport_failure_escapes)) with (e := FormError).
  - exact (proj1 (proj1 (proj2 (proj2 C2_transport_failure_escapes)
                           FormError 0 eq_refl))).
Defined.

(** ** The end-to-end referral chain *)

(** C8.  From empty caches and with the three-step referral chain,
    [lookup "example.com." A] returns the address record after exactly
    three transport calls (a root server, the TLD server, the zone's
    server, in this order) and both "com." and "example.com." are
    keys of [authority_cache] afterwards.  Both variants, for every
    budget of at least 20 steps. *)
Theorem C8_referral_chain_three_round_trips :
  ∀ extra,
    let run :=
      Resolve.lookup Scenario.chain (20 + extra) Scenario.example_com A
        Resolve.empty_state in
    let run3 :=
      Resolve3.lookup Scenario.chain3 (20 + extra) Scenario.example_com A
        Resolve3.empty_state in
    (returned run = Some (Ret Scenario.final_answer)
     ∧ map Resolve.q_server ∘ Resolve.log <$> final_state run
       = Some [Resolve.SvAddr "202.12.27.33"; Resolve.SvAddr "192.5.6.30";
               Resolve.SvAddr "10.0.0.1"]
     ∧ (final_state run
          ≫= λ st, Resolve.authority_cache st !! KLabels (labels Scenario.com))
       = Some [Scenario.a_gtld]
     ∧ (final_state run
          ≫= λ st, Resolve.authority_cache st !! KLabels (labels Scenario.example_com))
       = Some [Scenario.ns1_example_com])
    ∧ (returned run3 = Some (Ret Scenario.final_answer)
       ∧ map Resolve3.q_server ∘ Resolve3.log <$> final_state run3
         = Some [Resolve3.SvAddr "202.12.27.33"; Resolve3.SvAddr "192.5.6.30";
                 Resolve3.SvAddr "10.0.0.1"]
       ∧ (final_state run3
            ≫= λ st, Resolve3.authority_cache st !! KLabels (labels Scenario.com))
         = Some (Resolve3.mkRow [labels Scenario.a_gtld] [] [] [])
       ∧ (final_state run3
            ≫= λ st, Resolve3.authority_cache st !! KLabels (labels Scenario.example_com))
         = Some (Resolve3.mkRow [labels Scenario.ns1_example_com] [] [] [])).
Proof.
  intros extra run run3. subst run run3.
  rewrite (R_lookup_stable _ 20 extra) by (apply (bool_decide_unpack _); by vm_compute).
  rewrite (R3_lookup_stable _ 20 extra) by (apply (bool_decide_unpack _); by vm_compute).
  repeat split; vm_compute; reflexivity.
Qed.

(** ** The guard on nameserver names *)

Section ResolveGuard.

Variable transport : list Resolve.query → Resolve.server → Name → rdtype → reply.

Lemma active_mem_name_eqb n n' s :
  name_eqb n n' = true → active_mem n' s = active_mem n s.
Proof.
  unfold name_eqb, active_mem. intros H%bool_decide_eq_true. by rewrite H.
Qed.

Lemma R_resolve_active lookup n st :
  active_mem n (Resolve.active_lookups st) = true →
  Resolve.resolve_dns_cname lookup (Resolve.SvName n) st
  = Some (Ret (Resolve.SvAddr ""), st).
Proof. intros H. unfold Resolve.resolve_dns_cname. by rewrite H. Qed.

Lemma R_active_candidate_dropped fuel depth t q rest n queried st :
  Resolve.cache_check st t q = Resolve.Miss →
  active_mem n (Resolve.active_lookups st) = true →
  Resolve.lookup_loop transport (S fuel) depth t q
    (rest ++ [(CNAME, Resolve.SvName n)]) queried st
  = Resolve.lookup_loop transport fuel depth t q rest queried st.
Proof.
  intros C H. rewrite R_loop_S. unfold Resolve.loop_body.
  rewrite pop_snoc, C. unfold Resolve.select_server. cbn [fst snd].
  change (N.eqb CNAME CNAME) with true. cbn iota.
  by rewrite R_resolve_active.
Qed.

End ResolveGuard.

Section Resolve3Guard.

Variable transport : list Resolve3.query → Resolve3.server → Name → rdtype → reply.

Lemma R3_candidate_dropped fuel depth t q rest n queried st :
  active_mem t (Resolve3.active_lookups st) = true ∨ labels t = labels n →
  Resolve3.lookup_loop transport (S fuel) depth t q
    (rest ++ [(CNAME, Resolve3.SvName n)]) queried st
  = Resolve3.lookup_loop transport fuel depth t q rest queried st.
Proof.
  intros H. rewrite R3_loop_S. unfold Resolve3.loop_body.
  rewrite pop_snoc. unfold Resolve3.select_server. cbn [fst snd].
  change (N.eqb CNAME CNAME) with true. cbn iota.
  destruct (active_mem t (Resolve3.active_lookups st)) eqn:E; [done|].
  destruct H as [H|H]; [done|].
  by rewrite bool_decide_eq_false_2 by (intros X; by apply X).
Qed.

End Resolve3Guard.

(** C3 (as amended).  resolve.py drops a popped nameserver name that
    is in [active_lookups] and goes on with the rest of the worklist.
    resolve3.py guards on the name being looked up instead: it drops a
    nameserver name when the current target is in [active_lookups] or
    has the labels of the candidate.  On a zone whose only nameserver
    lies inside the zone without glue, [lookup] returns the empty
    message in both variants. *)
Theorem C3_self_referential_candidate_dropped :
  (∀ transport fuel depth target_name qtype rest n queried st,
     Resolve.cache_check st target_name qtype = Resolve.Miss →
     active_mem n (Resolve.active_lookups st) = true →
     Resolve.lookup_loop transport (S fuel) depth target_name qtype
       (rest ++ [(CNAME, Resolve.SvName n)]) queried st
     = Resolve.lookup_loop transport fuel depth target_name qtype rest queried st)
  ∧ (∀ transport fuel depth target_name qtype rest n queried st,
     active_mem target_name (Resolve3.active_lookups st) = true
     ∨ labels target_name = labels n →
     Resolve3.lookup_loop transport (S fuel) depth target_name qtype
       (rest ++ [(CNAME, Resolve3.SvName n)]) queried st
     = Resolve3.lookup_loop transport fuel depth target_name qtype rest queried st)
  ∧ (∀ extra,
     returned (Resolve.lookup (Scenario.always Scenario.self_referral) (40 + extra)
                 Scenario.host_x A Resolve.empty_state)
     = Some (Ret empty_message))
  ∧ (∀ extra,
     returned (Resolve3.lookup (Scenario.always3 Scenario.self_referral) (60 + extra)
                 Scenario.host_x A Resolve3.empty_state)
     = Some (Ret empty_message)).
Proof.
  split; [|split; [|split]].
  - intros. by apply R_active_candidate_dropped.
  - intros. by apply R3_candidate_dropped.
  - intros extra.
    rewrite (R_lookup_stable _ 40 extra) by (apply (bool_decide_unpack _); by vm_compute).
    vm_compute. reflexivity.
  - intros extra.
    rewrite (R3_lookup_stable _ 60 extra) by (apply (bool_decide_unpack _); by vm_compute).
    vm_compute. reflexivity.
Qed.

Lemma C3_self_referential_candidate_witness :
  Resolve.lookup_loop (Scenario.failing DnsTimeout) 2 0 Scenario.host_x A
    ([] ++ [(CNAME, Resolve.SvName Scenario.ns_x)]) []
    (Resolve.mkState ∅ ∅ {[canon Scenario.ns_x]} [])
  = Resolve.lookup_loop (Scenario.failing DnsTimeout) 1 0 Scenario.host_x A [] []
      (Resolve.mkState ∅ ∅ {[canon Scenario.ns_x]} [])
  ∧ Resolve3.lookup_loop (Scenario.failing3 DnsTimeout) 2 0 Scenario.ns_x A
      ([] ++ [(CNAME, Resolve3.SvName Scenario.ns_x)]) [] Scenario.ns_active3
    = Resolve3.lookup_loop (Scenario.failing3 DnsTimeout) 1 0 Scenario.ns_x A [] []
        Scenario.ns_active3.
Proof.
  split.
  - apply (proj1 C3_self_referential_candidate_dropped); vm_compute; reflexivity.
  - apply (proj1 (proj2 C3_self_referential_candidate_dropped)).
    left. vm_compute. reflexivity.
Defined.

(** C3 fails as stated in resolve3.py.  While "ns.x.test." is in
    [active_lookups], the lookup of "host.x.test." pops that very name
    as a candidate: the candidate is not dropped, a nested lookup
    sends thirteen queries for it.  The state arises in a real run:
    with two nameservers that are each other's only way in, the
    lookup of "ns.x.test." queries for "ns.x.test." again two levels
    down. *)
Lemma C3_counterexample :
  active_mem Scenario.ns_x (Resolve3.active_lookups Scenario.ns_active3) = true
  ∧ Resolve3.loop_body (Scenario.failing3 DnsTimeout)
      (Resolve3.lookup_at (Scenario.failing3 DnsTimeout) 20 1)
      0 Scenario.host_x A [(CNAME, Resolve3.SvName Scenario.ns_x)] []
      Scenario.ns_active3
    ≠ Some (Resolve3.Next [] [] Scenario.ns_active3)
  ∧ length ∘ Resolve3.log <$>
      final_state (Resolve3.lookup_loop (Scenario.failing3 DnsTimeout) 22 0
                     Scenario.host_x A [(CNAME, Resolve3.SvName Scenario.ns_x)] []
                     Scenario.ns_active3)
    = Some 13
  ∧ (λ st, existsb (λ x, Nat.eqb (Resolve3.q_depth x) 2
                         && name_eqb (Resolve3.q_name x) Scenario.ns_x)
             (Resolve3.log st)) <$>
      final_state (Resolve3.lookup Scenario.mutual3 100 Scenario.ns_x A
                     Resolve3.empty_state)
    = Some true.
Proof.
  split; [vm_compute; reflexivity|]. split; [|split; vm_compute; reflexivity].
  intros H.
  apply (f_equal (λ o, match o with
                       | Some (Resolve3.Next _ _ st) => length (Resolve3.log st)
                       | _ => 0
                       end)) in H.
  vm_compute in H. discriminate H.
Qed.

(** ** Keys of the caches and of the active set *)

Lemma Name_eq n n' : labels n = labels n' → n = n'.
Proof. destruct n, n'. simpl. by intros ->. Qed.


(** ** resolve.py: relations that every step of a lookup preserves *)

Section ResolvePreserve.

Variable transport : list Resolve.query → Resolve.server → Name → rdtype → reply.

(** A preorder on states that does not look at [active_lookups]. *)
Variable R : Resolve.state → Resolve.state → Prop.
Hypothesis R_refl : ∀ st, R st st.
Hypothesis R_trans : ∀ st1 st2 st3, R st1 st2 → R st2 st3 → R st1 st3.
Hypothesis R_active : ∀ al st, R st (Resolve.set_active al st).

Section Nested.

Variable lookup : Name → rdtype → Resolve.state → option (result message * Resolve.state).
Hypothesis lookup_R : ∀ n q st res st', lookup n q st = Some (res, st') → R st st'.

Lemma R_resolve_dns_cname_R srv st res st' :
  Resolve.resolve_dns_cname lookup srv st = Some (res, st') → R st st'.
Proof.
  unfold Resolve.resolve_dns_cname. intros H.
  destruct srv as [a|n|c|rd]; try (injection H as <- <-; apply R_refl).
  destruct (active_mem n _); [injection H as <- <-; apply R_refl|].
  destruct (_ ≫= _) as [c|].
  { destruct (Resolve.first_item c); injection H as <- <-; apply R_refl. }
  destruct (lookup n A _) as [[[server_ip|e] st1]|] eqn:L; [| |done].
  - apply lookup_R in L.
    assert (R st (Resolve.set_active
                    (active_discard n (Resolve.active_lookups st1)) st1)) as X.
    { eapply R_trans; [apply R_active|]. eapply R_trans; [exact L|apply R_active]. }
    destruct (answer server_ip) as [|rr ?]; [by injection H as <- <-|].
    destruct (head (items rr)); by injection H as <- <-.
  - injection H as <- <-. apply lookup_R in L.
    eapply R_trans; [apply R_active|exact L].
Qed.

Lemma R_select_server_R e st res st' :
  Resolve.select_server lookup e st = Some (res, st') → R st st'.
Proof.
  unfold Resolve.select_server. intros H.
  destruct (N.eqb (fst e) CNAME); [|injection H as <- <-; apply R_refl].
  destruct (Resolve.resolve_dns_cname lookup (snd e) st) as [[[srv|ex] st1]|] eqn:E;
    [| |done]; injection H as <- <-; by eapply R_resolve_dns_cname_R.
Qed.

Lemma R_chase_R n q c st res st' :
  Resolve.chase lookup n q c st = Some (res, st') → R st st'.
Proof.
  unfold Resolve.chase. intros H.
  destruct (Resolve.first_item c ≫= rd_target) as [t|];
    [|injection H as <- <-; apply R_active].
  destruct (lookup t q _) as [[[res1|e] st1]|] eqn:L; [| |done];
    injection H as <- <-; apply lookup_R in L.
  - eapply R_trans; [apply R_active|]. eapply R_trans; [exact L|apply R_active].
  - eapply R_trans; [apply R_active|exact L].
Qed.

End Nested.

Hypothesis R_exhausted : ∀ n q st, R st (Resolve.exhausted n q st).
Hypothesis R_query : ∀ depth n q srv wl st,
  R st (Resolve.do_dns_query transport depth n q srv wl st).2.

Lemma R_loop_body_R lookup depth n q wl queried st :
  (∀ n q st res st', lookup n q st = Some (res, st') → R st st') →
  match Resolve.loop_body transport lookup depth n q wl queried st with
  | Some (Resolve.Done _ st') => R st st'
  | Some (Resolve.Next _ _ st') => R st st'
  | None => True
  end.
Proof.
  intros Hl. unfold Resolve.loop_body.
  destruct (pop wl) as [[rest e]|]; [|apply R_exhausted].
  destruct (Resolve.cache_check st n q) as [c|c|]; [apply R_refl| |].
  - destruct (Resolve.chase lookup n q c st) as [[r st']|] eqn:E; [|done].
    by eapply R_chase_R.
  - destruct (Resolve.select_server lookup e st) as [[[[srv|]|ex] st1]|] eqn:E;
      [| | |done]; pose proof (R_select_server_R lookup Hl _ _ _ _ E) as X;
      [|exact X|exact X].
    destruct (existsb _ queried); [exact X|].
    pose proof (R_query depth n q srv rest st1) as Y.
    destruct (Resolve.do_dns_query _ _ _ _ _ _ _) as [[[ex|] wl'] st2];
      simpl in Y; by eapply R_trans.
Qed.

Lemma R_lookup_loop_R fuel :
  ∀ depth n q wl queried st res st',
    Resolve.lookup_loop transport fuel depth n q wl queried st = Some (res, st') →
    R st st'.
Proof.
  induction fuel as [|fuel IH]; intros depth n q wl queried st res st' H; [done|].
  rewrite R_loop_S in H.
  pose proof (R_loop_body_R (Resolve.lookup_at transport fuel (S depth))
                depth n q wl queried st) as B.
  destruct (Resolve.loop_body _ _ _ _ _ _ _ _) as [[r st1|wl' queried' st1]|];
    [| |done].
  - injection H as <- <-. apply B. intros ?????. apply IH.
  - eapply R_trans; [apply B; intros ?????; apply IH|]. by eapply IH.
Qed.

End ResolvePreserve.

(** ** Cache entries are never removed *)

Lemma keys_le_refl {X} (ac : gmap pykey (gmap N X)) : keys_le ac ac.
Proof. by intros k t. Qed.

Lemma keys_le_trans {X} (a b c : gmap pykey (gmap N X)) :
  keys_le a b → keys_le b c → keys_le a c.
Proof. intros H1 H2 k t H. by apply H2, H1. Qed.

Lemma keys_le_insert_row {X} (ac : gmap pykey (gmap N X)) k t x :
  keys_le ac (<[k := <[t := x]> (default ∅ (ac !! k))]> ac).
Proof.
  intros k' t'. unfold has_entry.
  destruct (decide (k = k')) as [<-|Hk]; [|by rewrite lookup_insert_ne].
  rewrite lookup_insert_eq. destruct (ac !! k) as [r|]; simpl; [|by intros [? ?]].
  destruct (decide (t = t')) as [<-|Ht]; [by rewrite lookup_insert_eq|].
  by rewrite lookup_insert_ne.
Qed.

Lemma keys_le_fold {X Y} (f : gmap pykey (gmap N X) → Y → gmap pykey (gmap N X)) l :
  (∀ ac y, keys_le ac (f ac y)) → ∀ ac, keys_le ac (fold_left f l ac).
Proof.
  intros Hf. induction l as [|y l IH]; intros ac; [apply keys_le_refl|].
  simpl. eapply keys_le_trans; [apply Hf|apply IH].
Qed.

Section ResolveIdempotence.

Variable transport : list Resolve.query → Resolve.server → Name → rdtype → reply.

Lemma R_ensure_row_keys k ac : keys_le ac (Resolve.ensure_row k ac).
Proof.
  unfold Resolve.ensure_row. destruct (ac !! k) eqn:E; [apply keys_le_refl|].
  intros k' t. unfold has_entry.
  destruct (decide (k = k')) as [<-|Hk]; [|by rewrite lookup_insert_ne].
  rewrite E. by intros [? ?].
Qed.

Lemma R_do_dns_query_grows depth n q srv wl st :
  R_grows st (Resolve.do_dns_query transport depth n q srv wl st).2.
Proof.
  unfold R_grows, Resolve.do_dns_query.
  destruct (transport _ _ _ _) as [response|e]; [|apply keys_le_refl].
  destruct (Resolve.record_authority _ _ _) as [[eo wl'] auth]. simpl.
  eapply keys_le_trans; [apply R_ensure_row_keys|].
  unfold Resolve.cache_additional, Resolve.cache_answers.
  eapply keys_le_trans; [|apply keys_le_fold; intros; apply keys_le_insert_row].
  apply keys_le_fold; intros; apply keys_le_insert_row.
Qed.

Lemma R_lookup_loop_grows fuel depth n q wl queried st res st' :
  Resolve.lookup_loop transport fuel depth n q wl queried st = Some (res, st') →
  R_grows st st'.
Proof.
  apply (R_lookup_loop_R transport R_grows).
  - intros ?. apply keys_le_refl.
  - intros ???. apply keys_le_trans.
  - intros ??. apply keys_le_refl.
  - intros ???. apply keys_le_insert_row.
  - apply R_do_dns_query_grows.
Qed.

Lemma R_chase_grows fuel depth n q c st res st' :
  Resolve.chase (Resolve.lookup_at transport fuel depth) n q c st = Some (res, st') →
  R_grows st st'.
Proof.
  intros H. eapply (R_chase_R R_grows); [..|exact H];
    first [ by intros ???; apply keys_le_trans
          | by intros ??; apply keys_le_refl
          | by intros ?????; eapply R_lookup_loop_grows ].
Qed.

Lemma R_check_Alias st n q c :
  Resolve.cache_check st n q = Resolve.Alias c →
  Resolve.row st n ≫= (λ r, r !! q) = None
  ∧ Resolve.row st n ≫= (λ r, r !! CNAME) = Some c.
Proof.
  unfold Resolve.cache_check. destruct (Resolve.row st n) as [r|]; [|done].
  simpl. destruct (r !! q); [done|].
  destruct (r !! CNAME) as [c'|]; [|done].
  destruct (Nat.ltb 0 _); [|done]. by intros [= ->].
Qed.

(** A call that returns without the name having (or getting) a CNAME
    entry leaves an entry for the pair, and returned its answer. *)
Lemma R_result_is_cached fuel :
  ∀ depth n q wl queried st r st',
    Resolve.lookup_loop transport fuel depth n q wl queried st = Some (Ret r, st') →
    q = CNAME ∨ Resolve.row st' n ≫= (λ x, x !! CNAME) = None →
    ∃ c, Resolve.cache_check st' n q = Resolve.Hit c ∧ r = Resolve.response_of c.
Proof.
  induction fuel as [|fuel IH]; intros depth n q wl queried st r st' H NA; [done|].
  rewrite R_loop_S in H.
  destruct (Resolve.loop_body _ _ _ _ _ _ _ _) as [[res st1|wl' queried' st1]|] eqn:B;
    [|by eapply IH|done].
  injection H as -> ->. unfold Resolve.loop_body in B.
  destruct (pop wl) as [[rest e]|].
  2:{ injection B as <- <-. exists Resolve.Neg. split; [apply R_check_exhausted|done]. }
  destruct (Resolve.cache_check st n q) as [c|c|] eqn:CC.
  - injection B as <- <-. by exists c.
  - exfalso. apply R_check_Alias in CC as [C1 C2].
    destruct NA as [->|NA]; [congruence|].
    destruct (Resolve.chase _ _ _ _ _) as [[r1 st2]|] eqn:E; [|done].
    injection B as -> ->.
    apply R_chase_grows in E.
    destruct (E (KLabels (labels n)) CNAME) as [x Hx].
    + unfold has_entry. fold (Resolve.row st n). by rewrite C2.
    + unfold Resolve.row in NA. congruence.
  - repeat case_match; simplify_eq.
Qed.

Lemma R_no_alias_idempotent fuel fuel' depth depth' n q st r st' :
  Resolve.lookup_at transport fuel depth n q st = Some (Ret r, st') →
  q = CNAME ∨ Resolve.row st' n ≫= (λ x, x !! CNAME) = None →
  Resolve.lookup_at transport (S fuel') depth' n q st' = Some (Ret r, st').
Proof.
  intros H NA. apply R_result_is_cached in H as (c & C & ->); [|done].
  by apply R_lookup_hit.
Qed.

End ResolveIdempotence.

(** ** resolve3.py: relations that every step of a lookup preserves *)

Section Resolve3Preserve.

Variable transport : list Resolve3.query → Resolve3.server → Name → rdtype → reply.

Variable R : Resolve3.state → Resolve3.state → Prop.
Hypothesis R_refl : ∀ st, R st st.
Hypothesis R_trans : ∀ st1 st2 st3, R st1 st2 → R st2 st3 → R st1 st3.
Hypothesis R_active : ∀ al st, R st (Resolve3.set_active al st).
Hypothesis R_authority : ∀ auth st, R st (Resolve3.set_authority_cache auth st).
Hypothesis R_put : ∀ k t m st,
  R st (Resolve3.set_answer_cache (Resolve3.put k t m (Resolve3.answer_cache st)) st).

Section Nested.

Variable lookup : Name → rdtype → Resolve3.state → option (result message * Resolve3.state).
Hypothesis lookup_R : ∀ n q st res st', lookup n q st = Some (res, st') → R st st'.

Lemma R3_select_server_R t e st res st' :
  Resolve3.select_server lookup t e st = Some (res, st') → R st st'.
Proof.
  unfold Resolve3.select_server. intros H.
  destruct (N.eqb (fst e) CNAME); [|injection H as <- <-; apply R_refl].
  destruct (active_mem t _); [injection H as <- <-; apply R_refl|].
  destruct (snd e) as [a|n|d m]; try (injection H as <- <-; apply R_refl).
  destruct (bool_decide _); [|injection H as <- <-; apply R_refl].
  destruct (lookup n A _) as [[[server_ip|ex] st1]|] eqn:L; [| |done].
  - apply lookup_R in L.
    assert (R st (Resolve3.set_active
                    (active_discard t (Resolve3.active_lookups st1)) st1)) as X.
    { eapply R_trans; [apply R_active|]. eapply R_trans; [exact L|apply R_active]. }
    destruct (answer server_ip) as [|rr ?]; [by injection H as <- <-|].
    destruct (head (items rr)); by injection H as <- <-.
  - injection H as <- <-. apply lookup_R in L.
    eapply R_trans; [apply R_active|exact L].
Qed.

Lemma R3_handle_response_R n q response rest queried st :
  match Resolve3.handle_response lookup n q response rest queried st with
  | Some (Resolve3.Done _ st') => R st st'
  | Some (Resolve3.Next _ _ st') => R st st'
  | None => True
  end.
Proof.
  unfold Resolve3.handle_response.
  destruct (answer response) as [|rr ?].
  - destruct (authority response); [apply R_refl|].
    destruct (Resolve3.record_authority _ _ _ _) as [[[ex|] wl] auth];
      apply R_authority.
  - destruct (N.eqb (rr_type rr) q); [apply R_put|].
    destruct (N.eqb (rr_type rr) CNAME); [|apply R_put].
    destruct (Resolve3.first_target response) as [t|ex].
    + destruct (lookup t q _) as [[[res|ex] st4]|] eqn:L; [| |done];
        apply lookup_R in L.
      * eapply R_trans; [apply R_put|]. eapply R_trans; [apply R_active|].
        eapply R_trans; [exact L|apply R_active].
      * eapply R_trans; [apply R_put|]. eapply R_trans; [apply R_active|exact L].
    + eapply R_trans; [apply R_put|apply R_active].
Qed.

End Nested.

Hypothesis R_log : ∀ depth srv n q st,
  R st (Resolve3.set_log (Resolve3.log st ++ [Resolve3.mkQuery depth srv n q]) st).

Lemma R3_loop_body_R lookup depth n q wl queried st :
  (∀ n q st res st', lookup n q st = Some (res, st') → R st st') →
  match Resolve3.loop_body transport lookup depth n q wl queried st with
  | Some (Resolve3.Done _ st') => R st st'
  | Some (Resolve3.Next _ _ st') => R st st'
  | None => True
  end.
Proof.
  intros Hl. unfold Resolve3.loop_body.
  destruct (pop wl) as [[rest e]|]; [|apply R_put].
  destruct (Resolve3.select_server lookup n e st) as [[[[srv|]|ex] st1]|] eqn:E;
    [| | |done]; pose proof (R3_select_server_R lookup Hl _ _ _ _ _ E) as X;
    [|exact X|exact X].
  destruct (existsb _ queried); [exact X|].
  pose proof (R_log depth srv n q st1) as Y.
  destruct (transport _ _ _ _) as [response|ex]; [|by eapply R_trans].
  pose proof (R3_handle_response_R lookup Hl n q response rest (queried ++ [srv])
                (Resolve3.set_log
                   (Resolve3.log st1 ++ [Resolve3.mkQuery depth srv n q]) st1)) as Z.
  destruct (Resolve3.handle_response _ _ _ _ _ _ _) as [[r st2|wl' qd' st2]|];
    [| |done]; eapply R_trans; [exact X| |exact X|]; by eapply R_trans.
Qed.

Lemma R3_lookup_R fuel :
  (∀ depth n q st res st',
     Resolve3.lookup_at transport fuel depth n q st = Some (res, st') → R st st')
  ∧ (∀ depth n q wl queried st res st',
     Resolve3.lookup_loop transport fuel depth n q wl queried st = Some (res, st') →
     R st st').
Proof.
  induction fuel as [|fuel [IHa IHl]]; [by split|]. split.
  - intros depth n q st res st' H. cbn [Resolve3.lookup_at] in H.
    destruct (Resolve3.cache_check st n q) as [m|m|].
    + injection H as <- <-. apply R_refl.
    + destruct (Resolve3.first_target m) as [t|ex];
        [by eapply IHa|injection H as <- <-; apply R_refl].
    + by eapply IHl.
  - intros depth n q wl queried st res st' H. rewrite R3_loop_S in H.
    pose proof (R3_loop_body_R (Resolve3.lookup_at transport fuel (S depth))
                  depth n q wl queried st) as B.
    destruct (Resolve3.loop_body _ _ _ _ _ _ _ _) as [[r st1|wl' queried' st1]|];
      [| |done].
    + injection H as <- <-. apply B. intros ?????. apply IHa.
    + eapply R_trans; [apply B; intros ?????; apply IHa|]. by eapply IHl.
Qed.

End Resolve3Preserve.

Section Resolve3Idempotence.

Variable transport : list Resolve3.query → Resolve3.server → Name → rdtype → reply.

Lemma R3_lookup_grows fuel :
  (∀ depth n q st res st',
     Resolve3.lookup_at transport fuel depth n q st = Some (res, st') →
     R3_grows st st')
  ∧ (∀ depth n q wl queried st res st',
     Resolve3.lookup_loop transport fuel depth n q wl queried st = Some (res, st') →
     R3_grows st st').
Proof.
  apply (R3_lookup_R transport R3_grows);
    first [ by intros ???; apply keys_le_trans
          | by intros ??; apply keys_le_refl
          | by intros ?; apply keys_le_refl
          | by intros ????; apply keys_le_insert_row
          | by intros ?????; apply keys_le_refl ].
Qed.

Lemma R3_check_Alias st n q m :
  Resolve3.cache_check st n q = Resolve3.Alias m →
  Resolve3.row st n ≫= (λ r, r !! q) = None
  ∧ Resolve3.row st n ≫= (λ r, r !! CNAME) = Some m.
Proof.
  unfold Resolve3.cache_check. destruct (Resolve3.row st n) as [r|]; [|done].
  simpl. destruct (r !! q); [done|].
  destruct (r !! CNAME) as [m'|]; [|done].
  destruct (Nat.ltb 0 _); [|done]. by intros [= ->].
Qed.

Lemma R3_check_put n t m st :
  Resolve3.cache_check
    (Resolve3.set_answer_cache
       (Resolve3.put (KLabels (labels n)) t m (Resolve3.answer_cache st)) st) n t
  = Resolve3.Hit m.
Proof.
  unfold Resolve3.cache_check, Resolve3.row, Resolve3.put. simpl.
  rewrite lookup_insert_eq. by rewrite lookup_insert_eq.
Qed.

Lemma R3_result_is_cached fuel :
  (∀ depth n q st r st',
     Resolve3.lookup_at transport fuel depth n q st = Some (Ret r, st') →
     q = CNAME ∨ Resolve3.row st' n ≫= (λ x, x !! CNAME) = None →
     Resolve3.cache_check st' n q = Resolve3.Hit r)
  ∧ (∀ depth n q wl queried st r st',
     Resolve3.lookup_loop transport fuel depth n q wl queried st = Some (Ret r, st') →
     q = CNAME ∨ Resolve3.row st' n ≫= (λ x, x !! CNAME) = None →
     Resolve3.cache_check st' n q = Resolve3.Hit r).
Proof.
  induction fuel as [|fuel [IHa IHl]]; [by split|]. split.
  - intros depth n q st r st' H NA. cbn [Resolve3.lookup_at] in H.
    destruct (Resolve3.cache_check st n q) as [m|m|] eqn:CC.
    + by injection H as <- <-.
    + exfalso. apply R3_check_Alias in CC as [C1 C2].
      destruct NA as [->|NA]; [congruence|].
      destruct (Resolve3.first_target m) as [t|ex]; [|done].
      apply (proj1 (R3_lookup_grows fuel)) in H.
      destruct (H (KLabels (labels n)) CNAME) as [x Hx].
      * unfold has_entry. fold (Resolve3.row st n). by rewrite C2.
      * unfold Resolve3.row in NA. congruence.
    + by eapply IHl.
  - intros depth n q wl queried st r st' H NA. rewrite R3_loop_S in H.
    destruct (Resolve3.loop_body _ _ _ _ _ _ _ _) as [[res st1|wl' queried' st1]|] eqn:B;
      [|by eapply IHl|done].
    injection H as -> ->. unfold Resolve3.loop_body in B.
    destruct (pop wl) as [[rest e]|].
    2:{ injection B as <- <-. apply R3_check_put. }
    destruct (Resolve3.select_server _ _ _ _) as [[[[srv|]|ex] st2]|]; [|done..].
    destruct (existsb _ queried); [done|].
    destruct (transport _ _ _ _) as [response|ex]; [|done].
    unfold Resolve3.handle_response in B.
    destruct (answer response) as [|rr ?].
    { destruct (authority response); [done|].
      by destruct (Resolve3.record_authority _ _ _ _) as [[[ex|] wl'] auth]. }
    destruct (N.eqb (rr_type rr) q) eqn:Eq.
    { injection B as <- <-. apply N.eqb_eq in Eq as <-.
      apply (R3_check_put n _ _ (Resolve3.set_log _ st2)). }
    destruct (N.eqb (rr_type rr) CNAME) eqn:Ec; [|done].
    apply N.eqb_eq in Ec. exfalso.
    destruct NA as [->|NA]; [by rewrite Ec, N.eqb_refl in Eq|].
    destruct (Resolve3.first_target response) as [t|ex]; [|done].
    destruct (Resolve3.lookup_at _ _ _ _ _ _) as [[[res1|ex] st4]|] eqn:L; [|done..].
    injection B as <- <-.
    apply (proj1 (R3_lookup_grows fuel)) in L.
    destruct (L (KLabels (labels n)) CNAME) as [x Hx].
    + unfold has_entry, Resolve3.put. simpl. rewrite lookup_insert_eq. simpl.
      rewrite Ec. by rewrite lookup_insert_eq.
    + unfold Resolve3.row in NA. simpl in NA. congruence.
Qed.

Lemma R3_no_alias_idempotent fuel fuel' depth depth' n q st r st' :
  Resolve3.lookup_at transport fuel depth n q st = Some (Ret r, st') →
  q = CNAME ∨ Resolve3.row st' n ≫= (λ x, x !! CNAME) = None →
  Resolve3.lookup_at transport (S fuel') depth' n q st' = Some (Ret r, st').
Proof.
  intros H NA. apply (proj1 (R3_result_is_cached fuel)) in H; [|done].
  by apply R3_lookup_hit.
Qed.

End Resolve3Idempotence.

(** ** Two calls in a row *)

(** C6 (as amended).  When the request is for CNAME, or the name has
    no CNAME entry in the record cache once the first call has
    returned, a second call of [lookup] for the same pair returns the
    same message and leaves the state, transport log included, as the
    first call left it.  Both variants. *)
Theorem C6_idempotent_without_alias :
  (∀ transport fuel fuel' target_name qtype st r st',
     Resolve.lookup transport fuel target_name qtype st = Some (Ret r, st') →
     qtype = CNAME ∨ Resolve.row st' target_name ≫= (λ x, x !! CNAME) = None →
     Resolve.lookup transport (S fuel') target_name qtype st' = Some (Ret r, st'))
  ∧ (∀ transport fuel fuel' target_name qtype st r st',
     Resolve3.lookup transport fuel target_name qtype st = Some (Ret r, st') →
     qtype = CNAME ∨ Resolve3.row st' target_name ≫= (λ x, x !! CNAME) = None →
     Resolve3.lookup transport (S fuel') target_name qtype st' = Some (Ret r, st')).
Proof.
  split; intros transport fuel fuel' n q st r st' H NA.
  - by eapply R_no_alias_idempotent.
  - by eapply R3_no_alias_idempotent.
Qed.

Lemma C6_idempotent_witness :
  Resolve.lookup Scenario.chain 1 Scenario.example_com A Scenario.chain_final
  = Some (Ret Scenario.final_answer, Scenario.chain_final)
  ∧ Resolve3.lookup Scenario.chain3 1 Scenario.example_com A Scenario.chain_final3
    = Some (Ret Scenario.final_answer, Scenario.chain_final3).
Proof.
  split.
  - apply (proj1 C6_idempotent_without_alias Scenario.chain 20 0
             Scenario.example_com A Resolve.empty_state).
    + exact chain_run.
    + right. vm_compute. reflexivity.
  - apply (proj2 C6_idempotent_without_alias Scenario.chain3 20 0
             Scenario.example_com A Resolve3.empty_state).
    + exact chain_run3.
    + right. vm_compute. reflexivity.
Defined.

(** C6 fails as stated.  In resolve.py, with "www.example.com." cached
    as an alias, the first call chases the alias and returns the empty
    answer of the target, while the additional records of the
    responses have stored an address under "www.example.com." itself;
    the second call returns that address. *)
Lemma C6_counterexample :
  let run1 :=
    Resolve.lookup (Scenario.always Scenario.stray_additional) 40
      Scenario.www_example_com A Scenario.aliased_www in
  let st1 := default Resolve.empty_state (final_state run1) in
  let run2 :=
    Resolve.lookup (Scenario.always Scenario.stray_additional) 40
      Scenario.www_example_com A st1 in
  returned run1 = Some (Ret empty_message)
  ∧ returned run2 = Some (Ret (mkMessage [Scenario.stray_record] [] []))
  ∧ returned run1 ≠ returned run2.
Proof.
  split; [vm_compute; reflexivity|]. split; [vm_compute; reflexivity|].
  vm_compute. discriminate.
Qed.

(** ** The per-call history of queried servers *)

Section Unseen.

Context {S : Type} (eqb : S → S → bool) (addr : S → option string).
Hypothesis addr_eqb : ∀ x y a, addr x = Some a → addr y = Some a → eqb x y = true.

Lemma unseen_app seen l1 l2 :
  unseen eqb seen (l1 ++ l2) ↔ unseen eqb seen l1 ∧ unseen eqb (seen ++ l1) l2.
Proof.
  revert seen. induction l1 as [|x l1 IH]; intros seen; simpl.
  - rewrite app_nil_r. tauto.
  - rewrite IH, <- app_assoc. simpl. tauto.
Qed.

Lemma unseen_addresses seen l :
  unseen eqb seen l →
  NoDup (omap addr l) ∧ ∀ a, a ∈ omap addr seen → a ∉ omap addr l.
Proof.
  revert seen. induction l as [|x r IH]; intros seen; simpl.
  - intros _. split; [constructor|]. intros a _ H. by apply elem_of_nil in H.
  - intros [Hx Hr]. destruct (IH _ Hr) as [ND Hseen].
    assert (∀ a, a ∈ omap addr seen → a ∈ omap addr (seen ++ [x])) as Hin.
    { intros a H. rewrite omap_app. apply elem_of_app. by left. }
    destruct (addr x) as [a|] eqn:Ea.
    + split.
      * constructor; [|exact ND]. apply Hseen.
        rewrite omap_app. apply elem_of_app. right. simpl. rewrite Ea.
        apply list_elem_of_singleton. reflexivity.
      * intros b Hb Hb'. apply elem_of_cons in Hb' as [->|Hb'].
        -- apply list_elem_of_omap in Hb as (y & Hy & Eb).
           assert (eqb x y = true) as E by (by eapply addr_eqb).
           assert (existsb (eqb x) seen = true) as E'.
           { apply existsb_exists. exists y. split; [by apply list_elem_of_In|done]. }
           congruence.
        -- by apply (Hseen b (Hin b Hb)).
    + split; [exact ND|]. intros b Hb. by apply Hseen, Hin.
Qed.

End Unseen.

Section ResolveDedup.

Variable transport : list Resolve.query → Resolve.server → Name → rdtype → reply.

Lemma R_own_app d l1 l2 : R_own d (l1 ++ l2) = R_own d l1 ++ R_own d l2.
Proof. unfold R_own. by rewrite List.filter_app, map_app. Qed.

Lemma R_own_deeper d l :
  Forall (λ e, S d ≤ Resolve.q_depth e) l → R_own d l = [].
Proof.
  unfold R_own. induction 1 as [|e l He _ IH]; [done|]. simpl.
  destruct (Nat.eqb_spec (Resolve.q_depth e) d); [lia|exact IH].
Qed.

Lemma R_extends_refl d st : R_extends d st st.
Proof. exists []. by rewrite app_nil_r. Qed.

Lemma R_extends_trans d st1 st2 st3 :
  R_extends d st1 st2 → R_extends d st2 st3 → R_extends d st1 st3.
Proof.
  intros (n1 & E1 & F1) (n2 & E2 & F2). exists (n1 ++ n2).
  split; [by rewrite E2, E1, app_assoc|by apply Forall_app].
Qed.

Lemma R_do_dns_query_log depth n q srv wl st :
  Resolve.log (Resolve.do_dns_query transport depth n q srv wl st).2
  = Resolve.log st ++ [Resolve.mkQuery depth srv n q].
Proof.
  unfold Resolve.do_dns_query.
  destruct (transport _ _ _ _) as [response|e]; [|done].
  by destruct (Resolve.record_authority _ _ _) as [[eo wl'] auth].
Qed.

Lemma R_frame_ok_deeper d queried st st' :
  R_extends (S d) st st' → R_frame_ok d queried st st'.
Proof.
  intros (new & E & F). exists new. split; [done|]. split.
  - eapply Forall_impl; [|exact F]. simpl. lia.
  - by rewrite R_own_deeper.
Qed.

Lemma R_frame_ok_extends d queried st st' :
  R_frame_ok d queried st st' → R_extends d st st'.
Proof. intros (new & E & F & _). by exists new. Qed.

Lemma R_frame_ok_step d queried st st1 st' :
  R_extends (S d) st st1 → R_frame_ok d queried st1 st' →
  R_frame_ok d queried st st'.
Proof.
  intros (n1 & E1 & F1) (n2 & E2 & F2 & U). exists (n1 ++ n2).
  split; [by rewrite E2, E1, app_assoc|]. split.
  - apply Forall_app. split; [|done]. eapply Forall_impl; [|exact F1]. simpl. lia.
  - by rewrite R_own_app, R_own_deeper.
Qed.

Lemma R_frame_ok_query d n q srv wl queried st st' :
  existsb (Resolve.server_eqb srv) queried = false →
  R_frame_ok d (queried ++ [srv])
    (Resolve.do_dns_query transport d n q srv wl st).2 st' →
  R_frame_ok d queried st st'.
Proof.
  intros Q (n2 & E2 & F2 & U).
  exists (Resolve.mkQuery d srv n q :: n2).
  rewrite R_do_dns_query_log in E2. split; [by rewrite E2, <- app_assoc|].
  split; [by constructor|].
  unfold R_own. simpl. rewrite Nat.eqb_refl. simpl. by split.
Qed.

Lemma R_frame_ok_refl d queried st : R_frame_ok d queried st st.
Proof. apply R_frame_ok_deeper, R_extends_refl. Qed.

Lemma R_lookup_loop_frame fuel :
  ∀ depth n q wl queried st res st',
    Resolve.lookup_loop transport fuel depth n q wl queried st = Some (res, st') →
    R_frame_ok depth queried st st'.
Proof.
  induction fuel as [|fuel IH]; intros depth n q wl queried st res st' H; [done|].
  rewrite R_loop_S in H.
  assert (∀ n q st res st',
            Resolve.lookup_at transport fuel (S depth) n q st = Some (res, st') →
            R_extends (S depth) st st') as Hl.
  { intros ????? L. eapply R_frame_ok_extends, IH, L. }
  assert (∀ al s, R_extends (S depth) s (Resolve.set_active al s)) as Ha.
  { intros ??. exists []. split; [simpl; by rewrite app_nil_r|done]. }
  unfold Resolve.loop_body in H.
  destruct (pop wl) as [[rest e]|].
  2:{ injection H as <- <-. apply R_frame_ok_deeper. exists []. by rewrite app_nil_r. }
  destruct (Resolve.cache_check st n q) as [c|c|].
  - injection H as <- <-. apply R_frame_ok_refl.
  - destruct (Resolve.chase _ _ _ _ _) as [[r st1]|] eqn:E; [|done].
    injection H as <- <-. apply R_frame_ok_deeper.
    eapply (R_chase_R (R_extends (S depth))); [..|exact E];
      first [ exact Hl | exact Ha | apply R_extends_trans ].
  - destruct (Resolve.select_server _ _ _) as [[[[srv|]|ex] st1]|] eqn:E; [| | |done].
    all: assert (R_extends (S depth) st st1) as X
      by (eapply (R_select_server_R (R_extends (S depth))); [..|exact E];
          first [ exact Hl | exact Ha | apply R_extends_trans | apply R_extends_refl ]).
    + destruct (existsb _ queried) eqn:Q.
      { eapply R_frame_ok_step; [exact X|]. by eapply IH. }
      eapply R_frame_ok_step; [exact X|].
      eapply (R_frame_ok_query depth n q srv rest); [exact Q|].
      destruct (Resolve.do_dns_query _ _ _ _ _ _ _) as [[[ex|] wl'] st2]; simpl.
      * injection H as <- <-. apply R_frame_ok_refl.
      * by eapply IH.
    + eapply R_frame_ok_step; [exact X|]. by eapply IH.
    + injection H as <- <-. by apply R_frame_ok_deeper.
Qed.

Lemma R_address_eqb x y a :
  R_address x = Some a → R_address y = Some a → Resolve.server_eqb x y = true.
Proof.
  destruct x, y; try discriminate. simpl. intros [= ->] [= ->]. apply String.eqb_refl.
Qed.

End ResolveDedup.

Section Resolve3Dedup.

Variable transport : list Resolve3.query → Resolve3.server → Name → rdtype → reply.

Lemma R3_own_app d l1 l2 : R3_own d (l1 ++ l2) = R3_own d l1 ++ R3_own d l2.
Proof. unfold R3_own. by rewrite List.filter_app, map_app. Qed.

Lemma R3_own_deeper d l :
  Forall (λ e, S d ≤ Resolve3.q_depth e) l → R3_own d l = [].
Proof.
  unfold R3_own. induction 1 as [|e l He _ IH]; [done|]. simpl.
  destruct (Nat.eqb_spec (Resolve3.q_depth e) d); [lia|exact IH].
Qed.

Lemma R3_extends_refl d st : R3_extends d st st.
Proof. exists []. by rewrite app_nil_r. Qed.

Lemma R3_extends_trans d st1 st2 st3 :
  R3_extends d st1 st2 → R3_extends d st2 st3 → R3_extends d st1 st3.
Proof.
  intros (n1 & E1 & F1) (n2 & E2 & F2). exists (n1 ++ n2).
  split; [by rewrite E2, E1, app_assoc|by apply Forall_app].
Qed.

Lemma R3_extends_same_log d st st' :
  Resolve3.log st' = Resolve3.log st → R3_extends d st st'.
Proof. intros E. exists []. by rewrite app_nil_r. Qed.

Lemma R3_frame_ok_deeper d queried st st' :
  R3_extends (S d) st st' → R3_frame_ok d queried st st'.
Proof.
  intros (new & E & F). exists new. split; [done|]. split.
  - eapply Forall_impl; [|exact F]. simpl. lia.
  - by rewrite R3_own_deeper.
Qed.

Lemma R3_frame_ok_extends d queried st st' :
  R3_frame_ok d queried st st' → R3_extends d st st'.
Proof. intros (new & E & F & _). by exists new. Qed.

Lemma R3_frame_ok_step d queried st st1 st' :
  R3_extends (S d) st st1 → R3_frame_ok d queried st1 st' →
  R3_frame_ok d queried st st'.
Proof.
  intros (n1 & E1 & F1) (n2 & E2 & F2 & U). exists (n1 ++ n2).
  split; [by rewrite E2, E1, app_assoc|]. split.
  - apply Forall_app. split; [|done]. eapply Forall_impl; [|exact F1]. simpl. lia.
  - by rewrite R3_own_app, R3_own_deeper.
Qed.

Lemma R3_frame_ok_query d n q srv queried st st' :
  existsb (Resolve3.server_eqb srv) queried = false →
  R3_frame_ok d (queried ++ [srv])
    (Resolve3.set_log (Resolve3.log st ++ [Resolve3.mkQuery d srv n q]) st) st' →
  R3_frame_ok d queried st st'.
Proof.
  intros Q (n2 & E2 & F2 & U).
  exists (Resolve3.mkQuery d srv n q :: n2).
  simpl in E2. split; [by rewrite E2, <- app_assoc|].
  split; [by constructor|].
  unfold R3_own. simpl. rewrite Nat.eqb_refl. simpl. by split.
Qed.

Lemma R3_handle_response_queried lookup n q response rest queried st wl' qd' st' :
  Resolve3.handle_response lookup n q response rest queried st
  = Some (Resolve3.Next wl' qd' st') → qd' = queried.
Proof.
  unfold Resolve3.handle_response. intros H.
  repeat case_match; simplify_eq; done.
Qed.

Lemma R3_handle_response_extends lookup d n q response rest queried st :
  (∀ n q st res st', lookup n q st = Some (res, st') → R3_extends d st st') →
  match Resolve3.handle_response lookup n q response rest queried st with
  | Some (Resolve3.Done _ st') => R3_extends d st st'
  | Some (Resolve3.Next _ _ st') => R3_extends d st st'
  | None => True
  end.
Proof.
  intros Hl. apply (R3_handle_response_R (R3_extends d));
    first [ exact Hl
          | apply R3_extends_refl
          | apply R3_extends_trans
          | by intros; apply R3_extends_same_log ].
Qed.

Lemma R3_select_server_extends lookup d t e st res st' :
  (∀ n q st res st', lookup n q st = Some (res, st') → R3_extends d st st') →
  Resolve3.select_server lookup t e st = Some (res, st') → R3_extends d st st'.
Proof.
  intros Hl. apply (R3_select_server_R (R3_extends d));
    first [ exact Hl
          | apply R3_extends_refl
          | apply R3_extends_trans
          | by intros; apply R3_extends_same_log ].
Qed.

Lemma R3_lookup_frame fuel :
  (∀ depth n q st res st',
     Resolve3.lookup_at transport fuel depth n q st = Some (res, st') →
     R3_frame_ok depth [] st st')
  ∧ (∀ depth n q wl queried st res st',
     Resolve3.lookup_loop transport fuel depth n q wl queried st = Some (res, st') →
     R3_frame_ok depth queried st st').
Proof.
  induction fuel as [|fuel [IHa IHl]]; [by split|]. split.
  - intros depth n q st res st' H. cbn [Resolve3.lookup_at] in H.
    destruct (Resolve3.cache_check st n q) as [m|m|].
    + injection H as <- <-. apply R3_frame_ok_deeper, R3_extends_refl.
    + destruct (Resolve3.first_target m) as [t|ex].
      * eapply R3_frame_ok_deeper, R3_frame_ok_extends, IHa, H.
      * injection H as <- <-. apply R3_frame_ok_deeper, R3_extends_refl.
    + by eapply IHl.
  - intros depth n q wl queried st res st' H. rewrite R3_loop_S in H.
    assert (∀ n q st res st',
              Resolve3.lookup_at transport fuel (S depth) n q st = Some (res, st') →
              R3_extends (S depth) st st') as Hl.
    { intros ????? L. eapply R3_frame_ok_extends, IHa, L. }
    unfold Resolve3.loop_body in H.
    destruct (pop wl) as [[rest e]|].
    2:{ injection H as <- <-. by apply R3_frame_ok_deeper, R3_extends_same_log. }
    destruct (Resolve3.select_server _ _ _ _) as [[[[srv|]|ex] st1]|] eqn:E;
      [| | |done].
    all: pose proof (R3_select_server_extends _ _ _ _ _ _ _ Hl E) as X.
    + destruct (existsb _ queried) eqn:Q.
      { eapply R3_frame_ok_step; [exact X|]. by eapply IHl. }
      eapply R3_frame_ok_step; [exact X|].
      eapply (R3_frame_ok_query depth n q srv); [exact Q|].
      destruct (transport _ _ _ _) as [response|ex]; [|by eapply IHl].
      pose proof (R3_handle_response_extends
                    (Resolve3.lookup_at transport fuel (S depth)) (S depth)
                    n q response rest (queried ++ [srv])
                    (Resolve3.set_log
                       (Resolve3.log st1 ++ [Resolve3.mkQuery depth srv n q]) st1)
                    Hl) as Z.
      destruct (Resolve3.handle_response _ _ _ _ _ _ _) as [[r st2|wl' qd' st2]|] eqn:HR;
        [| |done].
      * injection H as <- <-. by apply R3_frame_ok_deeper.
      * apply R3_handle_response_queried in HR as ->.
        eapply R3_frame_ok_step; [exact Z|]. by eapply IHl.
    + eapply R3_frame_ok_step; [exact X|]. by eapply IHl.
    + injection H as <- <-. by apply R3_frame_ok_deeper.
Qed.

Lemma R3_address_eqb x y a :
  R3_address x = Some a → R3_address y = Some a → Resolve3.server_eqb x y = true.
Proof.
  destruct x, y; try discriminate. simpl. intros [= ->] [= ->]. apply String.eqb_refl.
Qed.

End Resolve3Dedup.

(** C7 (as amended).  The transport calls that one [lookup] frame
    issues itself go to pairwise different servers: each is compared
    with the frame's [queried_servers] before the call and appended
    to it, so no literal address occurs twice among them.  The
    history belongs to the frame: a nested [lookup], started for a
    nameserver name or an alias target, begins with an empty
    [queried_servers] of its own, and the statement says nothing on
    an address that two frames of one call both query.  Both
    variants. *)
Theorem C7_no_server_queried_twice :
  (∀ transport fuel depth target_name qtype st res st',
     Resolve.lookup_at transport fuel depth target_name qtype st = Some (res, st') →
     ∃ new,
       Resolve.log st' = Resolve.log st ++ new
       ∧ unseen Resolve.server_eqb [] (R_own depth new)
       ∧ NoDup (omap R_address (R_own depth new)))
  ∧ (∀ transport fuel depth target_name qtype st res st',
     Resolve3.lookup_at transport fuel depth target_name qtype st = Some (res, st') →
     ∃ new,
       Resolve3.log st' = Resolve3.log st ++ new
       ∧ unseen Resolve3.server_eqb [] (R3_own depth new)
       ∧ NoDup (omap R3_address (R3_own depth new))).
Proof.
  split; intros transport fuel depth n q st res st' H.
  - apply R_lookup_loop_frame in H as (new & E & _ & U).
    exists new. split; [done|]. split; [done|].
    by apply (unseen_addresses Resolve.server_eqb R_address R_address_eqb [] _ U).
  - apply (proj1 (R3_lookup_frame transport fuel)) in H as (new & E & _ & U).
    exists new. split; [done|]. split; [done|].
    by apply (unseen_addresses Resolve3.server_eqb R3_address R3_address_eqb [] _ U).
Qed.

Lemma C7_no_server_queried_twice_witness :
  (∃ new,
     Resolve.log Scenario.chain_final = Resolve.log Resolve.empty_state ++ new
     ∧ unseen Resolve.server_eqb [] (R_own 0 new)
     ∧ NoDup (omap R_address (R_own 0 new)))
  ∧ (∃ new,
     Resolve3.log Scenario.chain_final3 = Resolve3.log Resolve3.empty_state ++ new
     ∧ unseen Resolve3.server_eqb [] (R3_own 0 new)
     ∧ NoDup (omap R3_address (R3_own 0 new))).
Proof.
  split.
  - exact (proj1 C7_no_server_queried_twice Scenario.chain 20 0
             Scenario.example_com A Resolve.empty_state (Ret Scenario.final_answer)
             Scenario.chain_final chain_run_at).
  - exact (proj2 C7_no_server_queried_twice Scenario.chain3 20 0
             Scenario.example_com A Resolve3.empty_state (Ret Scenario.final_answer)
             Scenario.chain_final3 chain_run3_at).
Defined.

(** C7 fails as stated.  On a referral without glue, one call
    [lookup(host.x.test., A)] returns the empty answer after 26
    transport calls, two of them to the root server 202.12.27.33:
    the outer frame asks it about the host, and the nested lookup of
    the nameserver "ns.other.test.", which starts with an empty
    history of its own, asks it again.  The addresses of the whole
    call are not free of duplicates.  Both variants. *)
Lemma C7_counterexample :
  let run := Resolve.lookup Scenario.glueless 40 Scenario.host_x A Resolve.empty_state in
  let l := Resolve.log (default Resolve.empty_state (final_state run)) in
  let run3 :=
    Resolve3.lookup Scenario.glueless3 40 Scenario.host_x A Resolve3.empty_state in
  let l3 := Resolve3.log (default Resolve3.empty_state (final_state run3)) in
  (returned run = Some (Ret empty_message)
   ∧ length l = 26
   ∧ map (λ e, (Resolve.q_depth e, Resolve.q_name e))
       (List.filter
          (λ e, Resolve.server_eqb (Resolve.q_server e) (Resolve.SvAddr "202.12.27.33")) l)
     = [(0, Scenario.host_x); (1, Scenario.ns_other)]
   ∧ ¬ NoDup (omap R_address (map Resolve.q_server l)))
  ∧ (returned run3 = Some (Ret empty_message)
     ∧ length l3 = 26
     ∧ map (λ e, (Resolve3.q_depth e, Resolve3.q_name e))
         (List.filter
            (λ e, Resolve3.server_eqb (Resolve3.q_server e)
                    (Resolve3.SvAddr "202.12.27.33")) l3)
       = [(0, Scenario.host_x); (1, Scenario.ns_other)]
     ∧ ¬ NoDup (omap R3_address (map Resolve3.q_server l3))).
Proof.
  cbv zeta. repeat split;
    first [ refine (proj1 (bool_decide_eq_false _) _); vm_compute; reflexivity
          | vm_compute; reflexivity ].
Qed.

(** Across frames an address can recur: on the self-referential zone
    resolve3.py asks the same root server at depth 0 (for the host)
    and at depth 1 (for the nameserver). *)
Lemma nested_frames_ask_the_same_server :
  (λ st, map (λ x, (Resolve3.q_depth x, Resolve3.q_server x))
           (firstn 2 (Resolve3.log st))) <$>
    final_state (Resolve3.lookup (Scenario.always3 Scenario.self_referral) 60
                   Scenario.host_x A Resolve3.empty_state)
  = Some [(0, Resolve3.SvAddr "202.12.27.33"); (1, Resolve3.SvAddr "202.12.27.33")].
Proof. vm_compute. reflexivity. Qed.

(** * Further properties of the code *)

(** ** The seeding of the worklist *)

Lemma seed_domains_short ls : length ls ≤ 2 → seed_domains ls = [].
Proof.
  intros H. unfold seed_domains. by replace (length ls - 2) with 0 by lia.
Qed.

Lemma ancestor_zones_elem ls z :
  z ∈ ancestor_zones ls ↔ ∃ pre, pre ≠ [] ∧ ls = pre ++ z ∧ 2 ≤ length z.
Proof.
  induction ls as [|x r IH]; cbn [ancestor_zones].
  - split; [by intros ?%elem_of_nil|]. intros (pre & H & E & _).
    by destruct pre.
  - destruct (Nat.leb_spec 2 (length r)) as [L|L].
    + rewrite elem_of_cons, IH. split.
      * intros [->|(pre & H & -> & Lz)]; [by exists [x]|].
        by exists (x :: pre).
      * intros (pre & H & E & Lz). destruct pre as [|p [|p' ps]]; [done| |].
        -- left. by injection E.
        -- right. injection E as -> ->. by exists (p' :: ps).
    + split; [by intros ?%elem_of_nil|]. intros (pre & H & E & Lz).
      destruct pre as [|p ps]; [done|]. injection E as -> ->.
      rewrite length_app in L. lia.
Qed.

Lemma flat_map_agree {X Y} (f g : X → list Y) l :
  (∀ x, x ∈ l → f x = g x) → flat_map f l = flat_map g l.
Proof.
  induction l as [|x l IH]; intros H; [done|]. simpl.
  rewrite (H x), IH; [done| |]; [|by left]. intros y Hy. apply H. by right.
Qed.

(** X1.  A name of at most two labels (the root, or a top-level domain
    such as "com.") has no ancestor zone that the seeding would look
    at: whatever the caches hold, the worklist starts from the
    thirteen root servers.  Both variants. *)
Theorem X1_short_names_start_at_the_roots :
  ∀ target_name,
    length (labels target_name) ≤ 2 →
    (∀ st, Resolve.load_initial_servers_to_query st target_name
           = map (λ s, (A, Resolve.SvAddr s)) ROOT_SERVERS)
    ∧ (∀ st, Resolve3.seed st target_name
             = map (λ s, (A, Resolve3.SvAddr s)) ROOT_SERVERS).
Proof.
  intros n H. split; intros st.
  - unfold Resolve.load_initial_servers_to_query. by rewrite seed_domains_short.
  - unfold Resolve3.seed. by rewrite seed_domains_short.
Qed.

Lemma X1_short_names_witness :
  Resolve.load_initial_servers_to_query Scenario.two_levels Scenario.com
  = map (λ s, (A, Resolve.SvAddr s)) ROOT_SERVERS.
Proof.
  apply (proj1 (X1_short_names_start_at_the_roots Scenario.com
                  ltac:(vm_compute; lia))).
Defined.

(** X2.  The seeding reads the two caches only under proper suffixes
    of the name that keep at least two labels.  So an entry stored
    under the name itself (its own answers, its negative marker) or
    under the root never changes the worklist a lookup starts from.
    Both variants. *)
Theorem X2_seeding_reads_proper_ancestors_only :
  ∀ target_name,
    (∀ z, z ∈ seed_domains (labels target_name)
          ↔ ∃ pre, pre ≠ [] ∧ labels target_name = pre ++ z ∧ 2 ≤ length z)
    ∧ (∀ st st' : Resolve.state,
         (∀ z, z ∈ seed_domains (labels target_name) →
               Resolve.authority_cache st !! KLabels z
               = Resolve.authority_cache st' !! KLabels z
               ∧ Resolve.answer_cache st !! KLabels z
                 = Resolve.answer_cache st' !! KLabels z) →
         Resolve.load_initial_servers_to_query st target_name
         = Resolve.load_initial_servers_to_query st' target_name)
    ∧ (∀ st st' : Resolve3.state,
         (∀ z, z ∈ seed_domains (labels target_name) →
               Resolve3.authority_cache st !! KLabels z
               = Resolve3.authority_cache st' !! KLabels z
               ∧ Resolve3.answer_cache st !! KLabels z
                 = Resolve3.answer_cache st' !! KLabels z) →
         Resolve3.seed st target_name = Resolve3.seed st' target_name)
    ∧ (∀ st qtype,
         Resolve.load_initial_servers_to_query
           (Resolve.exhausted target_name qtype st) target_name
         = Resolve.load_initial_servers_to_query st target_name).
Proof.
  intros n.
  assert (∀ z, z ∈ seed_domains (labels n)
               ↔ ∃ pre, pre ≠ [] ∧ labels n = pre ++ z ∧ 2 ≤ length z) as M.
  { intros z. rewrite seed_domains_far_to_near, <- ancestor_zones_elem.
    rewrite !list_elem_of_In. symmetry. apply in_rev. }
  assert (∀ st st' : Resolve.state,
            (∀ z, z ∈ seed_domains (labels n) →
                  Resolve.authority_cache st !! KLabels z
                  = Resolve.authority_cache st' !! KLabels z
                  ∧ Resolve.answer_cache st !! KLabels z
                    = Resolve.answer_cache st' !! KLabels z) →
            Resolve.load_initial_servers_to_query st n
            = Resolve.load_initial_servers_to_query st' n) as F.
  { intros st st' H. unfold Resolve.load_initial_servers_to_query.
    rewrite (flat_map_agree (Resolve.candidates_at st) (Resolve.candidates_at st'));
      [done|].
    intros z Hz. destruct (H z Hz) as [E1 E2].
    unfold Resolve.candidates_at. by rewrite E1, E2. }
  split; [exact M|]. split; [exact F|]. split.
  - intros st st' H. unfold Resolve3.seed.
    rewrite (flat_map_agree (Resolve3.candidates_at st) (Resolve3.candidates_at st'));
      [done|].
    intros z Hz. destruct (H z Hz) as [E1 E2].
    unfold Resolve3.candidates_at. by rewrite E1, E2.
  - intros st q. apply F. intros z Hz. split; [done|].
    apply M in Hz as (pre & Hp & E & _).
    unfold Resolve.exhausted, Resolve.put. simpl.
    rewrite lookup_insert_ne; [done|]. intros [= Hl]. rewrite Hl in E.
    apply (f_equal length) in E. rewrite length_app in E.
    destruct pre; [done|]. simpl in E. lia.
Qed.

Lemma X2_seeding_witness :
  Resolve.load_initial_servers_to_query
    (Resolve.exhausted Scenario.www_example_com A Scenario.two_levels)
    Scenario.www_example_com
  = Resolve.load_initial_servers_to_query Scenario.two_levels Scenario.www_example_com.
Proof.
  apply (proj1 (proj2 (X2_seeding_reads_proper_ancestors_only
                         Scenario.www_example_com))).
  intros z Hz. split; [reflexivity|].
  apply (proj1 (X2_seeding_reads_proper_ancestors_only Scenario.www_example_com))
    in Hz as (pre & Hp & E & _).
  unfold Resolve.exhausted, Resolve.put. simpl.
  rewrite lookup_insert_ne; [done|]. intros [= Hl]. simpl in E. rewrite Hl in E.
  apply (f_equal length) in E. rewrite length_app in E.
  destruct pre; [done|]. simpl in E. lia.
Defined.

(** ** Answers read from the record cache *)

(** X3.  An entry for the exact pair is returned at once: as the only
    record set of the answer (resolve.py; the empty answer when the
    entry is empty) or as the cached message (resolve3.py), without
    any change of the state, hence without a transport call. *)
Theorem X3_exact_cache_hit :
  (∀ transport fuel depth target_name qtype c st,
     Resolve.row st target_name ≫= (λ r, r !! qtype) = Some c →
     Resolve.lookup_at transport (S fuel) depth target_name qtype st
     = Some (Ret (Resolve.response_of c), st))
  ∧ (∀ transport fuel depth target_name qtype m st,
     Resolve3.row st target_name ≫= (λ r, r !! qtype) = Some m →
     Resolve3.lookup_at transport (S fuel) depth target_name qtype st
     = Some (Ret m, st)).
Proof.
  split; intros transport fuel depth n q c st H.
  - by apply R_lookup_hit, R_row_Hit.
  - by apply R3_lookup_hit, R3_row_Hit.
Qed.

Lemma X3_exact_cache_hit_witness :
  Resolve.lookup_at Scenario.chain 1 0 Scenario.example_com A Scenario.chain_final
  = Some (Ret (Resolve.response_of
                 (Resolve.Pos (mkRRset Scenario.example_com A [RdAddr "93.184.216.34"]))),
          Scenario.chain_final).
Proof.
  apply (proj1 X3_exact_cache_hit). vm_compute. reflexivity.
Defined.

Section ResolveAliasChain.

Variable transport : list Resolve.query → Resolve.server → Name → rdtype → reply.

Lemma R_cached_result_active k al st n q :
  R_cached_result k (Resolve.set_active al st) n q = R_cached_result k st n q.
Proof.
  revert n. induction k as [|k IH]; intros n; cbn [R_cached_result];
    change (Resolve.cache_check (Resolve.set_active al st) n q)
      with (Resolve.cache_check st n q);
    destruct (Resolve.cache_check st n q) as [c|c|]; try done.
  destruct (Resolve.first_item c ≫= rd_target); [apply IH|done].
Qed.

Lemma R_alias_chain_from_cache k :
  ∀ fuel depth n q st r,
    R_cached_result k st n q = Some r →
    ∃ st', Resolve.lookup_at transport (S k + fuel) depth n q st = Some (Ret r, st')
           ∧ R_same_caches st st'.
Proof.
  induction k as [|k IH]; intros fuel depth n q st r H.
  - simpl in H. destruct (Resolve.cache_check st n q) as [c|c|] eqn:C; [|done..].
    injection H as <-. exists st. split; [by apply R_lookup_hit|].
    by repeat split.
  - cbn [R_cached_result] in H.
    destruct (Resolve.cache_check st n q) as [c|c|] eqn:C; [| |done].
    { injection H as <-. exists st. split; [by apply R_lookup_hit|].
      by repeat split. }
    destruct (Resolve.first_item c ≫= rd_target) as [t|] eqn:T; [|done].
    rewrite <- (R_cached_result_active k
                  (active_add n (Resolve.active_lookups st))) in H.
    destruct (IH fuel (S depth) t q _ r H) as (st2 & L & E1 & E2 & E3 & E4).
    exists (Resolve.set_active (active_discard n (Resolve.active_lookups st2)) st2).
    split.
    + unfold Resolve.lookup_at. change (S (S k) + fuel) with (S (S k + fuel)).
      rewrite R_loop_S. destruct (R_seed_nonempty st n) as (rest & e & P).
      unfold Resolve.loop_body. rewrite P, C. unfold Resolve.chase. rewrite T.
      by rewrite L.
    + split; [exact E1|]. split; [exact E2|]. split; [exact E3|].
      simpl in E4 |- *. unfold active_discard, active_add in *.
      intros x Hx. apply elem_of_difference in Hx as [Hx Hn].
      apply E4, elem_of_union in Hx as [Hx|Hx]; done.
Qed.

End ResolveAliasChain.

Section Resolve3AliasChain.

Variable transport : list Resolve3.query → Resolve3.server → Name → rdtype → reply.

Lemma R3_alias_chain_from_cache k :
  ∀ fuel depth n q st r,
    R3_cached_result k st n q = Some r →
    Resolve3.lookup_at transport (S k + fuel) depth n q st = Some (Ret r, st).
Proof.
  induction k as [|k IH]; intros fuel depth n q st r H.
  - simpl in H. destruct (Resolve3.cache_check st n q) as [m|m|] eqn:C; [|done..].
    injection H as <-. by apply R3_lookup_hit.
  - cbn [R3_cached_result] in H.
    destruct (Resolve3.cache_check st n q) as [m|m|] eqn:C; [| |done].
    { injection H as <-. by apply R3_lookup_hit. }
    destruct (Resolve3.first_target m) as [t|ex] eqn:T; [|done].
    change (S (S k) + fuel) with (S (S k + fuel)). cbn [Resolve3.lookup_at].
    rewrite C, T. by apply IH.
Qed.

End Resolve3AliasChain.

(** X4.  When the record cache holds the aliases that lead from the
    name to a name with an entry of the requested type, [lookup]
    follows them and returns that entry without a transport call: the
    caches and the transport log are as before, and no name is left
    in [active_lookups].  Both variants, for a chain of any length. *)
Theorem X4_alias_chain_answered_from_cache :
  (∀ transport k fuel depth target_name qtype st r,
     R_cached_result k st target_name qtype = Some r →
     ∃ st',
       Resolve.lookup_at transport (S k + fuel) depth target_name qtype st
       = Some (Ret r, st')
       ∧ R_same_caches st st')
  ∧ (∀ transport k fuel depth target_name qtype st r,
     R3_cached_result k st target_name qtype = Some r →
     Resolve3.lookup_at transport (S k + fuel) depth target_name qtype st
     = Some (Ret r, st)).
Proof.
  split; intros.
  - by apply R_alias_chain_from_cache.
  - by apply R3_alias_chain_from_cache.
Qed.

Lemma X4_alias_chain_witness :
  (∃ st',
     Resolve.lookup_at (Scenario.failing DnsTimeout) 2 0
       Scenario.www_example_com A Scenario.alias_cached
     = Some (Ret (mkMessage [Scenario.address_record] [] []), st')
     ∧ R_same_caches Scenario.alias_cached st')
  ∧ Resolve3.lookup_at (Scenario.failing3 DnsTimeout) 2 0
      Scenario.www_example_com A Scenario.alias_cached3
    = Some (Ret (mkMessage [Scenario.address_record] [] []), Scenario.alias_cached3).
Proof.
  split.
  - apply (proj1 X4_alias_chain_answered_from_cache _ 1 0). vm_compute. reflexivity.
  - apply (proj2 X4_alias_chain_answered_from_cache _ 1 0). vm_compute. reflexivity.
Defined.

(** ** Referrals in resolve.py *)

Lemma R_record_ns_targets_all zone ts :
  ∀ wl auth l,
    auth !! zone = Some l →
    Resolve.record_ns_targets zone (map RdTarget ts) wl auth
    = (None, wl ++ map (λ t, (CNAME, Resolve.SvName t)) ts,
       <[zone := l ++ ts]> auth).
Proof.
  induction ts as [|t ts IH]; intros wl auth l H; simpl.
  - by rewrite !app_nil_r, insert_id.
  - rewrite H. simpl. rewrite (IH _ _ (l ++ [t])) by apply lookup_insert_eq.
    by rewrite insert_insert_eq, <- !app_assoc.
Qed.

(** X5.  A referral for a zone replaces what [authority_cache] held
    for that zone: after an NS record set with targets [ts], the
    zone's list is exactly [ts], and the targets are pushed on the
    worklist in their order, to be resolved by name.  Record sets of
    another type, and empty ones, are passed over. *)
Theorem X5_referral_replaces_zone_list :
  (∀ zone ts rest wl auth,
     ts ≠ [] →
     Resolve.record_authority (mkRRset zone NS (map RdTarget ts) :: rest) wl auth
     = Resolve.record_authority rest
         (wl ++ map (λ t, (CNAME, Resolve.SvName t)) ts)
         (<[KLabels (labels zone) := ts]> auth))
  ∧ (∀ rr rest wl auth,
     rr_type rr ≠ NS ∨ items rr = [] →
     Resolve.record_authority (rr :: rest) wl auth
     = Resolve.record_authority rest wl auth).
Proof.
  split.
  - intros zone ts rest wl auth H. cbn [Resolve.record_authority rr_type items rr_name].
    change (N.eqb NS NS) with true. rewrite length_map.
    destruct ts as [|t ts]; [done|]. cbn [length Nat.ltb Nat.leb andb].
    rewrite (R_record_ns_targets_all _ (t :: ts) _ _ []) by apply lookup_insert_eq.
    by rewrite insert_insert_eq.
  - intros rr rest wl auth H. cbn [Resolve.record_authority].
    destruct H as [H|H].
    + by rewrite (proj2 (N.eqb_neq _ _) H).
    + rewrite H. simpl. by rewrite andb_false_r.
Qed.

Lemma X5_referral_witness :
  Resolve.record_authority
    [mkRRset Scenario.com NS (map RdTarget [Scenario.a_gtld; Scenario.ns1_example_com])]
    [] (<[KLabels (labels Scenario.com) := [Scenario.example_com]]> ∅)
  = Resolve.record_authority []
      ([] ++ map (λ t, (CNAME, Resolve.SvName t))
                 [Scenario.a_gtld; Scenario.ns1_example_com])
      (<[KLabels (labels Scenario.com) := [Scenario.a_gtld; Scenario.ns1_example_com]]>
         (<[KLabels (labels Scenario.com) := [Scenario.example_com]]> ∅))
  ∧ Resolve.record_authority [Scenario.address_record] [] ∅
    = Resolve.record_authority [] [] ∅.
Proof.
  split.
  - by apply (proj1 X5_referral_replaces_zone_list).
  - apply (proj2 X5_referral_replaces_zone_list). left. discriminate.
Defined.

(** ** Which exceptions can leave lookup *)

Section ResolveRaises.

Variable transport : list Resolve.query → Resolve.server → Name → rdtype → reply.

Lemma R_uncaught_idem x e : Resolve.uncaught x = Some e → Resolve.uncaught e = Some e.
Proof. destruct x; simpl; intros [= <-]; done. Qed.

Lemma R_do_dns_query_raises depth n q srv wl st e wl' st' :
  Resolve.do_dns_query transport depth n q srv wl st = (Some e, wl', st') →
  Resolve.uncaught e = Some e.
Proof.
  unfold Resolve.do_dns_query.
  destruct (transport _ _ _ _) as [response|x].
  - destruct (Resolve.record_authority _ _ _) as [[[x|] wl1] auth]; simpl; [|done].
    intros [= H _ _]. by eapply R_uncaught_idem.
  - intros [= H _ _]. by eapply R_uncaught_idem.
Qed.

Section Nested.

Variable lookup : Name → rdtype → Resolve.state → option (result message * Resolve.state).
Hypothesis lookup_raises : ∀ n q st e st',
  lookup n q st = Some (Raise e, st') → Resolve.uncaught e = Some e.

Lemma R_resolve_dns_cname_raises srv st e st' :
  Resolve.resolve_dns_cname lookup srv st = Some (Raise e, st') →
  Resolve.uncaught e = Some e.
Proof.
  unfold Resolve.resolve_dns_cname.
  destruct srv as [a|m|x|rd]; try (by intros [= <- _]).
  destruct (active_mem m _); [done|].
  destruct (_ ≫= _) as [x|].
  { destruct (Resolve.first_item x); [done|by intros [= <- _]]. }
  destruct (lookup m A _) as [[[res|ex] st2]|] eqn:L; [| |done].
  - destruct (answer res) as [|rr ?]; [done|].
    destruct (head (items rr)); [done|by intros [= <- _]].
  - intros [= <- _]. by eapply lookup_raises.
Qed.

Lemma R_select_server_raises c st e st' :
  Resolve.select_server lookup c st = Some (Raise e, st') →
  Resolve.uncaught e = Some e.
Proof.
  unfold Resolve.select_server. destruct (N.eqb (fst c) CNAME); [|done].
  destruct (Resolve.resolve_dns_cname lookup (snd c) st) as [[[srv|ex] st1]|] eqn:E;
    [done| |done].
  intros [= <- _]. by eapply R_resolve_dns_cname_raises.
Qed.

Lemma R_chase_raises n q x st e st' :
  Resolve.chase lookup n q x st = Some (Raise e, st') →
  Resolve.uncaught e = Some e.
Proof.
  unfold Resolve.chase.
  destruct (Resolve.first_item x ≫= rd_target) as [t|]; [|by intros [= <- _]].
  destruct (lookup t q _) as [[[res|ex] st2]|] eqn:L; [done| |done].
  intros [= <- _]. by eapply lookup_raises.
Qed.

End Nested.

Lemma R_lookup_loop_raises fuel :
  ∀ depth n q wl queried st e st',
    Resolve.lookup_loop transport fuel depth n q wl queried st = Some (Raise e, st') →
    Resolve.uncaught e = Some e.
Proof.
  induction fuel as [|fuel IH]; intros depth n q wl queried st e st' H; [done|].
  rewrite R_loop_S in H.
  assert (∀ n q st e st',
            Resolve.lookup_at transport fuel (S depth) n q st = Some (Raise e, st') →
            Resolve.uncaught e = Some e) as Hl.
  { intros ?????. apply IH. }
  destruct (Resolve.loop_body _ _ _ _ _ _ _ _) as [[r st1|wl' queried' st1]|] eqn:B;
    [|by eapply IH|done].
  injection H as -> ->. unfold Resolve.loop_body in B.
  destruct (pop wl) as [[rest c]|]; [|done].
  destruct (Resolve.cache_check st n q) as [x|x|]; [done| |].
  - destruct (Resolve.chase _ _ _ _ _) as [[r st2]|] eqn:E; [|done].
    injection B as -> ->. by eapply R_chase_raises.
  - destruct (Resolve.select_server _ _ _) as [[[[srv|]|ex] st2]|] eqn:E;
      [| |injection B as <- _; by eapply R_select_server_raises|done]; [|done].
    destruct (existsb _ queried); [done|].
    destruct (Resolve.do_dns_query _ _ _ _ _ _ _) as [[[ex|] wl1] st3] eqn:D; [|done].
    injection B as <- _. by eapply R_do_dns_query_raises.
Qed.

End ResolveRaises.

Section Resolve3Raises.

Variable transport : list Resolve3.query → Resolve3.server → Name → rdtype → reply.

Lemma R3_first_target_raises m e :
  Resolve3.first_target m = Raise e → R3_internal e.
Proof.
  unfold Resolve3.first_target, R3_internal.
  destruct (Resolve3.first_rdata m) as [rd|]; [|intros [= <-]; tauto].
  destruct (rd_target rd); [done|]. intros [= <-]. tauto.
Qed.

Lemma R3_scan_additional_raises target adds :
  ∀ wl auth e b wl' auth',
    Resolve3.scan_additional target adds wl auth = (Some e, b, wl', auth') →
    R3_internal e.
Proof.
  induction adds as [|rr adds IH]; intros wl auth e b wl' auth' H; [done|].
  cbn [Resolve3.scan_additional] in H.
  destruct (N.eqb (rr_type rr) A); [|by eapply IH].
  destruct (head (items rr)); [|injection H as <- _ _ _; unfold R3_internal; tauto].
  destruct (name_eqb (rr_name rr) target); [done|]. by eapply IH.
Qed.

Lemma R3_record_ns_targets_raises zone adds rds :
  ∀ wl auth e wl' auth',
    Resolve3.record_ns_targets zone adds rds wl auth = (Some e, wl', auth') →
    R3_internal e.
Proof.
  induction rds as [|rd rds IH]; intros wl auth e wl' auth' H; [done|].
  cbn [Resolve3.record_ns_targets] in H.
  destruct (rd_target rd) as [t|];
    [|injection H as <- _ _; unfold R3_internal; tauto].
  destruct (auth !! zone) as [r|];
    [|injection H as <- _ _; unfold R3_internal; tauto].
  destruct (Resolve3.scan_additional _ _ _ _) as [[[[ex|] b] wl1] auth1] eqn:S.
  - injection H as <- _ _. by eapply R3_scan_additional_raises.
  - destruct b; by eapply IH.
Qed.

Lemma R3_record_authority_raises adds rrs :
  ∀ wl auth e wl' auth',
    Resolve3.record_authority adds rrs wl auth = (Some e, wl', auth') →
    R3_internal e.
Proof.
  induction rrs as [|rr rrs IH]; intros wl auth e wl' auth' H; [done|].
  cbn [Resolve3.record_authority] in H.
  destruct (N.eqb (rr_type rr) NS); [|by eapply IH].
  destruct (Resolve3.record_ns_targets _ _ _ _ _) as [[[ex|] wl1] auth1] eqn:S.
  - injection H as <- _ _. by eapply R3_record_ns_targets_raises.
  - by eapply IH.
Qed.

Section Nested.

Variable lookup : Name → rdtype → Resolve3.state → option (result message * Resolve3.state).
Hypothesis lookup_raises : ∀ n q st e st',
  lookup n q st = Some (Raise e, st') → R3_internal e.

Lemma R3_select_server_raises t c st e st' :
  Resolve3.select_server lookup t c st = Some (Raise e, st') → R3_internal e.
Proof.
  unfold Resolve3.select_server. destruct (N.eqb (fst c) CNAME); [|done].
  destruct (active_mem t _); [done|].
  destruct (snd c) as [a|m|d x];
    try (intros [= <- _]; unfold R3_internal; tauto).
  destruct (bool_decide _); [|done].
  destruct (lookup m A _) as [[[res|ex] st2]|] eqn:L; [| |done].
  - destruct (answer res) as [|rr ?]; [done|].
    destruct (head (items rr)); [done|]. intros [= <- _]. unfold R3_internal. tauto.
  - intros [= <- _]. by eapply lookup_raises.
Qed.

Lemma R3_handle_response_raises n q response rest queried st e st' :
  Resolve3.handle_response lookup n q response rest queried st
  = Some (Resolve3.Done (Raise e) st') →
  R3_internal e.
Proof.
  unfold Resolve3.handle_response.
  destruct (answer response) as [|rr ?].
  - destruct (authority response); [done|].
    destruct (Resolve3.record_authority _ _ _ _) as [[[ex|] wl1] auth1] eqn:S; [|done].
    intros [= <- _]. by eapply R3_record_authority_raises.
  - destruct (N.eqb (rr_type rr) q); [done|].
    destruct (N.eqb (rr_type rr) CNAME); [|done].
    destruct (Resolve3.first_target response) as [t|ex] eqn:T.
    + destruct (lookup t q _) as [[[res|ex] st4]|] eqn:L; [done| |done].
      intros [= <- _]. by eapply lookup_raises.
    + intros [= <- _]. by eapply R3_first_target_raises.
Qed.

End Nested.

Lemma R3_lookup_raises fuel :
  (∀ depth n q st e st',
     Resolve3.lookup_at transport fuel depth n q st = Some (Raise e, st') →
     R3_internal e)
  ∧ (∀ depth n q wl queried st e st',
     Resolve3.lookup_loop transport fuel depth n q wl queried st
     = Some (Raise e, st') →
     R3_internal e).
Proof.
  induction fuel as [|fuel [IHa IHl]]; [by split|]. split.
  - intros depth n q st e st' H. cbn [Resolve3.lookup_at] in H.
    destruct (Resolve3.cache_check st n q) as [m|m|]; [done| |by eapply IHl].
    destruct (Resolve3.first_target m) as [t|ex] eqn:T; [by eapply IHa|].
    injection H as <- _. by eapply R3_first_target_raises.
  - intros depth n q wl queried st e st' H. rewrite R3_loop_S in H.
    assert (∀ n q st e st',
              Resolve3.lookup_at transport fuel (S depth) n q st
              = Some (Raise e, st') → R3_internal e) as Hl.
    { intros ?????. apply IHa. }
    destruct (Resolve3.loop_body _ _ _ _ _ _ _ _) as [[r st1|wl' queried' st1]|] eqn:B;
      [|by eapply IHl|done].
    injection H as -> ->. unfold Resolve3.loop_body in B.
    destruct (pop wl) as [[rest c]|]; [|done].
    destruct (Resolve3.select_server _ _ _ _) as [[[[srv|]|ex] st2]|] eqn:E;
      [| |injection B as <- _; by eapply R3_select_server_raises|done]; [|done].
    destruct (existsb _ queried); [done|].
    destruct (transport _ _ _ _) as [response|ex]; [|done].
    by eapply R3_handle_response_raises.
Qed.

End Resolve3Raises.




(** ** resolve3.py: relations preserved by the authority loop too *)

Section Resolve3Invariant.

Variable transport : list Resolve3.query → Resolve3.server → Name → rdtype → reply.

(** A preorder on states kept by each write that [lookup] does. *)
Variable R : Resolve3.state → Resolve3.state → Prop.
Hypothesis R_refl : ∀ st, R st st.
Hypothesis R_trans : ∀ st1 st2 st3, R st1 st2 → R st2 st3 → R st1 st3.
Hypothesis R_active : ∀ al st, R st (Resolve3.set_active al st).
Hypothesis R_record : ∀ adds rrs wl st,
  R st (Resolve3.set_authority_cache
          (Resolve3.record_authority adds rrs wl (Resolve3.authority_cache st)).2 st).
Hypothesis R_put : ∀ n rr response st,
  head (answer response) = Some rr →
  R st (Resolve3.set_answer_cache
          (Resolve3.put (KLabels (labels n)) (rr_type rr) response
             (Resolve3.answer_cache st)) st).
Hypothesis R_exhausted : ∀ n q st, R st (Resolve3.exhausted n q st).
Hypothesis R_log : ∀ depth srv n q st,
  R st (Resolve3.set_log (Resolve3.log st ++ [Resolve3.mkQuery depth srv n q]) st).

Lemma R3_handle_response_inv lookup n q response rest queried st :
  (∀ n q st res st', lookup n q st = Some (res, st') → R st st') →
  match Resolve3.handle_response lookup n q response rest queried st with
  | Some (Resolve3.Done _ st') => R st st'
  | Some (Resolve3.Next _ _ st') => R st st'
  | None => True
  end.
Proof.
  intros lookup_R. unfold Resolve3.handle_response.
  destruct (answer response) as [|rr ?] eqn:EA.
  - destruct (authority response); [apply R_refl|].
    pose proof (R_record (additional response) (r :: l) rest st) as X.
    by destruct (Resolve3.record_authority _ _ _ _) as [[[ex|] wl] auth].
  - assert (head (answer response) = Some rr) as Hh by by rewrite EA.
    pose proof (R_put n rr response st Hh) as P.
    destruct (N.eqb (rr_type rr) q); [exact P|].
    destruct (N.eqb (rr_type rr) CNAME); [|exact P].
    destruct (Resolve3.first_target response) as [t|ex].
    + destruct (lookup t q _) as [[[res|ex] st4]|] eqn:L; [| |done];
        apply lookup_R in L.
      * eapply R_trans; [exact P|]. eapply R_trans; [apply R_active|].
        eapply R_trans; [exact L|apply R_active].
      * eapply R_trans; [exact P|]. eapply R_trans; [apply R_active|exact L].
    + eapply R_trans; [exact P|apply R_active].
Qed.

Lemma R3_select_server_inv lookup t e st res st' :
  (∀ n q st res st', lookup n q st = Some (res, st') → R st st') →
  Resolve3.select_server lookup t e st = Some (res, st') → R st st'.
Proof.
  intros lookup_R. unfold Resolve3.select_server. intros H.
  destruct (N.eqb (fst e) CNAME); [|injection H as <- <-; apply R_refl].
  destruct (active_mem t _); [injection H as <- <-; apply R_refl|].
  destruct (snd e) as [a|n|d m]; try (injection H as <- <-; apply R_refl).
  destruct (bool_decide _); [|injection H as <- <-; apply R_refl].
  destruct (lookup n A _) as [[[server_ip|ex] st1]|] eqn:L; [| |done].
  - apply lookup_R in L.
    assert (R st (Resolve3.set_active
                    (active_discard t (Resolve3.active_lookups st1)) st1)) as X.
    { eapply R_trans; [apply R_active|]. eapply R_trans; [exact L|apply R_active]. }
    destruct (answer server_ip) as [|rr ?]; [by injection H as <- <-|].
    destruct (head (items rr)); by injection H as <- <-.
  - injection H as <- <-. apply lookup_R in L.
    eapply R_trans; [apply R_active|exact L].
Qed.

Lemma R3_loop_body_inv lookup depth n q wl queried st :
  (∀ n q st res st', lookup n q st = Some (res, st') → R st st') →
  match Resolve3.loop_body transport lookup depth n q wl queried st with
  | Some (Resolve3.Done _ st') => R st st'
  | Some (Resolve3.Next _ _ st') => R st st'
  | None => True
  end.
Proof.
  intros Hl. unfold Resolve3.loop_body.
  destruct (pop wl) as [[rest e]|]; [|apply R_exhausted].
  destruct (Resolve3.select_server lookup n e st) as [[[[srv|]|ex] st1]|] eqn:E;
    [| | |done]; pose proof (R3_select_server_inv lookup _ _ _ _ _ Hl E) as X;
    [|exact X|exact X].
  destruct (existsb _ queried); [exact X|].
  pose proof (R_log depth srv n q st1) as Y.
  destruct (transport _ _ _ _) as [response|ex]; [|by eapply R_trans].
  pose proof (R3_handle_response_inv lookup n q response rest (queried ++ [srv])
                (Resolve3.set_log
                   (Resolve3.log st1 ++ [Resolve3.mkQuery depth srv n q]) st1) Hl) as Z.
  destruct (Resolve3.handle_response _ _ _ _ _ _ _) as [[r st2|wl' qd' st2]|];
    [| |done]; eapply R_trans; [exact X| |exact X|]; by eapply R_trans.
Qed.

Lemma R3_lookup_inv fuel :
  (∀ depth n q st res st',
     Resolve3.lookup_at transport fuel depth n q st = Some (res, st') → R st st')
  ∧ (∀ depth n q wl queried st res st',
     Resolve3.lookup_loop transport fuel depth n q wl queried st = Some (res, st') →
     R st st').
Proof.
  induction fuel as [|fuel [IHa IHl]]; [by split|]. split.
  - intros depth n q st res st' H. cbn [Resolve3.lookup_at] in H.
    destruct (Resolve3.cache_check st n q) as [m|m|].
    + injection H as <- <-. apply R_refl.
    + destruct (Resolve3.first_target m) as [t|ex];
        [by eapply IHa|injection H as <- <-; apply R_refl].
    + by eapply IHl.
  - intros depth n q wl queried st res st' H. rewrite R3_loop_S in H.
    pose proof (R3_loop_body_inv (Resolve3.lookup_at transport fuel (S depth))
                  depth n q wl queried st) as B.
    destruct (Resolve3.loop_body _ _ _ _ _ _ _ _) as [[r st1|wl' queried' st1]|];
      [| |done].
    + injection H as <- <-. apply B. intros ?????. apply IHa.
    + eapply R_trans; [apply B; intros ?????; apply IHa|]. by eapply IHl.
Qed.

End Resolve3Invariant.

(** ** The caches only grow *)

Lemma map_keys_le_refl {V} (m : gmap pykey V) : map_keys_le m m.
Proof. by intros k. Qed.

Lemma map_keys_le_trans {V} (a b c : gmap pykey V) :
  map_keys_le a b → map_keys_le b c → map_keys_le a c.
Proof. intros H1 H2 k H. by apply H2, H1. Qed.

Lemma map_keys_le_insert {V} (m : gmap pykey V) k v : map_keys_le m (<[k := v]> m).
Proof.
  intros k' H. destruct (decide (k = k')) as [<-|Hk].
  - rewrite lookup_insert_eq. by eexists.
  - by rewrite lookup_insert_ne.
Qed.

Lemma map_keys_le_alter {V} (m : gmap pykey V) f k : map_keys_le m (alter f k m).
Proof.
  intros k' H. destruct (decide (k = k')) as [<-|Hk].
  - rewrite lookup_alter_eq. by apply fmap_is_Some.
  - by rewrite lookup_alter_ne.
Qed.

Section ResolveGrowth.

Variable transport : list Resolve.query → Resolve.server → Name → rdtype → reply.

Lemma R_record_ns_targets_keys zone rds :
  ∀ wl auth, map_keys_le auth (Resolve.record_ns_targets zone rds wl auth).2.
Proof.
  induction rds as [|rd rds IH]; intros wl auth; [apply map_keys_le_refl|].
  cbn [Resolve.record_ns_targets]. destruct (rd_target rd); [|apply map_keys_le_refl].
  eapply map_keys_le_trans; [apply map_keys_le_insert|apply IH].
Qed.

Lemma R_record_authority_keys rrs :
  ∀ wl auth, map_keys_le auth (Resolve.record_authority rrs wl auth).2.
Proof.
  induction rrs as [|rr rrs IH]; intros wl auth; [apply map_keys_le_refl|].
  cbn [Resolve.record_authority]. destruct (_ && _); [|apply IH].
  pose proof (R_record_ns_targets_keys (KLabels (labels (rr_name rr))) (items rr) wl
                (<[KLabels (labels (rr_name rr)) := []]> auth)) as H.
  destruct (Resolve.record_ns_targets _ _ _ _) as [[[ex|] wl1] auth1]; simpl in H.
  - eapply map_keys_le_trans; [apply map_keys_le_insert|exact H].
  - eapply map_keys_le_trans; [apply map_keys_le_insert|].
    eapply map_keys_le_trans; [exact H|apply IH].
Qed.

Lemma R_lookup_loop_caches_grow fuel depth n q wl queried st res st' :
  Resolve.lookup_loop transport fuel depth n q wl queried st = Some (res, st') →
  R_caches_grow st st'.
Proof.
  apply (R_lookup_loop_R transport R_caches_grow).
  - intros ?. split; [apply keys_le_refl|apply map_keys_le_refl].
  - intros ??? [A1 A2] [B1 B2].
    split; [by eapply keys_le_trans|by eapply map_keys_le_trans].
  - intros ??. split; [apply keys_le_refl|apply map_keys_le_refl].
  - intros ???. split; [apply keys_le_insert_row|apply map_keys_le_refl].
  - intros ??????. split; [apply R_do_dns_query_grows|].
    unfold Resolve.do_dns_query.
    destruct (transport _ _ _ _) as [response|e]; [|apply map_keys_le_refl].
    pose proof (R_record_authority_keys (authority response) wl0
                  (Resolve.authority_cache st0)) as H.
    by destruct (Resolve.record_authority _ _ _) as [[eo wl'] auth].
Qed.

End ResolveGrowth.

Section Resolve3Growth.

Variable transport : list Resolve3.query → Resolve3.server → Name → rdtype → reply.

Lemma R3_scan_additional_keys target adds :
  ∀ wl auth, map_keys_le auth (Resolve3.scan_additional target adds wl auth).2.
Proof.
  induction adds as [|rr adds IH]; intros wl auth; [apply map_keys_le_refl|].
  cbn [Resolve3.scan_additional]. destruct (N.eqb _ _); [|apply IH].
  set (auth1 := match auth !! KLabels (labels target) with
                | Some _ => auth
                | None => <[KLabels (labels target) := Resolve3.fresh_row]> auth
                end).
  assert (map_keys_le auth auth1) as H1.
  { unfold auth1. destruct (auth !! _); [apply map_keys_le_refl|apply map_keys_le_insert]. }
  destruct (head (items rr)) as [rd|]; [|exact H1].
  destruct (name_eqb _ _).
  - eapply map_keys_le_trans; [exact H1|apply map_keys_le_alter].
  - eapply map_keys_le_trans; [exact H1|].
    eapply map_keys_le_trans; [apply map_keys_le_alter|apply IH].
Qed.

Lemma R3_record_ns_targets_keys zone adds rds :
  ∀ wl auth, map_keys_le auth (Resolve3.record_ns_targets zone adds rds wl auth).2.
Proof.
  induction rds as [|rd rds IH]; intros wl auth; [apply map_keys_le_refl|].
  cbn [Resolve3.record_ns_targets].
  destruct (rd_target rd) as [target|]; [|apply map_keys_le_refl].
  destruct (auth !! zone) as [r|]; [|apply map_keys_le_refl].
  set (auth1 := if bool_decide (labels target ∈ Resolve3.ar_cname r) then auth
                else <[zone := Resolve3.add_name (labels target) r]> auth).
  assert (map_keys_le auth auth1) as H1.
  { unfold auth1. destruct (bool_decide _); [apply map_keys_le_refl|apply map_keys_le_insert]. }
  pose proof (R3_scan_additional_keys target adds wl auth1) as H2.
  destruct (Resolve3.scan_additional _ _ _ _) as [[[[ex|] [|]] wl1] auth2]; simpl in H2;
    try (by eapply map_keys_le_trans);
    (eapply map_keys_le_trans; [exact H1|]);
    (eapply map_keys_le_trans; [exact H2|apply IH]).
Qed.

Lemma R3_record_authority_keys adds rrs :
  ∀ wl auth, map_keys_le auth (Resolve3.record_authority adds rrs wl auth).2.
Proof.
  induction rrs as [|rr rrs IH]; intros wl auth; [apply map_keys_le_refl|].
  cbn [Resolve3.record_authority]. destruct (N.eqb _ _); [|apply IH].
  set (auth1 := match auth !! KName (canon (rr_name rr)) with
                | Some _ => auth
                | None => <[KLabels (labels (rr_name rr)) := Resolve3.fresh_row]> auth
                end).
  assert (map_keys_le auth auth1) as H1.
  { unfold auth1. destruct (auth !! _); [apply map_keys_le_refl|apply map_keys_le_insert]. }
  pose proof (R3_record_ns_targets_keys (KLabels (labels (rr_name rr))) adds (items rr)
                wl auth1) as H2.
  destruct (Resolve3.record_ns_targets _ _ _ _ _) as [[[ex|] wl1] auth2]; simpl in H2.
  - by eapply map_keys_le_trans.
  - eapply map_keys_le_trans; [exact H1|].
    eapply map_keys_le_trans; [exact H2|apply IH].
Qed.

Lemma R3_lookup_caches_grow fuel depth n q st res st' :
  Resolve3.lookup_at transport fuel depth n q st = Some (res, st') →
  R3_caches_grow st st'.
Proof.
  apply (proj1 (R3_lookup_inv transport R3_caches_grow
    ltac:(intros ?; split; [apply keys_le_refl|apply map_keys_le_refl])
    ltac:(intros ??? [A1 A2] [B1 B2];
          split; [by eapply keys_le_trans|by eapply map_keys_le_trans])
    ltac:(intros ??; split; [apply keys_le_refl|apply map_keys_le_refl])
    ltac:(intros ????; split; [apply keys_le_refl|apply R3_record_authority_keys])
    ltac:(intros ?????; split; [apply keys_le_insert_row|apply map_keys_le_refl])
    ltac:(intros ???; split; [apply keys_le_insert_row|apply map_keys_le_refl])
    ltac:(intros ?????; split; [apply keys_le_refl|apply map_keys_le_refl])
    fuel)).
Qed.

End Resolve3Growth.

(** X7.  [lookup] never removes anything from the caches, whether it
    returns or raises: a pair (name, type) that had an entry in
    [answer_cache] still has one afterwards, and every key of
    [authority_cache] is still a key.  (The values may have been
    overwritten.) *)
Theorem X7_caches_only_grow :
  (∀ transport fuel depth target_name qtype st res st',
     Resolve.lookup_at transport fuel depth target_name qtype st = Some (res, st') →
     R_caches_grow st st')
  ∧ (∀ transport fuel depth target_name qtype st res st',
     Resolve3.lookup_at transport fuel depth target_name qtype st = Some (res, st') →
     R3_caches_grow st st').
Proof.
  split.
  - intros transport fuel depth n q st res st'. apply R_lookup_loop_caches_grow.
  - intros transport fuel depth n q st res st'. apply R3_lookup_caches_grow.
Qed.

Lemma X7_caches_only_grow_witness :
  R_caches_grow Resolve.empty_state Scenario.chain_final
  ∧ R3_caches_grow Resolve3.empty_state Scenario.chain_final3.
Proof.
  split.
  - exact (proj1 X7_caches_only_grow Scenario.chain 20 0 Scenario.example_com A
             Resolve.empty_state (Ret Scenario.final_answer) Scenario.chain_final
             chain_run_at).
  - exact (proj2 X7_caches_only_grow Scenario.chain3 20 0 Scenario.example_com A
             Resolve3.empty_state (Ret Scenario.final_answer) Scenario.chain_final3
             chain_run3_at).
Defined.

(** ** The type of the records that lookup returns *)

Section ResolveTyped.

Variable transport : list Resolve.query → Resolve.server → Name → rdtype → reply.

Lemma R_typed_put k t c ac :
  R_typed ac → (∀ rr, c = Resolve.Pos rr → rr_type rr = t) →
  R_typed (Resolve.put k t c ac).
Proof.
  intros H Hc k' t' rr. unfold Resolve.put.
  destruct (decide (k = k')) as [<-|Hk]; [|rewrite lookup_insert_ne by done; apply H].
  rewrite lookup_insert_eq. simpl.
  destruct (decide (t = t')) as [<-|Ht].
  - rewrite lookup_insert_eq. intros [= ->]. by apply Hc.
  - rewrite lookup_insert_ne by done. intros E. apply (H k t' rr).
    destruct (ac !! k); simpl in *; [done|by rewrite lookup_empty in E].
Qed.

Lemma R_typed_ensure_row k ac : R_typed ac → R_typed (Resolve.ensure_row k ac).
Proof.
  intros H. unfold Resolve.ensure_row. destruct (ac !! k) eqn:E; [done|].
  intros k' t rr. destruct (decide (k = k')) as [<-|Hk].
  - rewrite lookup_insert_eq. simpl. by rewrite lookup_empty.
  - rewrite lookup_insert_ne by done. apply H.
Qed.

Lemma R_typed_fold {Y} (f : gmap pykey (gmap N Resolve.cached) → Y → _) l :
  (∀ ac y, R_typed ac → R_typed (f ac y)) →
  ∀ ac, R_typed ac → R_typed (fold_left f l ac).
Proof.
  intros Hf. induction l as [|y l IH]; intros ac H; [done|].
  simpl. by apply IH, Hf.
Qed.

Lemma R_do_dns_query_typed depth n q srv wl st :
  R_well_typed st →
  R_well_typed (Resolve.do_dns_query transport depth n q srv wl st).2.
Proof.
  unfold R_well_typed, Resolve.do_dns_query. intros H.
  destruct (transport _ _ _ _) as [response|e]; [|exact H].
  destruct (Resolve.record_authority _ _ _) as [[eo wl'] auth]. simpl.
  unfold Resolve.cache_additional, Resolve.cache_answers.
  apply R_typed_fold; [intros ac y Hac; apply R_typed_put; [done|by intros ? [= ->]]|].
  apply R_typed_fold; [intros ac y Hac; apply R_typed_put; [done|by intros ? [= ->]]|].
  by apply R_typed_ensure_row.
Qed.

Lemma R_lookup_loop_typed fuel depth n q wl queried st res st' :
  Resolve.lookup_loop transport fuel depth n q wl queried st = Some (res, st') →
  R_well_typed st → R_well_typed st'.
Proof.
  apply (R_lookup_loop_R transport (λ st st', R_well_typed st → R_well_typed st')).
  - by intros ?.
  - intros ??? H1 H2 H. by apply H2, H1.
  - by intros ??.
  - intros ??? H. by apply R_typed_put.
  - intros ??????. apply R_do_dns_query_typed.
Qed.

End ResolveTyped.

Section Resolve3Typed.

Variable transport : list Resolve3.query → Resolve3.server → Name → rdtype → reply.

Lemma R3_typed_put k t m ac :
  R3_typed ac → (∀ rr, head (answer m) = Some rr → rr_type rr = t) →
  R3_typed (Resolve3.put k t m ac).
Proof.
  intros H Hm k' t' m' rr. unfold Resolve3.put.
  destruct (decide (k = k')) as [<-|Hk]; [|rewrite lookup_insert_ne by done; apply H].
  rewrite lookup_insert_eq. simpl.
  destruct (decide (t = t')) as [<-|Ht].
  - rewrite lookup_insert_eq. intros [= ->]. apply Hm.
  - rewrite lookup_insert_ne by done. intros E. apply (H k t' m' rr).
    destruct (ac !! k); simpl in *; [done|by rewrite lookup_empty in E].
Qed.

Lemma R3_lookup_typed fuel :
  (∀ depth n q st res st',
     Resolve3.lookup_at transport fuel depth n q st = Some (res, st') →
     R3_well_typed st → R3_well_typed st')
  ∧ (∀ depth n q wl queried st res st',
     Resolve3.lookup_loop transport fuel depth n q wl queried st = Some (res, st') →
     R3_well_typed st → R3_well_typed st').
Proof.
  apply (R3_lookup_inv transport (λ st st', R3_well_typed st → R3_well_typed st')).
  - by intros ?.
  - intros ??? H1 H2 H. by apply H2, H1.
  - by intros ??.
  - by intros ????.
  - intros n rr response st Hh H. apply R3_typed_put; [done|].
    intros rr' E. congruence.
  - intros n q st H. by apply R3_typed_put.
  - by intros ?????.
Qed.

Lemma R3_select_server_typed lookup t e st res st' :
  (∀ n q st res st',
     lookup n q st = Some (res, st') → R3_well_typed st → R3_well_typed st') →
  Resolve3.select_server lookup t e st = Some (res, st') →
  R3_well_typed st → R3_well_typed st'.
Proof.
  intros Hl.
  apply (R3_select_server_inv (λ st st', R3_well_typed st → R3_well_typed st')).
  - by intros ?.
  - intros ??? H1 H2 H. by apply H2, H1.
  - by intros ??.
  - exact Hl.
Qed.

Lemma R3_loop_body_typed lookup depth n q wl queried st :
  (∀ n q st res st',
     lookup n q st = Some (res, st') → R3_well_typed st → R3_well_typed st') →
  R3_well_typed st →
  match Resolve3.loop_body transport lookup depth n q wl queried st with
  | Some (Resolve3.Done _ st') => R3_well_typed st'
  | Some (Resolve3.Next _ _ st') => R3_well_typed st'
  | None => True
  end.
Proof.
  intros Hl W.
  assert (match Resolve3.loop_body transport lookup depth n q wl queried st with
          | Some (Resolve3.Done _ st') => R3_well_typed st → R3_well_typed st'
          | Some (Resolve3.Next _ _ st') => R3_well_typed st → R3_well_typed st'
          | None => True
          end) as X.
  { apply (R3_loop_body_inv transport (λ st st', R3_well_typed st → R3_well_typed st')).
    - by intros ?.
    - intros ??? H1 H2 H. by apply H2, H1.
    - by intros ??.
    - by intros ????.
    - intros ???? Hh H. apply R3_typed_put; [done|]. intros rr' E. congruence.
    - intros ??? H. by apply R3_typed_put.
    - by intros ?????.
    - exact Hl. }
  destruct (Resolve3.loop_body _ _ _ _ _ _ _ _) as [[r st1|wl' queried' st1]|];
    [by apply X|by apply X|done].
Qed.

Lemma R3_check_Hit st n q m :
  Resolve3.cache_check st n q = Resolve3.Hit m →
  Resolve3.row st n ≫= (λ r, r !! q) = Some m.
Proof.
  unfold Resolve3.cache_check. destruct (Resolve3.row st n) as [r|]; [|done].
  simpl. destruct (r !! q); [by intros [= ->]|].
  destruct (r !! CNAME); [|done]. by destruct (Nat.ltb 0 _).
Qed.

(** The first record set of what [lookup] returns has the requested
    type. *)
Lemma R3_result_typed fuel :
  (∀ depth n q st r st',
     Resolve3.lookup_at transport fuel depth n q st = Some (Ret r, st') →
     R3_well_typed st →
     ∀ rr, head (answer r) = Some rr → rr_type rr = q)
  ∧ (∀ depth n q wl queried st r st',
     Resolve3.lookup_loop transport fuel depth n q wl queried st = Some (Ret r, st') →
     R3_well_typed st →
     ∀ rr, head (answer r) = Some rr → rr_type rr = q).
Proof.
  induction fuel as [|fuel [IHa IHl]]; [by split|]. split.
  - intros depth n q st r st' H W. cbn [Resolve3.lookup_at] in H.
    destruct (Resolve3.cache_check st n q) as [m|m|] eqn:CC.
    + injection H as <- <-. intros rr. apply (W (KLabels (labels n)) q m rr).
      by apply R3_check_Hit.
    + destruct (Resolve3.first_target m) as [t|ex]; [by eapply IHa|done].
    + by eapply IHl.
  - intros depth n q wl queried st r st' H W. rewrite R3_loop_S in H.
    destruct (Resolve3.loop_body _ _ _ _ _ _ _ _) as [[res st1|wl' queried' st1]|] eqn:B;
      [| |done].
    2:{ eapply IHl; [exact H|].
        pose proof (R3_loop_body_typed (Resolve3.lookup_at transport fuel (S depth))
                      depth n q wl queried st) as X.
        rewrite B in X. apply X; [|exact W].
        intros ?????. apply (proj1 (R3_lookup_typed fuel)). }
    injection H as -> ->. unfold Resolve3.loop_body in B.
    destruct (pop wl) as [[rest e]|]; [|by injection B as <- <-].
    destruct (Resolve3.select_server _ _ _ _) as [[[[srv|]|ex] st2]|] eqn:E; [|done..].
    assert (R3_well_typed st2) as W2.
    { eapply R3_select_server_typed; [|exact E|exact W].
      intros ?????. apply (proj1 (R3_lookup_typed fuel)). }
    destruct (existsb _ queried); [done|].
    destruct (transport _ _ _ _) as [response|ex]; [|done].
    unfold Resolve3.handle_response in B.
    destruct (answer response) as [|rr0 ?] eqn:EA.
    { destruct (authority response); [done|].
      by destruct (Resolve3.record_authority _ _ _ _) as [[[ex|] wl'] auth]. }
    destruct (N.eqb (rr_type rr0) q) eqn:Eq.
    { injection B as <- <-. apply N.eqb_eq in Eq. rewrite EA. simpl.
      by intros rr [= <-]. }
    destruct (N.eqb (rr_type rr0) CNAME) eqn:Ec; [|done].
    destruct (Resolve3.first_target response) as [t|ex]; [|done].
    destruct (Resolve3.lookup_at _ _ _ _ _ _) as [[[res1|ex] st4]|] eqn:L; [|done..].
    injection B as <- <-. eapply IHa; [exact L|].
    apply R3_typed_put; [exact W2|]. rewrite EA. simpl. by intros rr [= <-].
Qed.

End Resolve3Typed.

(** X8.  When every entry of the record cache is filed under its own
    type (as in the empty cache), [lookup] keeps it so and what it
    returns has the requested type: in resolve.py the answer section
    is empty or holds exactly one record set, of the requested type;
    in resolve3.py the first record set of the answer section, if
    any, has the requested type. *)
Theorem X8_returned_records_have_the_requested_type :
  (∀ transport fuel depth target_name qtype st r st',
     R_well_typed st →
     Resolve.lookup_at transport fuel depth target_name qtype st = Some (Ret r, st') →
     R_well_typed st'
     ∧ (answer r = [] ∨ ∃ rr, answer r = [rr] ∧ rr_type rr = qtype))
  ∧ (∀ transport fuel depth target_name qtype st r st',
     R3_well_typed st →
     Resolve3.lookup_at transport fuel depth target_name qtype st = Some (Ret r, st') →
     R3_well_typed st'
     ∧ ∀ rr, head (answer r) = Some rr → rr_type rr = qtype).
Proof.
  split.
  - intros transport fuel depth n q st r st' W H.
    assert (R_well_typed st') as W' by by eapply R_lookup_loop_typed.
    split; [exact W'|].
    destruct (R_answers_from_cache transport _ _ _ _ _ _ _ _ _ H)
      as [E|(owner & rr & E1 & E2)]; [by left|].
    right. exists rr. split; [exact E2|]. by apply (W' (KLabels (labels owner)) q rr).
  - intros transport fuel depth n q st r st' W H. split.
    + by eapply (proj1 (R3_lookup_typed transport fuel)).
    + by eapply (proj1 (R3_result_typed transport fuel)).
Qed.

Lemma R_well_typed_empty : R_well_typed Resolve.empty_state.
Proof. intros k t rr. unfold Resolve.empty_state. simpl. by rewrite lookup_empty. Qed.

Lemma R3_well_typed_empty : R3_well_typed Resolve3.empty_state.
Proof. intros k t m rr. unfold Resolve3.empty_state. simpl. by rewrite lookup_empty. Qed.

Lemma X8_returned_records_witness :
  (R_well_typed Scenario.chain_final
   ∧ (answer Scenario.final_answer = []
      ∨ ∃ rr, answer Scenario.final_answer = [rr] ∧ rr_type rr = A))
  ∧ (R3_well_typed Scenario.chain_final3
     ∧ ∀ rr, head (answer Scenario.final_answer) = Some rr → rr_type rr = A).
Proof.
  split.
  - exact (proj1 X8_returned_records_have_the_requested_type Scenario.chain 20 0
             Scenario.example_com A Resolve.empty_state Scenario.final_answer
             Scenario.chain_final R_well_typed_empty chain_run_at).
  - exact (proj2 X8_returned_records_have_the_requested_type Scenario.chain3 20 0
             Scenario.example_com A Resolve3.empty_state Scenario.final_answer
             Scenario.chain_final3 R3_well_typed_empty chain_run3_at).
Defined.

(** ** Tests of a name against keys that are label tuples *)

Lemma label_keyed_insert {V} (m : gmap pykey V) l v :
  label_keyed m → label_keyed (<[KLabels l := v]> m).
Proof. intros H cn. by rewrite lookup_insert_ne. Qed.

Lemma label_keyed_alter {V} (m : gmap pykey V) f k :
  label_keyed m → label_keyed (alter f k m).
Proof.
  intros H cn. destruct (decide (k = KName cn)) as [->|Hk].
  - by rewrite lookup_alter_eq, H.
  - by rewrite lookup_alter_ne.
Qed.

Lemma label_keyed_fold {V Y} (f : gmap pykey V → Y → gmap pykey V) l :
  (∀ m y, label_keyed m → label_keyed (f m y)) →
  ∀ m, label_keyed m → label_keyed (fold_left f l m).
Proof.
  intros Hf. induction l as [|y l IH]; intros m H; [done|].
  simpl. by apply IH, Hf.
Qed.

Section ResolveLabelKeys.

Variable transport : list Resolve.query → Resolve.server → Name → rdtype → reply.

Lemma R_do_dns_query_label_keyed depth n q srv wl st :
  R_label_keyed st →
  R_label_keyed (Resolve.do_dns_query transport depth n q srv wl st).2.
Proof.
  unfold R_label_keyed, Resolve.do_dns_query. intros H.
  destruct (transport _ _ _ _) as [response|e]; [|exact H].
  destruct (Resolve.record_authority _ _ _) as [[eo wl'] auth]. simpl.
  unfold Resolve.cache_additional, Resolve.cache_answers.
  apply label_keyed_fold; [intros; by apply label_keyed_insert|].
  apply label_keyed_fold; [intros; by apply label_keyed_insert|].
  unfold Resolve.ensure_row. destruct (_ !! _); [done|by apply label_keyed_insert].
Qed.

Lemma R_lookup_loop_label_keyed fuel depth n q wl queried st res st' :
  Resolve.lookup_loop transport fuel depth n q wl queried st = Some (res, st') →
  R_label_keyed st → R_label_keyed st'.
Proof.
  apply (R_lookup_loop_R transport (λ st st', R_label_keyed st → R_label_keyed st')).
  - by intros ?.
  - intros ??? H1 H2 H. by apply H2, H1.
  - by intros ??.
  - intros ??? H. by apply label_keyed_insert.
  - intros ??????. apply R_do_dns_query_label_keyed.
Qed.

Lemma R_resolve_dns_cname_str lookup srv st s st' :
  R_label_keyed st →
  Resolve.resolve_dns_cname lookup srv st = Some (Ret s, st') →
  ∃ a, s = Resolve.SvAddr a.
Proof.
  intros K H. unfold Resolve.resolve_dns_cname in H.
  destruct srv as [a|n|c|rd]; [done| |done|done].
  destruct (active_mem n _); [injection H as <- <-; by eexists|].
  rewrite (K (canon n)) in H. simpl in H.
  destruct (lookup n A _) as [[[server_ip|e] st1]|]; [|done..].
  destruct (answer server_ip) as [|rr ?]; [injection H as <- <-; by eexists|].
  destruct (head (items rr)); [injection H as <- <-; by eexists|done].
Qed.

End ResolveLabelKeys.

(** X9.  [answer_cache] of resolve.py is keyed by label tuples, and
    [lookup] keeps it so.  A [Name] is never equal to a tuple, so the
    test [server in answer_cache] of [resolve_dns_cname] is never
    true: a nameserver's address is not taken from the cache there,
    and what the function returns is a string (the empty string, or
    the text of the first record of a nested lookup's answer). *)
Theorem X9_nameserver_address_is_looked_up :
  (∀ transport fuel depth target_name qtype st res st',
     R_label_keyed st →
     Resolve.lookup_at transport fuel depth target_name qtype st = Some (res, st') →
     R_label_keyed st')
  ∧ (∀ lookup srv st s st',
     R_label_keyed st →
     Resolve.resolve_dns_cname lookup srv st = Some (Ret s, st') →
     ∃ a, s = Resolve.SvAddr a).
Proof.
  split.
  - intros transport fuel depth n q st res st' K H.
    by eapply R_lookup_loop_label_keyed.
  - intros lookup srv st s st'. apply R_resolve_dns_cname_str.
Qed.

Lemma R_label_keyed_empty : R_label_keyed Resolve.empty_state.
Proof. intros cn. unfold Resolve.empty_state. simpl. by rewrite lookup_empty. Qed.

Lemma X9_nameserver_address_witness :
  R_label_keyed Scenario.chain_final
  ∧ ∃ a, Resolve.SvAddr "93.184.216.34" = Resolve.SvAddr a.
Proof.
  split.
  - exact (proj1 X9_nameserver_address_is_looked_up Scenario.chain 20 0
             Scenario.example_com A Resolve.empty_state (Ret Scenario.final_answer)
             Scenario.chain_final R_label_keyed_empty chain_run_at).
  - eapply (proj2 X9_nameserver_address_is_looked_up
              (λ _ _ st, Some (Ret Scenario.final_answer, st))
              (Resolve.SvName Scenario.ns1_example_com) Resolve.empty_state);
      [apply R_label_keyed_empty|reflexivity].
Defined.

Section Resolve3LabelKeys.

Variable transport : list Resolve3.query → Resolve3.server → Name → rdtype → reply.

Lemma R3_scan_additional_label_keyed target adds :
  ∀ wl auth, label_keyed auth →
             label_keyed (Resolve3.scan_additional target adds wl auth).2.
Proof.
  induction adds as [|rr adds IH]; intros wl auth K; [done|].
  cbn [Resolve3.scan_additional]. destruct (N.eqb _ _); [|by apply IH].
  set (auth1 := match auth !! KLabels (labels target) with
                | Some _ => auth
                | None => <[KLabels (labels target) := Resolve3.fresh_row]> auth
                end).
  assert (label_keyed auth1) as K1.
  { unfold auth1. destruct (auth !! _); [done|by apply label_keyed_insert]. }
  destruct (head (items rr)) as [rd|]; [|exact K1].
  destruct (name_eqb _ _); [by apply label_keyed_alter|].
  by apply IH, label_keyed_alter.
Qed.

Lemma R3_record_ns_targets_label_keyed l adds rds :
  ∀ wl auth, label_keyed auth →
             label_keyed (Resolve3.record_ns_targets (KLabels l) adds rds wl auth).2.
Proof.
  induction rds as [|rd rds IH]; intros wl auth K; [done|].
  cbn [Resolve3.record_ns_targets].
  destruct (rd_target rd) as [target|]; [|done].
  destruct (auth !! KLabels l) as [r|]; [|done].
  set (auth1 := if bool_decide (labels target ∈ Resolve3.ar_cname r) then auth
                else <[KLabels l := Resolve3.add_name (labels target) r]> auth).
  assert (label_keyed auth1) as K1.
  { unfold auth1. destruct (bool_decide _); [done|by apply label_keyed_insert]. }
  pose proof (R3_scan_additional_label_keyed target adds wl auth1 K1) as K2.
  destruct (Resolve3.scan_additional _ _ _ _) as [[[[ex|] [|]] wl1] auth2]; simpl in K2;
    first [exact K2|by apply IH].
Qed.

Lemma R3_record_authority_label_keyed adds rrs :
  ∀ wl auth, label_keyed auth →
             label_keyed (Resolve3.record_authority adds rrs wl auth).2.
Proof.
  induction rrs as [|rr rrs IH]; intros wl auth K; [done|].
  cbn [Resolve3.record_authority]. destruct (N.eqb _ _); [|by apply IH].
  rewrite (K (canon (rr_name rr))).
  pose proof (R3_record_ns_targets_label_keyed (labels (rr_name rr)) adds (items rr) wl
                (<[KLabels (labels (rr_name rr)) := Resolve3.fresh_row]> auth)
                (label_keyed_insert _ _ _ K)) as K2.
  destruct (Resolve3.record_ns_targets _ _ _ _ _) as [[[ex|] wl1] auth2]; simpl in K2;
    [exact K2|by apply IH].
Qed.

Lemma R3_lookup_label_keyed fuel depth n q st res st' :
  Resolve3.lookup_at transport fuel depth n q st = Some (res, st') →
  R3_label_keyed st → R3_label_keyed st'.
Proof.
  apply (R3_lookup_inv transport (λ st st', R3_label_keyed st → R3_label_keyed st')).
  - by intros ?.
  - intros ??? H1 H2 H. by apply H2, H1.
  - by intros ??.
  - intros ???? H. by apply R3_record_authority_label_keyed.
  - by intros ?????.
  - by intros ???.
  - by intros ?????.
Qed.

Lemma R3_referral_resets_row adds rr rest wl auth :
  label_keyed auth → rr_type rr = NS →
  Resolve3.record_authority adds (rr :: rest) wl auth
  = Resolve3.record_authority adds (rr :: rest) wl
      (<[KLabels (labels (rr_name rr)) := Resolve3.fresh_row]> auth).
Proof.
  intros K E. cbn [Resolve3.record_authority]. rewrite E. cbn [N.eqb Pos.eqb NS].
  rewrite (K (canon (rr_name rr))).
  rewrite (label_keyed_insert auth (labels (rr_name rr)) Resolve3.fresh_row K
             (canon (rr_name rr))).
  by rewrite insert_insert_eq.
Qed.

End Resolve3LabelKeys.

(** X10.  [authority_cache] of resolve3.py is keyed by label tuples,
    and [lookup] keeps it so.  The test [authority_list.name not in
    authority_cache.keys()] compares a [Name] with those tuples and is
    therefore always true: every NS record set of a referral first
    replaces the row of its zone by a fresh one, so handling it gives
    the same as when the zone had just been given a fresh row. *)
Theorem X10_referral_starts_from_a_fresh_row :
  (∀ transport fuel depth target_name qtype st res st',
     R3_label_keyed st →
     Resolve3.lookup_at transport fuel depth target_name qtype st = Some (res, st') →
     R3_label_keyed st')
  ∧ (∀ adds rr rest wl auth,
     label_keyed auth → rr_type rr = NS →
     Resolve3.record_authority adds (rr :: rest) wl auth
     = Resolve3.record_authority adds (rr :: rest) wl
         (<[KLabels (labels (rr_name rr)) := Resolve3.fresh_row]> auth)).
Proof.
  split.
  - intros transport fuel depth n q st res st' K H. by eapply R3_lookup_label_keyed.
  - apply R3_referral_resets_row.
Qed.

Lemma R3_label_keyed_empty : R3_label_keyed Resolve3.empty_state.
Proof. intros cn. unfold Resolve3.empty_state. simpl. by rewrite lookup_empty. Qed.

Lemma label_keyed_zone_without_glue :
  label_keyed (Resolve3.authority_cache Scenario.zone_without_glue).
Proof.
  unfold Scenario.zone_without_glue. simpl. apply label_keyed_insert.
  intros cn. by rewrite lookup_empty.
Qed.

Lemma X10_referral_witness :
  R3_label_keyed Scenario.chain_final3
  ∧ Resolve3.record_authority []
      [mkRRset Scenario.example_com NS [RdTarget Scenario.ns1_example_com]] []
      (Resolve3.authority_cache Scenario.zone_without_glue)
    = Resolve3.record_authority []
        [mkRRset Scenario.example_com NS [RdTarget Scenario.ns1_example_com]] []
        (<[KLabels (labels Scenario.example_com) := Resolve3.fresh_row]>
           (Resolve3.authority_cache Scenario.zone_without_glue)).
Proof.
  split.
  - exact (proj1 X10_referral_starts_from_a_fresh_row Scenario.chain3 20 0
             Scenario.example_com A Resolve3.empty_state (Ret Scenario.final_answer)
             Scenario.chain_final3 R3_label_keyed_empty chain_run3_at).
  - exact (proj2 X10_referral_starts_from_a_fresh_row []
             (mkRRset Scenario.example_com NS [RdTarget Scenario.ns1_example_com]) [] []
             (Resolve3.authority_cache Scenario.zone_without_glue)
             label_keyed_zone_without_glue eq_refl).
Defined.

(** ** The active set after a lookup that returns *)

Lemma active_restore (n : Name) (s s' : gset (list string)) :
  s' ⊆ active_add n s → active_discard n s' ⊆ s.
Proof.
  unfold active_add, active_discard. intros H x Hx.
  apply elem_of_difference in Hx as [Hx Hn]. apply H, elem_of_union in Hx as [Hx|Hx]; done.
Qed.

Section ResolveActive.

Variable transport : list Resolve.query → Resolve.server → Name → rdtype → reply.

Section Nested.

Variable lookup : Name → rdtype → Resolve.state → option (result message * Resolve.state).
Hypothesis lookup_le : ∀ n q st r st',
  lookup n q st = Some (Ret r, st') →
  Resolve.active_lookups st' ⊆ Resolve.active_lookups st.

Lemma R_resolve_dns_cname_active srv st s st' :
  Resolve.resolve_dns_cname lookup srv st = Some (Ret s, st') →
  Resolve.active_lookups st' ⊆ Resolve.active_lookups st.
Proof.
  unfold Resolve.resolve_dns_cname. intros H.
  destruct srv as [a|n|c|rd]; [done| |done|done].
  destruct (active_mem n _); [by injection H as <- <-|].
  destruct (_ ≫= _) as [c|].
  { destruct (Resolve.first_item c); [by injection H as <- <-|done]. }
  destruct (lookup n A _) as [[[server_ip|e] st1]|] eqn:L; [|done..].
  apply lookup_le, (active_restore n) in L.
  destruct (answer server_ip) as [|rr ?]; [by injection H as <- <-|].
  destruct (head (items rr)); [by injection H as <- <-|done].
Qed.

Lemma R_select_server_active e st s st' :
  Resolve.select_server lookup e st = Some (Ret s, st') →
  Resolve.active_lookups st' ⊆ Resolve.active_lookups st.
Proof.
  unfold Resolve.select_server. intros H.
  destruct (N.eqb (fst e) CNAME); [|by injection H as <- <-].
  destruct (Resolve.resolve_dns_cname lookup (snd e) st) as [[[srv|ex] st1]|] eqn:E;
    [|done..].
  injection H as <- <-. by eapply R_resolve_dns_cname_active.
Qed.

Lemma R_chase_active n q c st r st' :
  Resolve.chase lookup n q c st = Some (Ret r, st') →
  Resolve.active_lookups st' ⊆ Resolve.active_lookups st.
Proof.
  unfold Resolve.chase. intros H.
  destruct (Resolve.first_item c ≫= rd_target) as [t|]; [|done].
  destruct (lookup t q _) as [[[res1|e] st1]|] eqn:L; [|done..].
  injection H as <- <-. by apply lookup_le, (active_restore n) in L.
Qed.

Lemma R_loop_body_active depth n q wl queried st :
  match Resolve.loop_body transport lookup depth n q wl queried st with
  | Some (Resolve.Done (Ret _) st') =>
      Resolve.active_lookups st' ⊆ Resolve.active_lookups st
  | Some (Resolve.Done (Raise _) _) => True
  | Some (Resolve.Next _ _ st') =>
      Resolve.active_lookups st' ⊆ Resolve.active_lookups st
  | None => True
  end.
Proof.
  unfold Resolve.loop_body.
  destruct (pop wl) as [[rest e]|]; [|done].
  destruct (Resolve.cache_check st n q) as [c|c|]; [done| |].
  - destruct (Resolve.chase lookup n q c st) as [[[r|ex] st']|] eqn:E; [|done..].
    by eapply R_chase_active.
  - destruct (Resolve.select_server lookup e st) as [[[[srv|]|ex] st1]|] eqn:E;
      [| |done|done]; pose proof (R_select_server_active _ _ _ _ E) as X; [|exact X].
    destruct (existsb _ queried); [exact X|].
    assert (Resolve.active_lookups
              (Resolve.do_dns_query transport depth n q srv rest st1).2
            = Resolve.active_lookups st1) as Y.
    { unfold Resolve.do_dns_query. destruct (transport _ _ _ _); [|done].
      by destruct (Resolve.record_authority _ _ _) as [[eo wl'] auth]. }
    destruct (Resolve.do_dns_query _ _ _ _ _ _ _) as [[[ex|] wl'] st2];
      simpl in Y; [done|]. by rewrite Y.
Qed.

End Nested.

Lemma R_lookup_loop_active fuel :
  ∀ depth n q wl queried st r st',
    Resolve.lookup_loop transport fuel depth n q wl queried st = Some (Ret r, st') →
    Resolve.active_lookups st' ⊆ Resolve.active_lookups st.
Proof.
  induction fuel as [|fuel IH]; intros depth n q wl queried st r st' H; [done|].
  rewrite R_loop_S in H.
  pose proof (R_loop_body_active (Resolve.lookup_at transport fuel (S depth))
                ltac:(intros ?????; apply IH) depth n q wl queried st) as B.
  destruct (Resolve.loop_body _ _ _ _ _ _ _ _) as [[[r1|ex] st1|wl' queried' st1]|];
    [by injection H as <- <-|done| |done].
  etrans; [by eapply IH|exact B].
Qed.

End ResolveActive.

Section Resolve3Active.

Variable transport : list Resolve3.query → Resolve3.server → Name → rdtype → reply.

Section Nested.

Variable lookup : Name → rdtype → Resolve3.state → option (result message * Resolve3.state).
Hypothesis lookup_le : ∀ n q st r st',
  lookup n q st = Some (Ret r, st') →
  Resolve3.active_lookups st' ⊆ Resolve3.active_lookups st.

Lemma R3_select_server_active t e st s st' :
  Resolve3.select_server lookup t e st = Some (Ret s, st') →
  Resolve3.active_lookups st' ⊆ Resolve3.active_lookups st.
Proof.
  unfold Resolve3.select_server. intros H.
  destruct (N.eqb (fst e) CNAME); [|by injection H as <- <-].
  destruct (active_mem t _); [by injection H as <- <-|].
  destruct (snd e) as [a|n|d m]; [done| |done].
  destruct (bool_decide _); [|by injection H as <- <-].
  destruct (lookup n A _) as [[[server_ip|ex] st1]|] eqn:L; [|done..].
  apply lookup_le, (active_restore t) in L.
  destruct (answer server_ip) as [|rr ?]; [by injection H as <- <-|].
  destruct (head (items rr)); [by injection H as <- <-|done].
Qed.

Lemma R3_handle_response_active n q response rest queried st :
  match Resolve3.handle_response lookup n q response rest queried st with
  | Some (Resolve3.Done (Ret _) st') =>
      Resolve3.active_lookups st' ⊆ Resolve3.active_lookups st
  | Some (Resolve3.Done (Raise _) _) => True
  | Some (Resolve3.Next _ _ st') =>
      Resolve3.active_lookups st' ⊆ Resolve3.active_lookups st
  | None => True
  end.
Proof.
  unfold Resolve3.handle_response.
  destruct (answer response) as [|rr ?].
  - destruct (authority response); [done|].
    by destruct (Resolve3.record_authority _ _ _ _) as [[[ex|] wl] auth].
  - destruct (N.eqb (rr_type rr) q); [done|].
    destruct (N.eqb (rr_type rr) CNAME); [|done].
    destruct (Resolve3.first_target response) as [t|ex]; [|done].
    destruct (lookup t q _) as [[[res|ex] st4]|] eqn:L; [|done..].
    by apply lookup_le, (active_restore n) in L.
Qed.

Lemma R3_loop_body_active depth n q wl queried st :
  match Resolve3.loop_body transport lookup depth n q wl queried st with
  | Some (Resolve3.Done (Ret _) st') =>
      Resolve3.active_lookups st' ⊆ Resolve3.active_lookups st
  | Some (Resolve3.Done (Raise _) _) => True
  | Some (Resolve3.Next _ _ st') =>
      Resolve3.active_lookups st' ⊆ Resolve3.active_lookups st
  | None => True
  end.
Proof.
  unfold Resolve3.loop_body.
  destruct (pop wl) as [[rest e]|]; [|done].
  destruct (Resolve3.select_server lookup n e st) as [[[[srv|]|ex] st1]|] eqn:E;
    [| |done|done]; pose proof (R3_select_server_active _ _ _ _ _ E) as X; [|exact X].
  destruct (existsb _ queried); [exact X|].
  destruct (transport _ _ _ _) as [response|ex]; [|exact X].
  pose proof (R3_handle_response_active n q response rest (queried ++ [srv])
                (Resolve3.set_log
                   (Resolve3.log st1 ++ [Resolve3.mkQuery depth srv n q]) st1)) as Z.
  destruct (Resolve3.handle_response _ _ _ _ _ _ _) as [[[r|ex'] st2|wl' qd' st2]|];
    [|done| |done]; (etrans; [exact Z|exact X]).
Qed.

End Nested.

Lemma R3_lookup_active fuel :
  (∀ depth n q st r st',
     Resolve3.lookup_at transport fuel depth n q st = Some (Ret r, st') →
     Resolve3.active_lookups st' ⊆ Resolve3.active_lookups st)
  ∧ (∀ depth n q wl queried st r st',
     Resolve3.lookup_loop transport fuel depth n q wl queried st = Some (Ret r, st') →
     Resolve3.active_lookups st' ⊆ Resolve3.active_lookups st).
Proof.
  induction fuel as [|fuel [IHa IHl]]; [by split|]. split.
  - intros depth n q st r st' H. cbn [Resolve3.lookup_at] in H.
    destruct (Resolve3.cache_check st n q) as [m|m|].
    + by injection H as <- <-.
    + destruct (Resolve3.first_target m) as [t|ex]; [by eapply IHa|done].
    + by eapply IHl.
  - intros depth n q wl queried st r st' H. rewrite R3_loop_S in H.
    pose proof (R3_loop_body_active (Resolve3.lookup_at transport fuel (S depth))
                  ltac:(intros ?????; apply IHa) depth n q wl queried st) as B.
    destruct (Resolve3.loop_body _ _ _ _ _ _ _ _) as [[[r1|ex] st1|wl' queried' st1]|];
      [by injection H as <- <-|done| |done].
    etrans; [by eapply IHl|exact B].
Qed.

End Resolve3Active.

(** X11.  When [lookup] returns (rather than raises), every name it
    added to [active_lookups] has been discarded again: the set
    afterwards holds no name that it did not hold before.  Both
    variants. *)
Theorem X11_active_lookups_restored :
  (∀ transport fuel depth target_name qtype st r st',
     Resolve.lookup_at transport fuel depth target_name qtype st = Some (Ret r, st') →
     Resolve.active_lookups st' ⊆ Resolve.active_lookups st)
  ∧ (∀ transport fuel depth target_name qtype st r st',
     Resolve3.lookup_at transport fuel depth target_name qtype st = Some (Ret r, st') →
     Resolve3.active_lookups st' ⊆ Resolve3.active_lookups st).
Proof.
  split.
  - intros transport fuel depth n q st r st'. apply R_lookup_loop_active.
  - intros transport fuel depth n q st r st'.
    apply (proj1 (R3_lookup_active transport fuel)).
Qed.

Lemma X11_active_lookups_witness :
  Resolve.active_lookups Scenario.chain_final
    ⊆ Resolve.active_lookups Resolve.empty_state
  ∧ Resolve3.active_lookups Scenario.chain_final3
      ⊆ Resolve3.active_lookups Resolve3.empty_state.
Proof.
  split.
  - exact (proj1 X11_active_lookups_restored Scenario.chain 20 0
             Scenario.example_com A Resolve.empty_state Scenario.final_answer
             Scenario.chain_final chain_run_at).
  - exact (proj2 X11_active_lookups_restored Scenario.chain3 20 0
             Scenario.example_com A Resolve3.empty_state Scenario.final_answer
             Scenario.chain_final3 chain_run3_at).
Defined.

(** ** What do_dns_query stores of a response *)

Lemma R_row_put_ne k t c ac k' t' :
  k ≠ k' ∨ t ≠ t' →
  Resolve.put k t c ac !! k' ≫= (λ r, r !! t') = ac !! k' ≫= (λ r, r !! t').
Proof.
  intros H. unfold Resolve.put.
  destruct (decide (k = k')) as [<-|Hk]; [|by rewrite lookup_insert_ne].
  destruct H as [H|H]; [done|].
  rewrite lookup_insert_eq. simpl. rewrite lookup_insert_ne by done.
  destruct (ac !! k); simpl; [done|apply lookup_empty].
Qed.

Section CacheFold.

Variable key : rrset → pykey.

(** An entry after the loop is the one from before, or the last
    record set of the list for that key and type. *)
Lemma R_file_all_entry l :
  ∀ ac k t,
    fold_left (R_file key) l ac !! k ≫= (λ r, r !! t) = ac !! k ≫= (λ r, r !! t)
    ∨ ∃ x, x ∈ l ∧ key x = k ∧ rr_type x = t
           ∧ fold_left (R_file key) l ac !! k ≫= (λ r, r !! t) = Some (Resolve.Pos x).
Proof.
  induction l as [|y l IH]; intros ac k t; [by left|].
  cbn [fold_left]. destruct (IH (R_file key ac y) k t) as [E|(x & Hx & Hk & Ht & E)].
  - rewrite E. unfold R_file.
    destruct (decide (key y = k ∧ rr_type y = t)) as [[<- <-]|Hn].
    + right. exists y. split; [by left|]. repeat split.
      apply R_row_put_eq.
    + left. apply R_row_put_ne.
      destruct (decide (key y = k)) as [Hk|Hk]; [|by left].
      right. intros Ht. by apply Hn.
  - right. exists x. split; [by right|done].
Qed.

Lemma R_file_all_stored l :
  ∀ ac x, x ∈ l →
    ∃ x', x' ∈ l ∧ key x' = key x ∧ rr_type x' = rr_type x
          ∧ fold_left (R_file key) l ac !! key x ≫= (λ r, r !! rr_type x)
            = Some (Resolve.Pos x').
Proof.
  induction l as [|y l IH]; intros ac x Hx; [by apply elem_of_nil in Hx|].
  cbn [fold_left]. apply elem_of_cons in Hx as [->|Hx].
  - destruct (R_file_all_entry l (R_file key ac y) (key y) (rr_type y))
      as [E|(x' & Hx' & Hk & Ht & E)].
    + exists y. split; [by left|]. repeat split.
      rewrite E. apply R_row_put_eq.
    + exists x'. split; [by right|done].
  - destruct (IH (R_file key ac y) x Hx) as (x' & Hx' & Hk & Ht & E).
    exists x'. split; [by right|done].
Qed.

End CacheFold.

Lemma R_ensure_row_is_Some k ac : is_Some (Resolve.ensure_row k ac !! k).
Proof.
  unfold Resolve.ensure_row. destruct (ac !! k) eqn:E; [by rewrite E|].
  by rewrite lookup_insert_eq.
Qed.

Lemma R_file_all_row key l : ∀ ac k, is_Some (ac !! k) → is_Some (fold_left (R_file key) l ac !! k).
Proof.
  induction l as [|y l IH]; intros ac k H; [done|].
  cbn [fold_left]. apply IH. unfold R_file, Resolve.put.
  destruct (decide (key y = k)) as [<-|Hk]; [by rewrite lookup_insert_eq|].
  by rewrite lookup_insert_ne.
Qed.

(** X12.  What [do_dns_query] stores of a response.  Every record set
    of the answer section is filed under the name that was asked for
    (whatever the owner of the record set) and its own type; every
    record set of the additional section is filed under its owner and
    its own type; where several record sets compete for one place, a
    later one of them is what the cache holds.  The name that was
    asked for has a row afterwards even when the answer section is
    empty, and the call is appended to the transport log. *)
Theorem X12_response_records_are_cached :
  ∀ transport depth target_name qtype srv wl st response,
    transport (Resolve.log st) srv target_name qtype = Response response →
    let st' := (Resolve.do_dns_query transport depth target_name qtype srv wl st).2 in
    (∀ rr, rr ∈ answer response →
       ∃ rr', Resolve.row st' target_name ≫= (λ r, r !! rr_type rr)
              = Some (Resolve.Pos rr')
              ∧ rr_type rr' = rr_type rr
              ∧ (rr' ∈ answer response
                 ∨ rr' ∈ additional response
                   ∧ labels (rr_name rr') = labels target_name))
    ∧ (∀ rr, rr ∈ additional response →
       ∃ rr', Resolve.row st' (rr_name rr) ≫= (λ r, r !! rr_type rr)
              = Some (Resolve.Pos rr')
              ∧ rr_type rr' = rr_type rr
              ∧ rr' ∈ additional response
              ∧ labels (rr_name rr') = labels (rr_name rr))
    ∧ is_Some (Resolve.row st' target_name)
    ∧ Resolve.log st'
      = Resolve.log st ++ [Resolve.mkQuery depth srv target_name qtype].
Proof.
  intros transport depth n q srv wl st response T st'.
  unfold st', Resolve.do_dns_query. rewrite T.
  destruct (Resolve.record_authority _ _ _) as [[eo wl'] auth].
  unfold Resolve.row. cbn [snd Resolve.answer_cache Resolve.log].
  unfold Resolve.cache_additional, Resolve.cache_answers.
  set (ac0 := Resolve.ensure_row (KLabels (labels n)) (Resolve.answer_cache st)).
  change (fold_left _ (answer response) ac0)
    with (fold_left (R_file (λ _, KLabels (labels n))) (answer response) ac0).
  set (ac1 := fold_left (R_file (λ _, KLabels (labels n))) (answer response) ac0).
  change (fold_left _ (additional response) ac1)
    with (fold_left (R_file (λ x, KLabels (labels (rr_name x)))) (additional response) ac1).
  repeat split.
  - intros rr Hrr.
    destruct (R_file_all_stored (λ _, KLabels (labels n)) (answer response) ac0 rr Hrr)
      as (x & Hx & _ & Ht & E). fold ac1 in E.
    destruct (R_file_all_entry (λ x, KLabels (labels (rr_name x)))
                (additional response) ac1 (KLabels (labels n)) (rr_type rr))
      as [E'|(y & Hy & Hk & Hty & E')].
    + exists x. rewrite E', E. by repeat split; [|left].
    + exists y. rewrite E'. repeat split; [done|right]. split; [done|]. by injection Hk.
  - intros rr Hrr.
    destruct (R_file_all_stored (λ x, KLabels (labels (rr_name x)))
                (additional response) ac1 rr Hrr) as (x & Hx & Hk & Ht & E).
    exists x. repeat split; [exact E|done..|by injection Hk].
  - apply R_file_all_row, R_file_all_row, R_ensure_row_is_Some.
Qed.

Lemma X12_response_records_witness :
  let st' := (Resolve.do_dns_query (Scenario.always Scenario.tld_referral) 0
                Scenario.example_com A (Resolve.SvAddr "192.5.6.30") []
                Resolve.empty_state).2 in
  (∀ rr, rr ∈ answer Scenario.tld_referral →
     ∃ rr', Resolve.row st' Scenario.example_com ≫= (λ r, r !! rr_type rr)
            = Some (Resolve.Pos rr')
            ∧ rr_type rr' = rr_type rr
            ∧ (rr' ∈ answer Scenario.tld_referral
               ∨ rr' ∈ additional Scenario.tld_referral
                 ∧ labels (rr_name rr') = labels Scenario.example_com))
  ∧ (∀ rr, rr ∈ additional Scenario.tld_referral →
     ∃ rr', Resolve.row st' (rr_name rr) ≫= (λ r, r !! rr_type rr)
            = Some (Resolve.Pos rr')
            ∧ rr_type rr' = rr_type rr
            ∧ rr' ∈ additional Scenario.tld_referral
            ∧ labels (rr_name rr') = labels (rr_name rr))
  ∧ is_Some (Resolve.row st' Scenario.example_com)
  ∧ Resolve.log st'
    = Resolve.log Resolve.empty_state
      ++ [Resolve.mkQuery 0 (Resolve.SvAddr "192.5.6.30") Scenario.example_com A].
Proof.
  exact (X12_response_records_are_cached (Scenario.always Scenario.tld_referral) 0
           Scenario.example_com A (Resolve.SvAddr "192.5.6.30") []
           Resolve.empty_state Scenario.tld_referral eq_refl).
Defined.

(** ** The glue scan of resolve3.py *)

Lemma R3_row_then_alter (auth : gmap pykey Resolve3.auth_row) k f :
  alter f k (match auth !! k with
             | Some _ => auth
             | None => <[k := Resolve3.fresh_row]> auth
             end)
  = <[k := f (default Resolve3.fresh_row (auth !! k))]> auth.
Proof.
  apply map_eq. intros i. destruct (decide (i = k)) as [->|Hi].
  - rewrite lookup_alter_eq, lookup_insert_eq.
    destruct (auth !! k) eqn:E; simpl; [by rewrite E|by rewrite lookup_insert_eq].
  - rewrite lookup_alter_ne, lookup_insert_ne by done.
    destruct (auth !! k); [done|by rewrite lookup_insert_ne].
Qed.

Lemma R3_add_addresses_cons a l r :
  R3_add_addresses l (Resolve3.add_address a r) = R3_add_addresses (a :: l) r.
Proof.
  unfold R3_add_addresses, Resolve3.add_address. simpl. by rewrite <- app_assoc.
Qed.

Lemma R3_scan_additional_glue target rr rd post :
  rr_type rr = A → head (items rr) = Some rd → name_eqb (rr_name rr) target = true →
  ∀ pre wl auth,
    Forall (R3_passed_over target) pre →
    Resolve3.scan_additional target (pre ++ rr :: post) wl auth
    = (None, true, wl ++ [(A, Resolve3.SvAddr (rdata_to_text rd))],
       <[KLabels (labels target) :=
           R3_add_addresses (omap R3_first_address pre ++ [rdata_to_text rd])
             (default Resolve3.fresh_row (auth !! KLabels (labels target)))]> auth).
Proof.
  intros Ht Hh Hn. induction pre as [|p pre IH]; intros wl auth F.
  - cbn [app Resolve3.scan_additional omap list_omap]. rewrite Ht, Hh, Hn.
    change (N.eqb A A) with true. cbn iota.
    by rewrite R3_row_then_alter.
  - apply Forall_cons_1 in F as [P F].
    cbn [app Resolve3.scan_additional omap list_omap]. unfold R3_first_address at 1.
    destruct (N.eqb (rr_type p) A) eqn:E.
    + apply N.eqb_eq in E. destruct (P E) as [Hp [rd0 Hrd0]].
      rewrite Hrd0, Hp. cbn [fmap option_fmap option_map].
      rewrite R3_row_then_alter, (IH _ _ F).
      rewrite lookup_insert_eq, insert_insert_eq. cbn [default from_option id].
      by rewrite R3_add_addresses_cons.
    + by rewrite (IH _ _ F).
Qed.

Lemma R3_scan_additional_no_address target adds :
  Forall (λ rr, rr_type rr ≠ A) adds →
  ∀ wl auth, Resolve3.scan_additional target adds wl auth = (None, false, wl, auth).
Proof.
  induction 1 as [|p adds P F IH]; intros wl auth; [done|].
  cbn [Resolve3.scan_additional].
  destruct (N.eqb (rr_type p) A) eqn:E; [by apply N.eqb_eq in E|apply IH].
Qed.

(** X13.  The glue scan that resolve3.py runs for one nameserver name
    of a referral.  It stops at the first record set of type A that
    the nameserver owns and pushes its first address on the worklist;
    on the way it has appended to the nameserver's address list in
    [authority_cache] the first address of every record set of type A
    that it read, those of other owners included.  When the
    additional section has no record set of type A, nothing is pushed
    or stored and no glue is reported. *)
Theorem X13_glue_scan :
  (∀ target pre rr rd post wl auth,
     Forall (R3_passed_over target) pre →
     rr_type rr = A → head (items rr) = Some rd →
     name_eqb (rr_name rr) target = true →
     Resolve3.scan_additional target (pre ++ rr :: post) wl auth
     = (None, true, wl ++ [(A, Resolve3.SvAddr (rdata_to_text rd))],
        <[KLabels (labels target) :=
            R3_add_addresses (omap R3_first_address pre ++ [rdata_to_text rd])
              (default Resolve3.fresh_row (auth !! KLabels (labels target)))]> auth))
  ∧ (∀ target adds wl auth,
     Forall (λ rr, rr_type rr ≠ A) adds →
     Resolve3.scan_additional target adds wl auth = (None, false, wl, auth)).
Proof.
  split.
  - intros target pre rr rd post wl auth F Ht Hh Hn.
    by apply R3_scan_additional_glue.
  - intros target adds wl auth F. by apply R3_scan_additional_no_address.
Qed.

Lemma X13_glue_scan_witness :
  Resolve3.scan_additional Scenario.ns1_example_com
    ([mkRRset Scenario.a_gtld A [RdAddr "192.5.6.30"]]
     ++ mkRRset Scenario.ns1_example_com A [RdAddr "10.0.0.1"] :: []) [] ∅
  = (None, true, [] ++ [(A, Resolve3.SvAddr (rdata_to_text (RdAddr "10.0.0.1")))],
     <[KLabels (labels Scenario.ns1_example_com) :=
         R3_add_addresses
           (omap R3_first_address [mkRRset Scenario.a_gtld A [RdAddr "192.5.6.30"]]
            ++ [rdata_to_text (RdAddr "10.0.0.1")])
           (default Resolve3.fresh_row
              ((∅ : gmap pykey Resolve3.auth_row)
                 !! KLabels (labels Scenario.ns1_example_com)))]> ∅)
  ∧ Resolve3.scan_additional Scenario.ns1_example_com
      [mkRRset Scenario.ns1_example_com AAAA [RdOther "2001:db8::1"]] [] ∅
    = (None, false, [], ∅).
Proof.
  split.
  - apply (proj1 X13_glue_scan Scenario.ns1_example_com
             [mkRRset Scenario.a_gtld A [RdAddr "192.5.6.30"]]
             (mkRRset Scenario.ns1_example_com A [RdAddr "10.0.0.1"])
             (RdAddr "10.0.0.1") [] [] ∅).
    + constructor; [|constructor].
      intros _. split; [by vm_compute|by eexists].
    + reflexivity.
    + reflexivity.
    + by vm_compute.
  - apply (proj2 X13_glue_scan). constructor; [discriminate|constructor].
Defined.

(** ** collect_results *)

Section CollectSteps.

Context {S : Type}.
Variable from_text : string → Name.
Variable lookup : Name → rdtype → S → option (result message * S).

(** A call that returns has made its four lookups in the order CNAME,
    A, AAAA, MX, each from the state the one before left. *)
Lemma collect_results_steps name st fr st' :
  collect_results_with from_text lookup name st = Some (Ret fr, st') →
  ∃ r1 st1 r2 st2 r3 st3 r4,
    lookup (from_text name) CNAME st = Some (Ret r1, st1)
    ∧ lookup (from_text name) A st1 = Some (Ret r2, st2)
    ∧ lookup (from_text name) AAAA st2 = Some (Ret r3, st3)
    ∧ lookup (from_text name) MX st3 = Some (Ret r4, st')
    ∧ fr_CNAME fr = alias_facts name r1
    ∧ fr_A fr = address_facts 1%N r2
    ∧ fr_AAAA fr = address_facts 28%N r3
    ∧ mail_facts (answer r4) = Ret (fr_MX fr).
Proof.
  unfold collect_results_with. intros H.
  destruct (lookup _ CNAME st) as [[[r1|ex] st1]|] eqn:L1; [|done..].
  destruct (lookup _ A st1) as [[[r2|ex] st2]|] eqn:L2; [|done..].
  destruct (lookup _ AAAA st2) as [[[r3|ex] st3]|] eqn:L3; [|done..].
  destruct (lookup _ MX st3) as [[[r4|ex] st4]|] eqn:L4; [|done..].
  destruct (mail_facts (answer r4)) as [mx|ex] eqn:M; [|done].
  injection H as <- <-. by exists r1, st1, r2, st2, r3, st3, r4.
Qed.

End CollectSteps.

Lemma alias_facts_one name r rr :
  answer r = [rr] → alias_facts name r = map (λ a, mkAlias a name) (items rr).
Proof. unfold alias_facts. intros ->. simpl. apply app_nil_r. Qed.

Lemma address_facts_one t r rr :
  answer r = [rr] → rr_type rr = t →
  address_facts t r = map (λ a, mkAddress (rr_name rr) (rdata_to_text a)) (items rr).
Proof.
  unfold address_facts. intros -> <-. simpl. rewrite app_nil_r, N.eqb_refl.
  induction (items rr) as [|a l IH]; [done|]. simpl. by rewrite IH.
Qed.

Lemma mail_facts_one rr mx :
  rr_type rr = MX → mail_facts [rr] = Ret mx →
  mail_facts_of (rr_name rr) (items rr) = Ret mx.
Proof.
  intros E. cbn [mail_facts]. rewrite E. change (N.eqb MX 15%N) with true. cbn iota.
  destruct (mail_facts_of _ _) as [l|ex]; [|done].
  rewrite app_nil_r. by intros [= ->].
Qed.

Lemma R_caches_grow_trans st1 st2 st3 :
  R_caches_grow st1 st2 → R_caches_grow st2 st3 → R_caches_grow st1 st3.
Proof.
  intros [A1 A2] [B1 B2].
  split; [by eapply keys_le_trans|by eapply map_keys_le_trans].
Qed.

Lemma R3_caches_grow_trans st1 st2 st3 :
  R3_caches_grow st1 st2 → R3_caches_grow st2 st3 → R3_caches_grow st1 st3.
Proof.
  intros [A1 A2] [B1 B2].
  split; [by eapply keys_le_trans|by eapply map_keys_le_trans].
Qed.

Section ResolveCollect.

Variable transport : list Resolve.query → Resolve.server → Name → rdtype → reply.

Lemma R_lookup_typed_answer fuel n q st r st' :
  R_well_typed st →
  Resolve.lookup transport fuel n q st = Some (Ret r, st') →
  R_well_typed st'
  ∧ (answer r = [] ∨ ∃ rr, answer r = [rr] ∧ rr_type rr = q).
Proof.
  intros W H.
  assert (R_well_typed st') as W' by by eapply R_lookup_loop_typed.
  split; [exact W'|].
  destruct (R_answers_from_cache transport _ _ _ _ _ _ _ _ _ H)
    as [E|(owner & rr & E1 & E2)]; [by left|].
  right. exists rr. split; [exact E2|]. by apply (W' (KLabels (labels owner)) q rr).
Qed.

Lemma R_collect_results_shape from_text fuel name st fr st' :
  R_well_typed st →
  Resolve.collect_results transport from_text fuel name st = Some (Ret fr, st') →
  (R_well_typed st' ∧ R_caches_grow st st'
   ∧ Resolve.active_lookups st' ⊆ Resolve.active_lookups st)
  ∧ (fr_CNAME fr = []
     ∨ ∃ rr, rr_type rr = CNAME
             ∧ fr_CNAME fr = map (λ a, mkAlias a name) (items rr))
  ∧ (fr_A fr = []
     ∨ ∃ rr, rr_type rr = A
             ∧ fr_A fr = map (λ a, mkAddress (rr_name rr) (rdata_to_text a)) (items rr))
  ∧ (fr_AAAA fr = []
     ∨ ∃ rr, rr_type rr = AAAA
             ∧ fr_AAAA fr
               = map (λ a, mkAddress (rr_name rr) (rdata_to_text a)) (items rr))
  ∧ (fr_MX fr = []
     ∨ ∃ rr, rr_type rr = MX
             ∧ mail_facts_of (rr_name rr) (items rr) = Ret (fr_MX fr)).
Proof.
  intros W H. unfold Resolve.collect_results in H.
  apply collect_results_steps
    in H as (r1 & st1 & r2 & st2 & r3 & st3 & r4 & L1 & L2 & L3 & L4 & F1 & F2 & F3 & F4).
  destruct (R_lookup_typed_answer _ _ _ _ _ _ W L1) as [W1 T1].
  destruct (R_lookup_typed_answer _ _ _ _ _ _ W1 L2) as [W2 T2].
  destruct (R_lookup_typed_answer _ _ _ _ _ _ W2 L3) as [W3 T3].
  destruct (R_lookup_typed_answer _ _ _ _ _ _ W3 L4) as [W4 T4].
  split; [split; [exact W4|split]|repeat split].
  - eapply R_caches_grow_trans; [by eapply R_lookup_loop_caches_grow|].
    eapply R_caches_grow_trans; [by eapply R_lookup_loop_caches_grow|].
    eapply R_caches_grow_trans; by eapply R_lookup_loop_caches_grow.
  - apply R_lookup_loop_active in L1, L2, L3, L4.
    etrans; [exact L4|]. etrans; [exact L3|]. by etrans.
  - rewrite F1. destruct T1 as [E|(rr & E & T)].
    + left. unfold alias_facts. by rewrite E.
    + right. exists rr. split; [done|by apply alias_facts_one].
  - rewrite F2. destruct T2 as [E|(rr & E & T)].
    + left. unfold address_facts. by rewrite E.
    + right. exists rr. split; [done|by apply address_facts_one].
  - rewrite F3. destruct T3 as [E|(rr & E & T)].
    + left. unfold address_facts. by rewrite E.
    + right. exists rr. split; [done|by apply address_facts_one].
  - destruct T4 as [E|(rr & E & T)].
    + left. rewrite E in F4. by injection F4.
    + right. exists rr. split; [done|]. rewrite E in F4. by apply mail_facts_one.
Qed.

End ResolveCollect.

Section Resolve3Collect.

Variable transport : list Resolve3.query → Resolve3.server → Name → rdtype → reply.

Lemma R3_collect_results_kept from_text fuel name st fr st' :
  R3_well_typed st →
  Resolve3.collect_results transport from_text fuel name st = Some (Ret fr, st') →
  R3_well_typed st' ∧ R3_caches_grow st st'
  ∧ Resolve3.active_lookups st' ⊆ Resolve3.active_lookups st.
Proof.
  intros W H. unfold Resolve3.collect_results in H.
  apply collect_results_steps
    in H as (r1 & st1 & r2 & st2 & r3 & st3 & r4 & L1 & L2 & L3 & L4 & _).
  pose proof (proj1 (R3_lookup_typed transport fuel) _ _ _ _ _ _ L1 W) as W1.
  pose proof (proj1 (R3_lookup_typed transport fuel) _ _ _ _ _ _ L2 W1) as W2.
  pose proof (proj1 (R3_lookup_typed transport fuel) _ _ _ _ _ _ L3 W2) as W3.
  pose proof (proj1 (R3_lookup_typed transport fuel) _ _ _ _ _ _ L4 W3) as W4.
  split; [exact W4|split].
  - eapply R3_caches_grow_trans; [by eapply R3_lookup_caches_grow|].
    eapply R3_caches_grow_trans; [by eapply R3_lookup_caches_grow|].
    eapply R3_caches_grow_trans; by eapply R3_lookup_caches_grow.
  - apply (proj1 (R3_lookup_active transport fuel)) in L1, L2, L3, L4.
    etrans; [exact L4|]. etrans; [exact L3|]. by etrans.
Qed.

End Resolve3Collect.

(** X14.  [collect_results], started with a record cache whose
    entries are filed under their own type (the empty cache, for
    one).  When it returns, the cache is still so, nothing was
    removed from the caches and no name was left in
    [active_lookups]; both variants.  In resolve.py each of the four
    lists is empty or comes from one record set of the type of that
    list, one entry per record: the tests [answer.rdtype == 1] (28,
    15) never drop a record, and the alias list, which has no such
    test, holds CNAME records only. *)
Theorem X14_collect_results :
  (∀ transport from_text fuel name st fr st',
     R_well_typed st →
     Resolve.collect_results transport from_text fuel name st = Some (Ret fr, st') →
     (R_well_typed st' ∧ R_caches_grow st st'
      ∧ Resolve.active_lookups st' ⊆ Resolve.active_lookups st)
     ∧ (fr_CNAME fr = []
        ∨ ∃ rr, rr_type rr = CNAME
                ∧ fr_CNAME fr = map (λ a, mkAlias a name) (items rr))
     ∧ (fr_A fr = []
        ∨ ∃ rr, rr_type rr = A
                ∧ fr_A fr
                  = map (λ a, mkAddress (rr_name rr) (rdata_to_text a)) (items rr))
     ∧ (fr_AAAA fr = []
        ∨ ∃ rr, rr_type rr = AAAA
                ∧ fr_AAAA fr
                  = map (λ a, mkAddress (rr_name rr) (rdata_to_text a)) (items rr))
     ∧ (fr_MX fr = []
        ∨ ∃ rr, rr_type rr = MX
                ∧ mail_facts_of (rr_name rr) (items rr) = Ret (fr_MX fr)))
  ∧ (∀ transport from_text fuel name st fr st',
     R3_well_typed st →
     Resolve3.collect_results transport from_text fuel name st = Some (Ret fr, st') →
     R3_well_typed st' ∧ R3_caches_grow st st'
     ∧ Resolve3.active_lookups st' ⊆ Resolve3.active_lookups st).
Proof.
  split.
  - intros transport from_text fuel name st fr st'. apply R_collect_results_shape.
  - intros transport from_text fuel name st fr st'. apply R3_collect_results_kept.
Qed.

Lemma collected_run :
  Resolve.collect_results Scenario.chain (λ _, Scenario.example_com) 30 "example.com."
    Resolve.empty_state
  = Some (Ret (Scenario.facts_of Scenario.collected), Scenario.collected_final).
Proof. vm_compute. reflexivity. Qed.

Lemma collected_run3 :
  Resolve3.collect_results Scenario.chain3 (λ _, Scenario.example_com) 30 "example.com."
    Resolve3.empty_state
  = Some (Ret (Scenario.facts_of Scenario.collected3), Scenario.collected_final3).
Proof. vm_compute. reflexivity. Qed.

Lemma X14_collect_results_witness :
  ((R_well_typed Scenario.collected_final
    ∧ R_caches_grow Resolve.empty_state Scenario.collected_final
    ∧ Resolve.active_lookups Scenario.collected_final
        ⊆ Resolve.active_lookups Resolve.empty_state)
   ∧ (fr_CNAME (Scenario.facts_of Scenario.collected) = []
      ∨ ∃ rr, rr_type rr = CNAME
              ∧ fr_CNAME (Scenario.facts_of Scenario.collected)
                = map (λ a, mkAlias a "example.com.") (items rr))
   ∧ (fr_A (Scenario.facts_of Scenario.collected) = []
      ∨ ∃ rr, rr_type rr = A
              ∧ fr_A (Scenario.facts_of Scenario.collected)
                = map (λ a, mkAddress (rr_name rr) (rdata_to_text a)) (items rr))
   ∧ (fr_AAAA (Scenario.facts_of Scenario.collected) = []
      ∨ ∃ rr, rr_type rr = AAAA
              ∧ fr_AAAA (Scenario.facts_of Scenario.collected)
                = map (λ a, mkAddress (rr_name rr) (rdata_to_text a)) (items rr))
   ∧ (fr_MX (Scenario.facts_of Scenario.collected) = []
      ∨ ∃ rr, rr_type rr = MX
              ∧ mail_facts_of (rr_name rr) (items rr)
                = Ret (fr_MX (Scenario.facts_of Scenario.collected))))
  ∧ (R3_well_typed Scenario.collected_final3
     ∧ R3_caches_grow Resolve3.empty_state Scenario.collected_final3
     ∧ Resolve3.active_lookups Scenario.collected_final3
         ⊆ Resolve3.active_lookups Resolve3.empty_state).
Proof.
  split.
  - exact (proj1 X14_collect_results Scenario.chain (λ _, Scenario.example_com) 30
             "example.com." Resolve.empty_state (Scenario.facts_of Scenario.collected)
             Scenario.collected_final R_well_typed_empty collected_run).
  - exact (proj2 X14_collect_results Scenario.chain3 (λ _, Scenario.example_com) 30
             "example.com." Resolve3.empty_state (Scenario.facts_of Scenario.collected3)
             Scenario.collected_final3 R3_well_typed_empty collected_run3).
Defined.

(** ** Referrals without glue in resolve3.py *)

Lemma R3_push_known_row auth zone r r' t :
  auth !! zone = Some r → Resolve3.ar_a r' = Resolve3.ar_a r →
  R3_push_known (<[zone := r']> auth) t = R3_push_known auth t.
Proof.
  intros H E. unfold R3_push_known.
  destruct (decide (zone = KLabels (labels t))) as [->|Hz].
  - by rewrite lookup_insert_eq, H, E.
  - by rewrite lookup_insert_ne.
Qed.

Lemma R3_record_ns_targets_no_glue zone adds :
  Forall (λ rr, rr_type rr ≠ A) adds →
  ∀ ts wl auth r,
    auth !! zone = Some r →
    Resolve3.record_ns_targets zone adds (map RdTarget ts) wl auth
    = (None, wl ++ flat_map (R3_push_known auth) ts,
       <[zone := R3_add_names ts r]> auth).
Proof.
  intros F. induction ts as [|t ts IH]; intros wl auth r H.
  - simpl. by rewrite app_nil_r, insert_id.
  - cbn [map Resolve3.record_ns_targets rd_target flat_map R3_add_names fold_left].
    rewrite H.
    set (r1 := if bool_decide (labels t ∈ Resolve3.ar_cname r) then r
               else Resolve3.add_name (labels t) r).
    assert ((if bool_decide (labels t ∈ Resolve3.ar_cname r) then auth
             else <[zone := Resolve3.add_name (labels t) r]> auth)
            = <[zone := r1]> auth) as ->.
    { unfold r1. destruct (bool_decide _); [by rewrite insert_id|done]. }
    assert (Resolve3.ar_a r1 = Resolve3.ar_a r) as Ea.
    { unfold r1. by destruct (bool_decide _). }
    rewrite (R3_scan_additional_no_address t adds F).
    fold (R3_push_known (<[zone := r1]> auth) t).
    assert (∀ wl0, (match <[zone := r1]> auth !! KLabels (labels t) with
                    | Some r' => wl0 ++ map (λ s, (A, Resolve3.SvAddr s)) (Resolve3.ar_a r')
                    | None => wl0 ++ [(CNAME, Resolve3.SvName t)]
                    end) = wl0 ++ R3_push_known (<[zone := r1]> auth) t) as ->.
    { intros wl0. unfold R3_push_known.
      by destruct (<[zone := r1]> auth !! KLabels (labels t)). }
    rewrite (IH _ _ r1) by apply lookup_insert_eq.
    rewrite insert_insert_eq, <- app_assoc.
    rewrite (R3_push_known_row auth zone r r1 t H Ea).
    rewrite (flat_map_agree (R3_push_known (<[zone := r1]> auth))
               (R3_push_known auth) ts); [done|].
    intros t' _. by apply (R3_push_known_row auth zone r r1).
Qed.

(** X15.  A referral of resolve3.py that comes without any address
    record.  The NS record set gives its zone a fresh row that lists
    the nameserver names in order, each once; for each name the
    worklist gets the addresses that [authority_cache] already has
    for it if the name has a row there (nothing at all when that row
    has no address), and otherwise the name itself, to be resolved.
    Record sets of another type are passed over. *)
Theorem X15_referral_without_glue :
  (∀ zone ts rest adds wl auth,
     label_keyed auth →
     Forall (λ rr, rr_type rr ≠ A) adds →
     Resolve3.record_authority adds (mkRRset zone NS (map RdTarget ts) :: rest) wl auth
     = Resolve3.record_authority adds rest
         (wl ++ flat_map
                  (R3_push_known (<[KLabels (labels zone) := Resolve3.fresh_row]> auth))
                  ts)
         (<[KLabels (labels zone) := R3_add_names ts Resolve3.fresh_row]> auth))
  ∧ (∀ adds rr rest wl auth,
     rr_type rr ≠ NS →
     Resolve3.record_authority adds (rr :: rest) wl auth
     = Resolve3.record_authority adds rest wl auth).
Proof.
  split.
  - intros zone ts rest adds wl auth K F.
    cbn [Resolve3.record_authority rr_type rr_name items].
    change (N.eqb NS NS) with true. cbn iota.
    rewrite (K (canon zone)).
    rewrite (R3_record_ns_targets_no_glue _ adds F ts wl _ Resolve3.fresh_row)
      by apply lookup_insert_eq.
    by rewrite insert_insert_eq.
  - intros adds rr rest wl auth H. cbn [Resolve3.record_authority].
    by apply N.eqb_neq in H as ->.
Qed.

Lemma X15_referral_witness :
  Resolve3.record_authority []
    (mkRRset Scenario.example_com NS
       (map RdTarget [Scenario.ns1_example_com; Scenario.example_com]) :: [])
    [] (Resolve3.authority_cache Scenario.zone_without_glue)
  = Resolve3.record_authority [] []
      ([] ++ flat_map
               (R3_push_known
                  (<[KLabels (labels Scenario.example_com) := Resolve3.fresh_row]>
                     (Resolve3.authority_cache Scenario.zone_without_glue)))
               [Scenario.ns1_example_com; Scenario.example_com])
      (<[KLabels (labels Scenario.example_com) :=
           R3_add_names [Scenario.ns1_example_com; Scenario.example_com]
             Resolve3.fresh_row]>
         (Resolve3.authority_cache Scenario.zone_without_glue))
  ∧ Resolve3.record_authority [] (Scenario.address_record :: []) [] ∅
    = Resolve3.record_authority [] [] [] ∅.
Proof.
  split.
  - apply (proj1 X15_referral_without_glue Scenario.example_com
             [Scenario.ns1_example_com; Scenario.example_com] [] []
             [] (Resolve3.authority_cache Scenario.zone_without_glue)).
    + apply label_keyed_zone_without_glue.
    + constructor.
  - apply (proj2 X15_referral_without_glue [] Scenario.address_record [] [] ∅).
    discriminate.
Defined.

(** ** A nameserver whose address is in the record cache *)

Lemma active_discard_add (n : Name) (s : gset (list string)) :
  active_mem n s = false → active_discard n (active_add n s) = s.
Proof.
  unfold active_mem, active_discard, active_add. intros H.
  apply bool_decide_eq_false in H. apply set_eq. intros x.
  rewrite elem_of_difference, elem_of_union, elem_of_singleton. split.
  - intros [[->|Hx] Hn]; done.
  - intros Hx. split; [by right|]. by intros ->.
Qed.

Lemma R_set_active_same st : Resolve.set_active (Resolve.active_lookups st) st = st.
Proof. by destruct st. Qed.

Lemma R3_set_active_same st : Resolve3.set_active (Resolve3.active_lookups st) st = st.
Proof. by destruct st. Qed.

Section ResolveCachedServer.

Variable transport : list Resolve.query → Resolve.server → Name → rdtype → reply.

Lemma R_resolve_dns_cname_cached fuel depth n rr rd st :
  R_label_keyed st →
  active_mem n (Resolve.active_lookups st) = false →
  Resolve.row st n ≫= (λ r, r !! A) = Some (Resolve.Pos rr) →
  head (items rr) = Some rd →
  Resolve.resolve_dns_cname (Resolve.lookup_at transport (S fuel) depth)
    (Resolve.SvName n) st
  = Some (Ret (Resolve.SvAddr (rdata_to_text rd)), st).
Proof.
  intros K Ha Hr Hh. unfold Resolve.resolve_dns_cname.
  rewrite Ha, (K (canon n)). cbn [mbind option_bind].
  rewrite (R_lookup_hit transport fuel depth n A (Resolve.Pos rr)) by by apply R_row_Hit.
  unfold Resolve.response_of. destruct (items rr) as [|rd' l] eqn:E; [done|].
  injection Hh as ->. cbn [length Nat.ltb Nat.leb answer head].
  rewrite E. cbn [head]. cbn [Resolve.active_lookups Resolve.set_active].
  rewrite (active_discard_add n _ Ha).
  by destruct st.
Qed.

End ResolveCachedServer.

Section Resolve3CachedServer.

Variable transport : list Resolve3.query → Resolve3.server → Name → rdtype → reply.

Lemma R3_select_server_cached fuel depth target n m rr rest rd st :
  active_mem target (Resolve3.active_lookups st) = false →
  labels target ≠ labels n →
  Resolve3.row st n ≫= (λ r, r !! A) = Some m →
  answer m = rr :: rest → head (items rr) = Some rd →
  Resolve3.select_server (Resolve3.lookup_at transport (S fuel) depth) target
    (CNAME, Resolve3.SvName n) st
  = Some (Ret (Some (Resolve3.SvAddr (rdata_to_text rd))), st).
Proof.
  intros Ha Hl Hr Hm Hh. unfold Resolve3.select_server. cbn [fst snd].
  change (N.eqb CNAME CNAME) with true. cbn iota.
  rewrite Ha, (bool_decide_eq_true_2 _ Hl).
  rewrite (R3_lookup_hit transport fuel depth n A m) by by apply R3_row_Hit.
  rewrite Hm, Hh. cbn [Resolve3.active_lookups Resolve3.set_active].
  rewrite (active_discard_add target _ Ha).
  by destruct st.
Qed.

End Resolve3CachedServer.

(** X16.  A nameserver name that a referral put on the worklist, and
    whose address record is in the record cache, is resolved without
    a transport call: the nested lookup answers from the cache, the
    text of the first address is what gets queried next, and the
    whole state is as before, [active_lookups] included.  In
    resolve.py the address may have come from the additional section
    of any earlier response; in resolve3.py from a response to a
    lookup of the nameserver's own name. *)
Theorem X16_cached_nameserver_address :
  (∀ transport fuel depth n rr rd st,
     R_label_keyed st →
     active_mem n (Resolve.active_lookups st) = false →
     Resolve.row st n ≫= (λ r, r !! A) = Some (Resolve.Pos rr) →
     head (items rr) = Some rd →
     Resolve.resolve_dns_cname (Resolve.lookup_at transport (S fuel) depth)
       (Resolve.SvName n) st
     = Some (Ret (Resolve.SvAddr (rdata_to_text rd)), st))
  ∧ (∀ transport fuel depth target_name n m rr rest rd st,
     active_mem target_name (Resolve3.active_lookups st) = false →
     labels target_name ≠ labels n →
     Resolve3.row st n ≫= (λ r, r !! A) = Some m →
     answer m = rr :: rest → head (items rr) = Some rd →
     Resolve3.select_server (Resolve3.lookup_at transport (S fuel) depth) target_name
       (CNAME, Resolve3.SvName n) st
     = Some (Ret (Some (Resolve3.SvAddr (rdata_to_text rd))), st)).
Proof.
  split.
  - intros transport fuel depth n rr rd st. apply R_resolve_dns_cname_cached.
  - intros transport fuel depth target n m rr rest rd st.
    apply R3_select_server_cached.
Qed.

Lemma R_lookup_at_label_keyed transport fuel depth n q st res st' :
  Resolve.lookup_at transport fuel depth n q st = Some (res, st') →
  R_label_keyed st → R_label_keyed st'.
Proof. apply R_lookup_loop_label_keyed. Qed.

Lemma R_label_keyed_chain_final : R_label_keyed Scenario.chain_final.
Proof.
  exact (R_lookup_at_label_keyed Scenario.chain 20 0 Scenario.example_com A
           Resolve.empty_state (Ret Scenario.final_answer) Scenario.chain_final
           chain_run_at R_label_keyed_empty).
Qed.

Lemma X16_cached_nameserver_witness :
  Resolve.resolve_dns_cname (Resolve.lookup_at Scenario.chain 1 0)
    (Resolve.SvName Scenario.ns1_example_com) Scenario.chain_final
  = Some (Ret (Resolve.SvAddr (rdata_to_text (RdAddr "10.0.0.1"))), Scenario.chain_final)
  ∧ Resolve3.select_server (Resolve3.lookup_at Scenario.chain3 1 0)
      Scenario.www_example_com (CNAME, Resolve3.SvName Scenario.example_com)
      Scenario.chain_final3
    = Some (Ret (Some (Resolve3.SvAddr (rdata_to_text (RdAddr "93.184.216.34")))),
            Scenario.chain_final3).
Proof.
  split.
  - apply (proj1 X16_cached_nameserver_address Scenario.chain 0 0
             Scenario.ns1_example_com
             (mkRRset Scenario.ns1_example_com A [RdAddr "10.0.0.1"])
             (RdAddr "10.0.0.1") Scenario.chain_final).
    + exact R_label_keyed_chain_final.
    + vm_compute. reflexivity.
    + vm_compute. reflexivity.
    + reflexivity.
  - apply (proj2 X16_cached_nameserver_address Scenario.chain3 0 0
             Scenario.www_example_com Scenario.example_com Scenario.final_answer
             Scenario.address_record [] (RdAddr "93.184.216.34")
             Scenario.chain_final3).
    + vm_compute. reflexivity.
    + discriminate.
    + vm_compute. reflexivity.
    + reflexivity.
    + reflexivity.
Defined.

(** ** Glue records in resolve.py *)

Section ResolveGlue.

Variable transport : list Resolve.query → Resolve.server → Name → rdtype → reply.

Lemma R_do_dns_query_additional depth n q srv wl st response rr :
  transport (Resolve.log st) srv n q = Response response →
  rr ∈ additional response →
  ∃ rr', Resolve.row (Resolve.do_dns_query transport depth n q srv wl st).2 (rr_name rr)
           ≫= (λ r, r !! rr_type rr) = Some (Resolve.Pos rr')
         ∧ rr_type rr' = rr_type rr
         ∧ rr' ∈ additional response
         ∧ labels (rr_name rr') = labels (rr_name rr).
Proof.
  intros T Hrr. unfold Resolve.do_dns_query. rewrite T.
  destruct (Resolve.record_authority _ _ _) as [[eo wl'] auth].
  unfold Resolve.row. cbn [snd Resolve.answer_cache].
  unfold Resolve.cache_additional.
  set (ac1 := Resolve.cache_answers n (answer response) _).
  change (fold_left _ (additional response) ac1)
    with (fold_left (R_file (λ x, KLabels (labels (rr_name x)))) (additional response) ac1).
  destruct (R_file_all_stored (λ x, KLabels (labels (rr_name x)))
              (additional response) ac1 rr Hrr) as (x & Hx & Hk & Ht & E).
  exists x. repeat split; [exact E|done..|by injection Hk].
Qed.

Lemma R_do_dns_query_active depth n q srv wl st :
  Resolve.active_lookups (Resolve.do_dns_query transport depth n q srv wl st).2
  = Resolve.active_lookups st.
Proof.
  unfold Resolve.do_dns_query. destruct (transport _ _ _ _); [|done].
  by destruct (Resolve.record_authority _ _ _) as [[eo wl'] auth].
Qed.

Lemma R_glue_is_used fuel depth depth' n q srv wl st response rr rd ns :
  transport (Resolve.log st) srv n q = Response response →
  rr ∈ additional response → rr_type rr = A → labels (rr_name rr) = labels ns →
  (∀ rr', rr' ∈ additional response → rr_type rr' = A →
          labels (rr_name rr') = labels ns → head (items rr') = Some rd) →
  R_label_keyed st →
  active_mem ns (Resolve.active_lookups st) = false →
  Resolve.resolve_dns_cname (Resolve.lookup_at transport (S fuel) depth')
    (Resolve.SvName ns) (Resolve.do_dns_query transport depth n q srv wl st).2
  = Some (Ret (Resolve.SvAddr (rdata_to_text rd)),
          (Resolve.do_dns_query transport depth n q srv wl st).2).
Proof.
  intros T Hrr Ht Hl Hall K Ha.
  destruct (R_do_dns_query_additional depth n q srv wl st response rr T Hrr)
    as (rr' & E & Ht' & Hin & Hl').
  apply (R_resolve_dns_cname_cached transport fuel depth' ns rr' rd).
  - by apply R_do_dns_query_label_keyed.
  - by rewrite R_do_dns_query_active.
  - unfold Resolve.row in *. by rewrite <- Hl, <- Ht.
  - apply Hall; [done|congruence|congruence].
Qed.

End ResolveGlue.

(** X17.  Glue is used.  When a response carries, in its additional
    section, an address record set for a nameserver, [do_dns_query]
    stores it and a following [resolve_dns_cname] of that nameserver
    returns the text of its first address without a transport call
    and without changing the state.  The owner of the record set has
    to be spelled as the nameserver name is, letter for letter. *)
Theorem X17_glue_is_used :
  ∀ transport fuel depth depth' target_name qtype srv wl st response rr rd ns,
    transport (Resolve.log st) srv target_name qtype = Response response →
    rr ∈ additional response → rr_type rr = A → labels (rr_name rr) = labels ns →
    (∀ rr', rr' ∈ additional response → rr_type rr' = A →
            labels (rr_name rr') = labels ns → head (items rr') = Some rd) →
    R_label_keyed st →
    active_mem ns (Resolve.active_lookups st) = false →
    let st' := (Resolve.do_dns_query transport depth target_name qtype srv wl st).2 in
    Resolve.resolve_dns_cname (Resolve.lookup_at transport (S fuel) depth')
      (Resolve.SvName ns) st'
    = Some (Ret (Resolve.SvAddr (rdata_to_text rd)), st').
Proof.
  intros transport fuel depth depth' n q srv wl st response rr rd ns T Hrr Ht Hl Hall K Ha.
  by eapply R_glue_is_used.
Qed.

Lemma X17_glue_witness :
  let st' := (Resolve.do_dns_query (Scenario.always Scenario.tld_referral) 0
                Scenario.example_com A (Resolve.SvAddr "192.5.6.30") []
                Resolve.empty_state).2 in
  Resolve.resolve_dns_cname
    (Resolve.lookup_at (Scenario.always Scenario.tld_referral) 1 1)
    (Resolve.SvName Scenario.ns1_example_com) st'
  = Some (Ret (Resolve.SvAddr (rdata_to_text (RdAddr "10.0.0.1"))), st').
Proof.
  apply (X17_glue_is_used (Scenario.always Scenario.tld_referral) 0 0 1
           Scenario.example_com A (Resolve.SvAddr "192.5.6.30") []
           Resolve.empty_state Scenario.tld_referral
           (mkRRset Scenario.ns1_example_com A [RdAddr "10.0.0.1"])
           (RdAddr "10.0.0.1") Scenario.ns1_example_com).
  - reflexivity.
  - simpl. apply list_elem_of_singleton. reflexivity.
  - reflexivity.
  - reflexivity.
  - simpl. intros rr' H _ _. apply list_elem_of_singleton in H. by rewrite H.
  - apply R_label_keyed_empty.
  - vm_compute. reflexivity.
Defined.


(** ** Keys of the caches, store by store *)

Lemma R_file_all_frame key l :
  ∀ ac k, (∀ x, x ∈ l → key x ≠ k) → fold_left (R_file key) l ac !! k = ac !! k.
Proof.
  induction l as [|y l IH]; intros ac k H; [done|].
  cbn [fold_left]. rewrite IH by (intros x Hx; apply H; by right).
  unfold R_file, Resolve.put. apply lookup_insert_ne, H. by left.
Qed.

Lemma R_record_ns_targets_frame zone rds :
  ∀ wl auth k, k ≠ zone →
    (Resolve.record_ns_targets zone rds wl auth).2 !! k = auth !! k.
Proof.
  induction rds as [|rd rds IH]; intros wl auth k H; [done|].
  cbn [Resolve.record_ns_targets]. destruct (rd_target rd); [|done].
  rewrite IH by done. by apply lookup_insert_ne.
Qed.

Lemma R_record_authority_frame rrs :
  ∀ wl auth k,
    (∀ rr, rr ∈ rrs → KLabels (labels (rr_name rr)) ≠ k) →
    (Resolve.record_authority rrs wl auth).2 !! k = auth !! k.
Proof.
  induction rrs as [|rr rrs IH]; intros wl auth k H; [done|].
  assert (∀ x, x ∈ rrs → KLabels (labels (rr_name x)) ≠ k) as H'
    by (intros x Hx; apply H; by right).
  assert (k ≠ KLabels (labels (rr_name rr))) as Hk
    by (intros ->; by apply (H rr); [left|]).
  cbn [Resolve.record_authority]. destruct (_ && _); [|by apply IH].
  pose proof (R_record_ns_targets_frame (KLabels (labels (rr_name rr))) (items rr) wl
                (<[KLabels (labels (rr_name rr)) := []]> auth) k Hk) as F.
  destruct (Resolve.record_ns_targets _ _ _ _) as [[[ex|] wl1] auth1]; simpl in F.
  - simpl. rewrite F. by apply lookup_insert_ne.
  - rewrite IH by done. rewrite F. by apply lookup_insert_ne.
Qed.

Lemma R_record_ns_targets_ok zone rds :
  Forall (λ rd, is_Some (rd_target rd)) rds →
  ∀ wl auth, (Resolve.record_ns_targets zone rds wl auth).1.1 = None.
Proof.
  induction 1 as [|rd rds [t Ht] F IH]; intros wl auth; [done|].
  cbn [Resolve.record_ns_targets]. rewrite Ht. apply IH.
Qed.

Lemma R_record_authority_zone rrs :
  Forall (λ rr, Forall (λ rd, is_Some (rd_target rd)) (items rr)) rrs →
  ∀ wl auth rr,
    rr ∈ rrs → rr_type rr = NS → items rr ≠ [] →
    is_Some ((Resolve.record_authority rrs wl auth).2 !! KLabels (labels (rr_name rr))).
Proof.
  induction 1 as [|rr0 rrs T0 F IH]; intros wl auth rr Hrr Ht Hi;
    [by apply elem_of_nil in Hrr|].
  cbn [Resolve.record_authority].
  destruct (N.eqb (rr_type rr0) NS && Nat.ltb 0 (length (items rr0))) eqn:E.
  - pose proof (R_record_ns_targets_ok (KLabels (labels (rr_name rr0))) _ T0 wl
                  (<[KLabels (labels (rr_name rr0)) := []]> auth)) as Ok.
    pose proof (R_record_ns_targets_keys (KLabels (labels (rr_name rr0))) (items rr0) wl
                  (<[KLabels (labels (rr_name rr0)) := []]> auth)) as K.
    destruct (Resolve.record_ns_targets _ _ _ _) as [[[ex|] wl1] auth1];
      simpl in Ok, K; [done|].
    apply elem_of_cons in Hrr as [->|Hrr]; [|by apply IH].
    apply R_record_authority_keys, K. rewrite lookup_insert_eq. by eexists.
  - apply elem_of_cons in Hrr as [->|Hrr]; [|by apply IH].
    rewrite Ht in E. change (N.eqb NS NS) with true in E.
    destruct (items rr0); [done|discriminate].
Qed.

Section ResolveStores.

Variable transport : list Resolve.query → Resolve.server → Name → rdtype → reply.

Lemma R_do_dns_query_answer_found depth n q srv wl st response rr :
  transport (Resolve.log st) srv n q = Response response →
  rr ∈ answer response →
  is_Some (Resolve.row (Resolve.do_dns_query transport depth n q srv wl st).2 n
             ≫= (λ r, r !! rr_type rr)).
Proof.
  intros T Hrr. unfold Resolve.do_dns_query. rewrite T.
  destruct (Resolve.record_authority _ _ _) as [[eo wl'] auth].
  unfold Resolve.row. cbn [snd Resolve.answer_cache].
  unfold Resolve.cache_additional, Resolve.cache_answers.
  set (ac0 := Resolve.ensure_row (KLabels (labels n)) (Resolve.answer_cache st)).
  change (fold_left _ (answer response) ac0)
    with (fold_left (R_file (λ _, KLabels (labels n))) (answer response) ac0).
  destruct (R_file_all_stored (λ _, KLabels (labels n)) (answer response) ac0 rr Hrr)
    as (x & _ & _ & _ & E).
  apply (keys_le_fold
           (λ ac server_rr,
              Resolve.put (KLabels (labels (rr_name server_rr))) (rr_type server_rr)
                (Resolve.Pos server_rr) ac)
           (additional response)
           ltac:(intros; apply keys_le_insert_row) _ (KLabels (labels n)) (rr_type rr)).
  unfold has_entry. rewrite E. by eexists.
Qed.

Lemma R_do_dns_query_row_frame depth n q srv wl st response n' :
  transport (Resolve.log st) srv n q = Response response →
  labels n' ≠ labels n →
  (∀ rr, rr ∈ additional response → labels n' ≠ labels (rr_name rr)) →
  Resolve.row (Resolve.do_dns_query transport depth n q srv wl st).2 n'
  = Resolve.row st n'.
Proof.
  intros T Hn Hadd. unfold Resolve.do_dns_query. rewrite T.
  destruct (Resolve.record_authority _ _ _) as [[eo wl'] auth].
  unfold Resolve.row. cbn [snd Resolve.answer_cache].
  unfold Resolve.cache_additional, Resolve.cache_answers.
  set (ac0 := Resolve.ensure_row (KLabels (labels n)) (Resolve.answer_cache st)).
  change (fold_left _ (answer response) ac0)
    with (fold_left (R_file (λ _, KLabels (labels n))) (answer response) ac0).
  set (ac1 := fold_left (R_file (λ _, KLabels (labels n))) (answer response) ac0).
  change (fold_left _ (additional response) ac1)
    with (fold_left (R_file (λ x, KLabels (labels (rr_name x)))) (additional response) ac1).
  rewrite R_file_all_frame
    by (intros x Hx [= E]; by apply (Hadd x)).
  unfold ac1. rewrite R_file_all_frame by (intros x _ [= E]; by apply Hn).
  unfold ac0, Resolve.ensure_row. destruct (_ !! KLabels (labels n)); [done|].
  apply lookup_insert_ne. intros [= E]. by apply Hn.
Qed.

Lemma R_do_dns_query_zone_found depth n q srv wl st response rr :
  transport (Resolve.log st) srv n q = Response response →
  Forall (λ rr, Forall (λ rd, is_Some (rd_target rd)) (items rr)) (authority response) →
  rr ∈ authority response → rr_type rr = NS → items rr ≠ [] →
  is_Some (Resolve.authority_cache (Resolve.do_dns_query transport depth n q srv wl st).2
             !! KLabels (labels (rr_name rr))).
Proof.
  intros T F Hrr Ht Hi. unfold Resolve.do_dns_query. rewrite T.
  pose proof (R_record_authority_zone (authority response) F wl
                (Resolve.authority_cache st) rr Hrr Ht Hi) as Z.
  by destruct (Resolve.record_authority _ _ _) as [[eo wl'] auth].
Qed.

Lemma R_do_dns_query_authority_frame depth n q srv wl st response z' :
  transport (Resolve.log st) srv n q = Response response →
  (∀ rr, rr ∈ authority response → labels z' ≠ labels (rr_name rr)) →
  Resolve.authority_cache (Resolve.do_dns_query transport depth n q srv wl st).2
    !! KLabels (labels z')
  = Resolve.authority_cache st !! KLabels (labels z').
Proof.
  intros T H. unfold Resolve.do_dns_query. rewrite T.
  pose proof (R_record_authority_frame (authority response) wl
                (Resolve.authority_cache st) (KLabels (labels z'))
                ltac:(intros rr Hrr [= E]; by apply (H rr))) as Z.
  by destruct (Resolve.record_authority _ _ _) as [[eo wl'] auth].
Qed.

End ResolveStores.



